(** * Acceptance map: encode, tokenize, validate, colorize

    A shallow embedding of [acceptance_map.js] and the properties of its
    core pipeline.  JavaScript strings are sequences of UTF-16 code units
    ([list N]); BigInt values and the integer-valued Numbers of the
    pipeline are [Z]; array positions and grid coordinates are [nat];
    a thrown [Error] is the left side of a sum. *)

From Stdlib Require Import ZArith NArith Lia ZifyNat ZifyN Ascii String.
From stdpp Require Import gmap list sorting.

#[local] Open Scope Z_scope.

(** ** The fragment of the JavaScript library the program calls *)

Module JS.

(** A string is its sequence of UTF-16 code units. *)
Abbreviation jsstring := (list N).

(** ASCII literals, for readable statements. *)
Definition str (s : string) : jsstring :=
  N_of_ascii <$> list_ascii_of_string s.

(** [WhiteSpace] and [LineTerminator] code units, as used by
    [String.prototype.trim] and by the prefix skipping of [parseInt]. *)
Definition isWhiteSpace (c : N) : bool :=
  ((9 <=? c) && (c <=? 13) || (c =? 32) || (c =? 160) || (c =? 5760)
   || (8192 <=? c) && (c <=? 8202) || (c =? 8232) || (c =? 8233)
   || (c =? 8239) || (c =? 8287) || (c =? 12288) || (c =? 65279))%N.

Fixpoint dropWhile {A} (p : A -> bool) (l : list A) : list A :=
  match l with
  | [] => []
  | x :: l' => if p x then dropWhile p l' else l
  end.

(** [s.trim()] *)
Definition trim (s : jsstring) : jsstring :=
  rev (dropWhile isWhiteSpace (rev (dropWhile isWhiteSpace s))).

(** [s.slice(i, j)] for [0 <= i <= j]. *)
Definition slice (i j : nat) (s : jsstring) : jsstring :=
  take (j - i) (drop i s).

(** [s.padStart(n, c)] with a one-unit filler. *)
Definition padStart (n : nat) (c : N) (s : jsstring) : jsstring :=
  replicate (n - length s) c ++ s.

Definition isDecDigit (c : N) : bool := ((48 <=? c) && (c <=? 57))%N.
Definition isBinDigit (c : N) : bool := ((c =? 48) || (c =? 49))%N.

(** The character of a digit value below 36: [0-9a-z]. *)
Definition digitChar (d : N) : N :=
  (if d <? 10 then 48 + d else 87 + d)%N.

(** The digit value of a decimal digit character. *)
Definition digitVal (c : N) : Z := Z.of_N c - 48.

(** Positional value of a digit string, most significant first. *)
Definition digitsValue (radix : Z) (ds : list Z) : Z :=
  foldl (fun acc d => acc * radix + d) 0 ds.

(** Digits of [n] in [radix], most significant first; one division per
    produced digit, stopping when the quotient is zero. *)
Fixpoint digitsLoop (fuel : nat) (radix n : N) (acc : list N) : list N :=
  match fuel with
  | O => acc
  | S fuel' =>
      let acc' := (n mod radix)%N :: acc in
      if (n / radix =? 0)%N then acc'
      else digitsLoop fuel' radix (n / radix)%N acc'
  end.

(** A number below [2^fuel] has at most [fuel] digits in any radix from
    2 up, so the loop below always stops on its own test. *)
Definition digitsOf (radix n : N) : list N :=
  digitsLoop (S (N.to_nat (N.log2 n))) radix n [].

(** [v.toString(radix)] for an integer [v] (Number or BigInt). *)
Definition toStringRadix (radix : N) (v : Z) : jsstring :=
  let ds := digitChar <$> digitsOf radix (Z.abs_N v) in
  if v <? 0 then 45%N :: ds else ds.

(** The longest prefix of decimal digits. *)
Definition takeDigits (s : jsstring) : jsstring :=
  take (length s - length (dropWhile isDecDigit s)) s.

(** [parseInt(s, 10)]: skip leading white space, read an optional sign,
    then the longest prefix of decimal digits; [None] is [NaN], and the
    Number [-0] is identified with [0]. *)
Definition parseInt10 (s : jsstring) : option Z :=
  let s1 := dropWhile isWhiteSpace s in
  let '(sign, s2) :=
    match s1 with
    | c :: r =>
        if (c =? 45)%N then (-1, r)          (* '-' *)
        else if (c =? 43)%N then (1, r)      (* '+' *)
        else (1, s1)
    | [] => (1, s1)
    end in
  match takeDigits s2 with
  | [] => None
  | ds => Some (sign * digitsValue 10 (digitVal <$> ds))
  end.

(** [String.fromCharCode(cp)]: the single code unit [cp mod 2^16]. *)
Definition fromCharCode (cp : N) : jsstring := [(cp mod 65536)%N].

Definition isHighSurrogate (c : N) : bool := ((0xD800 <=? c) && (c <=? 0xDBFF))%N.
Definition isLowSurrogate (c : N) : bool := ((0xDC00 <=? c) && (c <=? 0xDFFF))%N.

(** The values of [for (const ch of s)]: one string per code point, a
    surrogate pair being kept together. *)
Fixpoint chars (s : jsstring) : list jsstring :=
  match s with
  | [] => []
  | c :: rest =>
      match rest with
      | d :: rest' =>
          if isHighSurrogate c && isLowSurrogate d
          then [c; d] :: chars rest'
          else [c] :: chars rest
      | [] => [[c]]
      end
  end.

(** A [Set] in insertion order, as [Array.from] lists it. *)
Definition setAdd {A} `{EqDecision A} (x : A) (s : list A) : list A :=
  if decide (x ∈ s) then s else s ++ [x].

End JS.

Import JS.

(** ** Charset *)

Record block := { name : string; range_lo : N; range_hi : N }.

Definition charsetConfigLite : list block :=
  [ {| name := "Basic Latin"; range_lo := 0x0020; range_hi := 0x007F |};
    {| name := "Latin-1 Supplement"; range_lo := 0x0080; range_hi := 0x00FF |};
    {| name := "Additional Punctuation"; range_lo := 0x2000; range_hi := 0x206F |};
    {| name := "Currency Symbols"; range_lo := 0x20A0; range_hi := 0x20CF |};
    {| name := "Mathematical Operators"; range_lo := 0x2200; range_hi := 0x22FF |};
    {| name := "Miscellaneous Symbols and Arrows"; range_lo := 0x2190; range_hi := 0x21FF |} ]%N.

Definition charsetConfigFull : list block :=
  [ {| name := "Basic Latin"; range_lo := 0x0020; range_hi := 0x007F |};
    {| name := "Latin-1 Supplement"; range_lo := 0x0080; range_hi := 0x00FF |};
    {| name := "Latin Extended-A"; range_lo := 0x0100; range_hi := 0x017F |};
    {| name := "Latin Extended-B"; range_lo := 0x0180; range_hi := 0x024F |};
    {| name := "Greek and Coptic"; range_lo := 0x0370; range_hi := 0x03FF |};
    {| name := "Cyrillic"; range_lo := 0x0400; range_hi := 0x04FF |};
    {| name := "Arabic"; range_lo := 0x0600; range_hi := 0x06FF |};
    {| name := "Hebrew"; range_lo := 0x0590; range_hi := 0x05FF |};
    {| name := "Devanagari"; range_lo := 0x0900; range_hi := 0x097F |};
    {| name := "Mathematical Operators"; range_lo := 0x2200; range_hi := 0x22FF |};
    {| name := "Supplemental Mathematical Operators"; range_lo := 0x2A00; range_hi := 0x2AFF |};
    {| name := "Miscellaneous Technical"; range_lo := 0x2300; range_hi := 0x23FF |};
    {| name := "Miscellaneous Symbols and Arrows"; range_lo := 0x2190; range_hi := 0x21FF |};
    {| name := "CJK Unified Ideographs"; range_lo := 0x4E00; range_hi := 0x9FFF |};
    {| name := "Hangul Syllables"; range_lo := 0xAC00; range_hi := 0xD7AF |};
    {| name := "Hiragana"; range_lo := 0x3040; range_hi := 0x309F |};
    {| name := "Katakana"; range_lo := 0x30A0; range_hi := 0x30FF |};
    {| name := "Bopomofo"; range_lo := 0x3100; range_hi := 0x312F |};
    {| name := "Currency Symbols"; range_lo := 0x20A0; range_hi := 0x20CF |};
    {| name := "Additional Punctuation"; range_lo := 0x2000; range_hi := 0x206F |} ]%N.

(** The code points [lo, lo+1, ..., hi] visited by the inner [for]. *)
Definition codePoints (lo hi : N) : list N :=
  (fun i => lo + N.of_nat i)%N <$> seq 0 (N.to_nat (hi + 1 - lo)).

(** [generateCharsetFromConfig(config)]; [String.fromCharCode] never
    throws, so the [catch] branch is dead. *)
Definition generateCharsetFromConfig (config : list block) : list jsstring :=
  let charset :=
    foldl (fun charset blk =>
             foldl (fun charset cp => setAdd (fromCharCode cp) charset)
                   charset (codePoints (range_lo blk) (range_hi blk)))
          [] config in
  let charset := setAdd [10%N] charset in   (* '\n' *)
  let charset := setAdd [9%N] charset in    (* '\t' *)
  charset.

(** [buildCharIndexMap(charsetArr)] *)
Fixpoint buildCharIndexLoop (charsetArr : list jsstring) (i : nat)
    (m : gmap jsstring nat) : gmap jsstring nat :=
  match charsetArr with
  | [] => m
  | ch :: rest => buildCharIndexLoop rest (S i) (<[ch := i]> m)
  end.

Definition buildCharIndexMap (charsetArr : list jsstring) : gmap jsstring nat :=
  buildCharIndexLoop charsetArr 0%nat ∅.


(** ** Acceptance pipeline *)

Definition MAX_COLOR_INDEX : Z := 16 ^ 6.

(** [isPerfectSquare(n)] for an integer-valued Number [n] below [2^53]
    (the function is only called on [tokens.length], an array length).
    There [Math.sqrt] is exact on a perfect square, and on any other [n]
    the product [r * r] is the square of an integer or exceeds [2^53], so
    the test [r * r === n] answers as the integer square root does.  From
    [2^53] on, the rounding of [r * r] can make the test succeed on a
    non-square; this range is left out. *)
Definition isPerfectSquare (n : Z) : bool :=
  if n <=? 0 then false
  else let r := Z.sqrt n in r * r =? n.

Definition segmentLength : nat := 7.

(** The [for] loop of [tokenizeDecimal7]: [i] runs over 0, 7, 14, ...
    while [i < decimalString.length]. *)
Fixpoint tokenizeLoop (fuel : nat) (decimalString : jsstring) (i : nat)
    (indexes : list Z) : list Z :=
  match fuel with
  | O => indexes
  | S fuel' =>
      if decide (i < length decimalString)%nat then
        let seg := slice i (i + segmentLength) decimalString in
        let indexes' :=
          match parseInt10 seg with
          | Some v => indexes ++ [v]
          | None => indexes
          end in
        tokenizeLoop fuel' decimalString (i + segmentLength) indexes'
      else indexes
  end.

(** [tokenizeDecimal7(decimalString)]; every iteration advances [i] by 7,
    so [length decimalString] iterations always reach the exit test. *)
Definition tokenizeDecimal7 (decimalString : jsstring) : list Z :=
  tokenizeLoop (length decimalString) decimalString 0 [].

Record badToken := { bad_i : nat; bad_v : Z }.
Record rangeResult := { range_ok : bool; range_bad : list badToken }.

(** The test of [areValidColorIndexes]; [Number.isInteger] holds of every
    value of the model. *)
Definition validColorIndex (v : Z) : bool :=
  (1 <=? v) && (v <=? MAX_COLOR_INDEX).

Fixpoint rangeLoop (indexes : list Z) (i : nat) (bad : list badToken)
    : list badToken :=
  match indexes with
  | [] => bad
  | v :: rest =>
      rangeLoop rest (S i)
        (if validColorIndex v then bad else bad ++ [{| bad_i := i; bad_v := v |}])
  end.

(** [areValidColorIndexes(indexes)] *)
Definition areValidColorIndexes (indexes : list Z) : rangeResult :=
  let bad := rangeLoop indexes 0 [] in
  {| range_ok := bool_decide (length bad = 0%nat); range_bad := bad |}.

(** [colorIndexToHex(idx)] *)
Definition colorIndexToHex (idx : Z) : jsstring :=
  let v := idx - 1 in
  str "#" ++ padStart 6 48%N (toStringRadix 16 v).

(** [buildHexSequence(indexes)] *)
Definition buildHexSequence (indexes : list Z) : list jsstring :=
  colorIndexToHex <$> indexes.

Record adjResult := {
  adj_ok : bool;
  adj_m : nat;
  adj_conflicts : list nat;
  adj_reason : jsstring
}.

Section Adjacency.
Variable indexes : list Z.
Variable wrap : bool.
Variable m : nat.

(** [at(r, c)]; [None] is [undefined]. *)
Definition at_ (r c : nat) : option Z := indexes !! (r * m + c)%nat.

(** [add(r, c)] *)
Definition add (r c : nat) (conflicts : gset nat) : gset nat :=
  {[ (r * m + c)%nat ]} ∪ conflicts.

(** The right-neighbour test of one cell. *)
Definition rightStep (r c : nat) (conflicts : gset nat) : gset nat :=
  let cur := at_ r c in
  if decide (c + 1 < m)%nat then
    if decide (cur = at_ r (c + 1)) then add r (c + 1) (add r c conflicts)
    else conflicts
  else if wrap && (1 <? m)%nat then
    if decide (cur = at_ r 0) then add r 0 (add r c conflicts)
    else conflicts
  else conflicts.

(** The down-neighbour test of one cell. *)
Definition downStep (r c : nat) (conflicts : gset nat) : gset nat :=
  let cur := at_ r c in
  if decide (r + 1 < m)%nat then
    if decide (cur = at_ (r + 1) c) then add (r + 1) c (add r c conflicts)
    else conflicts
  else if wrap && (1 <? m)%nat then
    if decide (cur = at_ 0 c) then add 0 c (add r c conflicts)
    else conflicts
  else conflicts.

(** The body of the inner loop. *)
Definition cellStep (r : nat) (conflicts : gset nat) (c : nat) : gset nat :=
  downStep r c (rightStep r c conflicts).

(** The two nested [for] loops over [r] and [c] in [0 .. m-1]. *)
Definition scanGrid : gset nat :=
  foldl (fun conflicts r => foldl (cellStep r) conflicts (seq 0 m))
        ∅ (seq 0 m).
End Adjacency.

(** [adjacencyConflicts(indexes, wrap)] *)
Definition adjacencyConflicts (indexes : list Z) (wrap : bool) : adjResult :=
  let n := Z.of_nat (length indexes) in
  if negb (isPerfectSquare n) then
    {| adj_ok := false; adj_m := 0; adj_conflicts := [];
       adj_reason := str "Tile count is not a perfect square." |}
  else
    let m := Z.to_nat (Z.sqrt n) in
    let conflicts := scanGrid indexes wrap m in
    {| adj_ok := bool_decide (size conflicts = 0%nat);
       adj_m := m;
       adj_conflicts := merge_sort le (elements conflicts);
       adj_reason :=
         if bool_decide (size conflicts = 0%nat) then str "No adjacency conflicts."
         else str "Found " ++ toStringRadix 10 (Z.of_nat (size conflicts))
                ++ str " conflict cell(s)." |}.

(** ** Encoding a state as an integer *)

(** What the program throws, by the message of the [Error]. *)
Inductive error :=
  | InputFormatError (msg : string)
  | EmptyInputError                      (* 'String input cannot be empty.' *)
  | CharsetMembershipError (ch : jsstring). (* 'Character not in charset: ...' *)

(** [/^[cls]+$/.test(t)] for a character class [cls]. *)
Definition testClassPlus (cls : N -> bool) (t : jsstring) : bool :=
  match t with
  | [] => false
  | _ => forallb cls t
  end.

(** [parseDecimalBigInt(s)] *)
Definition parseDecimalBigInt (s : jsstring) : error + Z :=
  let t := trim s in
  if negb (testClassPlus isDecDigit t)
  then inl (InputFormatError "Decimal input must contain only digits 0-9.")
  else inr (digitsValue 10 (digitVal <$> t)).

(** [parseBinaryToBigInt(s)] *)
Definition parseBinaryToBigInt (s : jsstring) : error + Z :=
  let t := trim s in
  if negb (testClassPlus isBinDigit t)
  then inl (InputFormatError "Binary input must contain only 0 and 1.")
  else inr (digitsValue 2 (digitVal <$> t)).

(** [!str || str.trim() === ''] *)
Definition isBlank (s : jsstring) : bool :=
  bool_decide (s = []) || bool_decide (trim s = []).

Section Encoders.
Variable charsetArr : list jsstring.
Variable charToIdx : gmap jsstring nat.

Let k : Z := Z.of_nat (length charsetArr).

Fixpoint classicLoop (chs : list jsstring) (id : Z) : error + Z :=
  match chs with
  | [] => inr id
  | ch :: rest =>
      match charToIdx !! ch with
      | None => inl (CharsetMembershipError ch)
      | Some idx => classicLoop rest (id * k + Z.of_nat idx)
      end
  end.

(** [encodeStringClassic(str, charsetArr, charToIdx)] *)
Definition encodeStringClassic (s : jsstring) : error + Z :=
  if isBlank s then inl EmptyInputError
  else classicLoop (chars s) 0.

Fixpoint bijectiveLoop (chs : list jsstring) (id : Z) : error + Z :=
  match chs with
  | [] => inr id
  | ch :: rest =>
      match charToIdx !! ch with
      | None => inl (CharsetMembershipError ch)
      | Some idx0 =>
          let digit := Z.of_nat idx0 + 1 in
          bijectiveLoop rest (id * k + digit)
      end
  end.

(** [encodeStringBijective(str, charsetArr, charToIdx)] *)
Definition encodeStringBijective (s : jsstring) : error + Z :=
  if isBlank s then inl EmptyInputError
  else bijectiveLoop (chars s) 0.
End Encoders.

(** ** The evaluation triggered from the page *)

Inductive inputModeT := ModeDecimal | ModeBinary | ModeString.
Inductive profileT := ProfileLite | ProfileFull.
Inductive encodingT := EncClassic | EncBijective.

(** What [evaluate] reads from [state] and from the form. *)
Record page := {
  inputMode : inputModeT;
  decimal_input : jsstring;
  binary_input : jsstring;
  string_input : jsstring;
  charset_profile : profileT;
  encoding_mode : encodingT;
  toggle_wrap : bool
}.

(** The arguments of [setAcceptPill]. *)
Record pill := { pill_kind : string; pill_text : string; pill_reason : string }.

(** What [evaluate] computes and hands to the page on the normal path. *)
Record evaluation := {
  ev_base10 : jsstring;
  ev_tokens : list Z;
  ev_range : rangeResult;
  ev_hex : list jsstring;
  ev_squareOk : bool;
  ev_m : nat;
  ev_adj : adjResult;
  ev_accepted : bool;
  ev_pill : pill
}.

(** [ensureCharsetReady()] *)
Definition ensureCharsetReady (profile : profileT)
    : list jsstring * gmap jsstring nat :=
  let cfg := match profile with
             | ProfileFull => charsetConfigFull
             | ProfileLite => charsetConfigLite
             end in
  let charsetArr := generateCharsetFromConfig cfg in
  (charsetArr, buildCharIndexMap charsetArr).

(** Step (i) of [evaluate]: the state as an integer. *)
Definition encodeState (pg : page) : error + Z :=
  match inputMode pg with
  | ModeDecimal => parseDecimalBigInt (decimal_input pg)
  | ModeBinary => parseBinaryToBigInt (binary_input pg)
  | ModeString =>
      let '(charsetArr, charToIdx) := ensureCharsetReady (charset_profile pg) in
      match encoding_mode pg with
      | EncBijective => encodeStringBijective charsetArr charToIdx (string_input pg)
      | EncClassic => encodeStringClassic charsetArr charToIdx (string_input pg)
      end
  end.

Definition emDash : jsstring := [8212%N].

(** Steps (ii) to (v) of [evaluate] and the verdict. *)
Definition judge (N : Z) (wrap : bool) : evaluation :=
  let base10 := toStringRadix 10 N in
  let tokens := tokenizeDecimal7 base10 in
  let range := areValidColorIndexes tokens in
  let hex := if range_ok range then buildHexSequence tokens
             else (fun _ => emDash) <$> tokens in
  let squareOk := isPerfectSquare (Z.of_nat (length tokens)) in
  let m := if squareOk then Z.to_nat (Z.sqrt (Z.of_nat (length tokens))) else 0%nat in
  let adj :=
    if squareOk && range_ok range then adjacencyConflicts tokens wrap
    else {| adj_ok := false; adj_m := m; adj_conflicts := [];
            adj_reason := str "Not evaluated (failed earlier rule)." |} in
  let accepted := squareOk && range_ok range && adj_ok adj in
  let p :=
    if accepted then
      {| pill_kind := "good"; pill_text := "ACCEPT";
         pill_reason := "All rules satisfied" |}
    else
      let reason :=
        (if negb squareOk then "Not a perfect square tile count"
         else if negb (range_ok range) then "One or more tokens out of range"
         else "Adjacent tile conflict(s)")%string in
      {| pill_kind := "bad"; pill_text := "REJECT"; pill_reason := reason |} in
  {| ev_base10 := base10; ev_tokens := tokens; ev_range := range;
     ev_hex := hex; ev_squareOk := squareOk; ev_m := m; ev_adj := adj;
     ev_accepted := accepted; ev_pill := p |}.

(** [evaluate()]: a thrown error is caught and shown instead of a verdict. *)
Definition evaluate (pg : page) : error + evaluation :=
  match encodeState pg with
  | inl err => inl err
  | inr N => inr (judge N (toggle_wrap pg))
  end.

(** ** The Python verifier and circuit deriver ([accept_to_circuits.py]) *)

Module Py.

(** A Python [str] is its sequence of code points. *)
Abbreviation pystr := (list N).

(** [is_perfect_square(n)]; [math.isqrt] is the integer square root. *)
Definition is_perfect_square (n : Z) : bool :=
  if n <=? 0 then false
  else let r := Z.sqrt n in r * r =? n.

Fixpoint takeWhile {A} (p : A -> bool) (l : list A) : list A :=
  match l with
  | [] => []
  | x :: l' => if p x then x :: takeWhile p l' else []
  end.

Section IntBuiltin.
(** The Unicode database, consulted for code points from 127 up:
    [str.isspace] and the decimal value of a digit character. *)
Variable unicode_isspace : N -> bool.
Variable unicode_todecimal : N -> option N.

(** Space, [\t], [\n], [\v], [\f], [\r]. *)
Definition isAsciiSpace (c : N) : bool :=
  ((9 <=? c) && (c <=? 13) || (c =? 32))%N.

(** A non-ASCII string is first rewritten to ASCII: a space for each white
    space, ['0'..'9'] for each decimal digit, and ['?'], ending the text,
    at the first other code point from 127 up. *)
Fixpoint transformLoop (s : pystr) : pystr :=
  match s with
  | [] => []
  | ch :: rest =>
      if (ch <? 127)%N then ch :: transformLoop rest
      else if unicode_isspace ch then 32%N :: transformLoop rest
      else match unicode_todecimal ch with
           | Some d => (48 + d)%N :: transformLoop rest
           | None => [63%N]
           end
  end.

Definition toAsciiDigits (s : pystr) : pystr :=
  if forallb (fun ch => (ch <? 128)%N) s then s else transformLoop s.

Definition isDigitOrUnderscore (c : N) : bool := isDecDigit c || (c =? 95)%N.

(** Underscores may only stand singly between digits. *)
Fixpoint wellGrouped (afterUnderscore : bool) (body : pystr) : bool :=
  match body with
  | [] => negb afterUnderscore
  | c :: rest =>
      if (c =? 95)%N then negb afterUnderscore && wellGrouped true rest
      else wellGrouped false rest
  end.

(** [int(s, 10)]; [None] is [ValueError].  White space around the numeral
    is skipped, a sign may precede it, and the whole text must be used
    up.  The limit on the number of digits of recent versions is left out:
    the program calls [int] on windows of at most 7 characters. *)
Definition int10 (s : pystr) : option Z :=
  let s1 := dropWhile isAsciiSpace (toAsciiDigits s) in
  let '(sign, s2) :=
    match s1 with
    | c :: r =>
        if (c =? 43)%N then (1, r)            (* '+' *)
        else if (c =? 45)%N then (-1, r)      (* '-' *)
        else (1, s1)
    | [] => (1, s1)
    end in
  let body := takeWhile isDigitOrUnderscore s2 in
  let rest := dropWhile isDigitOrUnderscore s2 in
  match body with
  | [] => None
  | c :: _ =>
      if (c =? 95)%N then None
      else if negb (wellGrouped false body) then None
      else match dropWhile isAsciiSpace rest with
           | [] => Some (sign * digitsValue 10
                           (digitVal <$> List.filter (fun d => negb (d =? 95)%N) body))
           | _ => None
           end
  end.

(** [range(0, stop, step)] for a positive [step]. *)
Definition range0 (stop step : nat) : list nat :=
  (fun j => j * step)%nat <$> seq 0 ((stop + step - 1) / step).

(** [decode_id_to_color_indexes(id_string, segment_length)]; [None] is the
    [ValueError] of [range] for a zero step. *)
Definition decode_id_to_color_indexes (id_string : pystr) (segment_length : nat)
    : option (list Z) :=
  if (segment_length =? 0)%nat then None
  else Some (foldl (fun out i =>
                      let seg := take segment_length (drop i id_string) in
                      match int10 seg with
                      | Some v => out ++ [v]
                      | None => out
                      end)
                   [] (range0 (length id_string) segment_length)).
End IntBuiltin.

(** [are_valid_color_indexes(indexes)] *)
Definition are_valid_color_indexes (indexes : list Z) : bool :=
  let max_color_index := 16 ^ 6 in
  forallb (fun x => (1 <=? x) && (x <=? max_color_index)) indexes.

(** [has_adjacent_conflict(indexes, wrap)]; each [return True] inside the
    loops ends the scan.  [idx(r, c)] is always inside the list, since it
    is called with [r, c < m] and the length is [m * m]. *)
Definition has_adjacent_conflict (indexes : list Z) (wrap : bool) : bool :=
  if negb (is_perfect_square (Z.of_nat (length indexes))) then true
  else
    let m := Z.to_nat (Z.sqrt (Z.of_nat (length indexes))) in
    let idx (r c : nat) := indexes !! (r * m + c)%nat in
    existsb (fun r =>
      existsb (fun c =>
        let cur := idx r c in
        (if (c + 1 <? m)%nat then bool_decide (cur = idx r (c + 1)%nat)
         else if wrap && (1 <? m)%nat then bool_decide (cur = idx r 0%nat)
         else false)
        || (if (r + 1 <? m)%nat then bool_decide (cur = idx (r + 1)%nat c)
            else if wrap && (1 <? m)%nat then bool_decide (cur = idx 0%nat c)
            else false))
        (seq 0 m))
      (seq 0 m).

(** [format(v, "06x")]: lowercase hexadecimal, zero-padded to width 6, the
    sign counting in the width. *)
Definition format_06x (v : Z) : pystr :=
  let ds := digitChar <$> digitsOf 16 (Z.abs_N v) in
  if v <? 0 then 45%N :: padStart 5 48%N ds else padStart 6 48%N ds.

(** [color_index_to_hex(index)] *)
Definition color_index_to_hex (index : Z) : pystr :=
  let v := index - 1 in
  str "#" ++ format_06x v.

Record AcceptanceReport := {
  ok : bool;
  reason : pystr;
  m : nat;
  indexes : list Z;
  hex_colors : list pystr
}.

(** [verify_acceptance_from_decimal_string(id_decimal, wrap_adjacency)] *)
Definition verify_acceptance_from_decimal_string
    (unicode_isspace : N -> bool) (unicode_todecimal : N -> option N)
    (id_decimal : pystr) (wrap_adjacency : bool) : option AcceptanceReport :=
  match decode_id_to_color_indexes unicode_isspace unicode_todecimal id_decimal 7 with
  | None => None
  | Some indexes =>
      let side := Z.to_nat (Z.sqrt (Z.of_nat (length indexes))) in
      Some
        (if negb (is_perfect_square (Z.of_nat (length indexes))) then
           {| ok := false;
              reason := str "Token count "
                          ++ toStringRadix 10 (Z.of_nat (length indexes))
                          ++ str " is not a perfect square.";
              m := 0; indexes := indexes; hex_colors := [] |}
         else if negb (are_valid_color_indexes indexes) then
           {| ok := false;
              reason := str "One or more tokens are outside [1..16^6].";
              m := side; indexes := indexes; hex_colors := [] |}
         else if has_adjacent_conflict indexes wrap_adjacency then
           {| ok := false;
              reason := str "Adjacency conflict: at least one orthogonal neighbor pair is equal.";
              m := side; indexes := indexes; hex_colors := [] |}
         else
           {| ok := true; reason := str "Accepted."; m := side;
              indexes := indexes;
              hex_colors := color_index_to_hex <$> indexes |})
  end.

(** *** Circuit derivation *)

Inductive gate :=
  | g_x | g_y | g_z | g_h | g_s | g_sdg | g_t | g_tdg
  | g_rx | g_ry | g_rz | g_cx.

Definition GATES : list gate :=
  [g_x; g_y; g_z; g_h; g_s; g_sdg; g_t; g_tdg; g_rx; g_ry; g_rz; g_cx].

(** What the calls on a [QuantumCircuit] append to it. *)
Inductive instr :=
  | Single (g : gate) (qubit : nat)                  (* [qc.h(c)], ... *)
  | Rotation (g : gate) (angle : Z) (qubit : nat)    (* [qc.rx(ang, c)], ... *)
  | Cx (control target : nat)                        (* [qc.cx(control, target)] *)
  | Barrier.                                         (* [qc.barrier()] *)

(** [token_to_angle(token)], as the multiplier [k] of the returned angle
    [k * (pi / 16)]. *)
Definition token_to_angle (token : Z) : Z :=
  let k := token mod 32 + 1 in
  k.

(** The body of the inner loop of
    [derive_quantum_and_classical_from_grid], on the pair [(qc, cc)].
    The index [tok % len(GATES)] is always inside [GATES]. *)
Definition cellGates (reversible_only : bool) (q : nat) (tok : Z) (c : nat)
    (circ : list instr * list instr) : list instr * list instr :=
  let '(qc, cc) := circ in
  let gate := nth (Z.to_nat (tok mod Z.of_nat (length GATES))) GATES g_x in
  let gate :=
    if reversible_only
    then (if (tok mod 2 =? 1) && (1 <? q)%nat then g_cx else g_x)
    else gate in
  match gate with
  | g_x => (qc ++ [Single g_x c], cc ++ [Single g_x c])
  | g_y | g_z | g_h | g_s | g_sdg | g_t | g_tdg => (qc ++ [Single gate c], cc)
  | g_cx =>
      if (q =? 1)%nat then (qc ++ [Single g_x c], cc ++ [Single g_x c])
      else
        let control := c in
        let shift := 1 + tok mod (Z.of_nat q - 1) in
        let target := Z.to_nat ((Z.of_nat c + shift) mod Z.of_nat q) in
        (qc ++ [Cx control target], cc ++ [Cx control target])
  | g_rx | g_ry | g_rz =>
      let ang := token_to_angle tok in
      (qc ++ [Rotation gate ang c], cc)
  end.

(** One layer: the cells [c] in [range(q)] of row [r], then the barrier.
    [None] is the [IndexError] of [grid_token]. *)
Definition layer (indexes : list Z) (m : nat) (reversible_only : bool)
    (q r : nat) (circ : option (list instr * list instr))
    : option (list instr * list instr) :=
  (fun '(qc, cc) => (qc ++ [Barrier], cc))
    <$> foldl (fun st c =>
                 circ ← st;
                 tok ← indexes !! (r * m + c)%nat;
                 Some (cellGates reversible_only q tok c circ))
              circ (seq 0 q).

(** [derive_quantum_and_classical_from_grid(indexes, m, max_qubits,
    max_layers, reversible_only)] for non-negative [max_qubits] and
    [max_layers]: the instructions of [qc] and of [cc]. *)
Definition derive_quantum_and_classical_from_grid (indexes : list Z) (m : nat)
    (max_qubits max_layers : nat) (reversible_only : bool)
    : option (list instr * list instr) :=
  let q := Nat.min m max_qubits in
  let layers := Nat.min m max_layers in
  foldl (fun st r => layer indexes m reversible_only q r st)
        (Some ([], [])) (seq 0 layers).

End Py.

(** ** Specification-side definitions *)

(** The [k] least significant digits of [n] in [radix], most significant
    first: the zero-padded fixed-width numeral. *)
Fixpoint fixedDigits (k : nat) (radix n : N) : list N :=
  match k with
  | O => []
  | S k' => fixedDigits k' radix (n / radix)%N ++ [(n mod radix)%N]
  end.

(** The value of a numeral written out as a sum of digit times weight. *)
Fixpoint positional (radix : Z) (ds : list Z) : Z :=
  match ds with
  | [] => 0
  | d :: ds' => d * radix ^ Z.of_nat (length ds') + positional radix ds'
  end.

(** A string of decimal digit characters. *)
Definition isDecimalText (s : jsstring) : Prop :=
  Forall (fun c => (48 <= c <= 57)%N) s.

(** The [j]-th window of the tokenizer and the number of windows,
    [ceil(L / 7)], of a text of length [L]. *)
Definition window (s : jsstring) (j : nat) : jsstring :=
  slice (7 * j) (7 * j + 7) s.

Definition windowCount (L : nat) : nat := (L + 6) / 7.

(** The orthogonal neighbours the adjacency scan compares a cell with:
    the cell to the right and the cell below, and across the edge only
    under wrap mode on a grid of side above 1. *)
Inductive neighbour (wrap : bool) (m : nat) : nat * nat -> nat * nat -> Prop :=
  | right_inside r c : (c + 1 < m)%nat -> neighbour wrap m (r, c) (r, (c + 1)%nat)
  | right_wrapped r c :
      (c + 1 = m)%nat -> wrap = true -> (1 < m)%nat ->
      neighbour wrap m (r, c) (r, 0%nat)
  | down_inside r c : (r + 1 < m)%nat -> neighbour wrap m (r, c) ((r + 1)%nat, c)
  | down_wrapped r c :
      (r + 1 = m)%nat -> wrap = true -> (1 < m)%nat ->
      neighbour wrap m (r, c) (0%nat, c).

(** A string of binary digit characters. *)
Definition isBinaryText (s : jsstring) : Prop :=
  Forall (fun c => c = 48%N \/ c = 49%N) s.

(** A string made of white space only (the empty string included). *)
Definition isWhiteSpaceOnly (s : jsstring) : Prop :=
  Forall (fun c => isWhiteSpace c = true) s.

(** ** Worked inputs *)

Definition page_conflict : page :=
  {| inputMode := ModeDecimal;
     decimal_input := str "1000000100000020000003";
     binary_input := []; string_input := [];
     charset_profile := ProfileLite; encoding_mode := EncClassic;
     toggle_wrap := false |}.

Definition page_accepted : page :=
  {| inputMode := ModeDecimal;
     decimal_input := str "1000000200000030000004";
     binary_input := []; string_input := [];
     charset_profile := ProfileLite; encoding_mode := EncClassic;
     toggle_wrap := true |}.

(** ** Further specification-side definitions and inputs *)

(** A decimal text without its leading zeros, ["0"] when nothing is left. *)
Definition stripLeadingZeros (t : jsstring) : jsstring :=
  match dropWhile (fun c => (c =? 48)%N) t with
  | [] => str "0"
  | r => r
  end.

Definition page_padded : page :=
  {| inputMode := ModeDecimal;
     decimal_input := str "  000123456789 ";
     binary_input := []; string_input := [];
     charset_profile := ProfileLite; encoding_mode := EncClassic;
     toggle_wrap := false |}.

(** [k^(n-1) + ... + k + 1], the offset between the two text encodings of
    a string of [n] characters. *)
Fixpoint repunit (k : Z) (n : nat) : Z :=
  match n with
  | O => 0
  | S n' => k ^ Z.of_nat n' + repunit k n'
  end.

(** The last position at which [ch] occurs in [arr]. *)
Definition lastOccurrence (arr : list jsstring) (ch : jsstring) (i : nat) : Prop :=
  arr !! i = Some ch /\ forall j, (i < j)%nat -> arr !! j <> Some ch.

(** The instructions a classical reversible circuit can hold. *)
Definition isClassical (i : Py.instr) : bool :=
  match i with
  | Py.Single Py.g_x _ => true
  | Py.Cx _ _ => true
  | _ => false
  end.

Definition isBarrier (i : Py.instr) : bool :=
  match i with
  | Py.Barrier => true
  | _ => false
  end.

(** An instruction that a circuit on [q] qubits accepts. *)
Definition wellFormed (q : nat) (i : Py.instr) : Prop :=
  match i with
  | Py.Single g c =>
      (c < q)%nat
      /\ g ∈ [Py.g_x; Py.g_y; Py.g_z; Py.g_h; Py.g_s; Py.g_sdg; Py.g_t; Py.g_tdg]
  | Py.Rotation g k c =>
      (c < q)%nat /\ 1 <= k <= 32 /\ g ∈ [Py.g_rx; Py.g_ry; Py.g_rz]
  | Py.Cx control target =>
      (control < q)%nat /\ (target < q)%nat /\ control <> target
  | Py.Barrier => True
  end.

(** ** Numerals *)

(** Linear arithmetic with division by a constant. *)
Ltac div_lia := zify; Z.to_euclidean_division_equations; lia.

Section Numerals.

Lemma digitsValue_snoc radix ds d :
  digitsValue radix (ds ++ [d]) = digitsValue radix ds * radix + d.
Proof. unfold digitsValue. by rewrite foldl_app. Qed.

Lemma digitsValue_bounds radix ds :
  0 < radix ->
  Forall (fun d => 0 <= d < radix) ds ->
  0 <= digitsValue radix ds < radix ^ Z.of_nat (length ds).
Proof.
  intros Hr. induction ds as [|d ds IH] using rev_ind; intros Hds.
  - cbn. lia.
  - apply Forall_app in Hds as [Hds Hd%Forall_inv].
    specialize (IH Hds). rewrite digitsValue_snoc, length_app. cbn [length].
    replace (Z.of_nat (length ds + 1)) with (Z.succ (Z.of_nat (length ds))) by lia.
    rewrite Z.pow_succ_r by lia.
    set (P := radix ^ Z.of_nat (length ds)) in *.
    assert (digitsValue radix ds * radix <= (P - 1) * radix)
      by (apply Z.mul_le_mono_nonneg_r; lia).
    cbn beta in Hd.
    split; [apply Z.add_nonneg_nonneg; [apply Z.mul_nonneg_nonneg|]; lia | lia].
Qed.

Lemma digitsValue_positional radix ds :
  digitsValue radix ds = positional radix ds.
Proof.
  assert (forall acc, foldl (fun a d => a * radix + d) acc ds
                      = acc * radix ^ Z.of_nat (length ds) + positional radix ds) as H.
  { induction ds as [|d ds IH]; intros acc; cbn [foldl positional length].
    - change (Z.of_nat 0) with 0. rewrite Z.pow_0_r. lia.
    - rewrite IH. rewrite Nat2Z.inj_succ, Z.pow_succ_r by lia. lia. }
  unfold digitsValue. rewrite H. lia.
Qed.

End Numerals.

Section Digits.
Variable radix : N.
Hypothesis radix_ge_2 : (2 <= radix)%N.

Lemma fixedDigits_zero k : fixedDigits k radix 0 = replicate k 0%N.
Proof.
  induction k as [|k IH]; [done|].
  cbn [fixedDigits]. rewrite N.Div0.div_0_l, N.Div0.mod_0_l.
  rewrite IH. by rewrite replicate_S_end.
Qed.

Lemma fixedDigits_length k n : length (fixedDigits k radix n) = k.
Proof.
  revert n. induction k as [|k IH]; intros n; [done|].
  cbn [fixedDigits]. rewrite length_app, IH. cbn. lia.
Qed.

Lemma fixedDigits_lt k n : Forall (fun d => (d < radix)%N) (fixedDigits k radix n).
Proof.
  revert n. induction k as [|k IH]; intros n; cbn [fixedDigits]; [constructor|].
  apply Forall_app. split; [apply IH|].
  apply Forall_singleton. apply N.mod_lt. lia.
Qed.

Lemma digitsLoop_spec fuel : forall n acc k,
  (n < 2 ^ N.of_nat fuel)%N -> (0 < fuel)%nat ->
  (n < radix ^ N.of_nat k)%N -> (0 < k)%nat ->
  exists ds, digitsLoop fuel radix n acc = ds ++ acc
             /\ (1 <= length ds <= k)%nat
             /\ replicate (k - length ds) 0%N ++ ds = fixedDigits k radix n.
Proof.
  induction fuel as [|fuel IH]; intros n acc k Hfuel Hpos Hk Hkpos; [lia|].
  destruct k as [|k]; [lia|].
  cbn [digitsLoop]. destruct (N.eqb_spec (n / radix) 0) as [Hq|Hq].
  - exists [(n mod radix)%N]. cbn [length fixedDigits]. rewrite Hq.
    split; [done|]. split; [lia|].
    rewrite fixedDigits_zero. f_equal. f_equal. lia.
  - assert (n / radix < 2 ^ N.of_nat fuel)%N as Hfuel'.
    { rewrite Nat2N.inj_succ, N.pow_succ_r' in Hfuel.
      apply N.Div0.div_lt_upper_bound.
      eapply N.lt_le_trans; [exact Hfuel|].
      apply N.mul_le_mono_r. lia. }
    assert (n / radix < radix ^ N.of_nat k)%N as Hk'.
    { rewrite Nat2N.inj_succ, N.pow_succ_r' in Hk.
      apply N.Div0.div_lt_upper_bound. lia. }
    assert (0 < fuel)%nat as Hpos'.
    { destruct fuel; [|lia]. change (N.of_nat 0) with 0%N in Hfuel'.
      rewrite N.pow_0_r in Hfuel'. by apply N.lt_1_r in Hfuel'. }
    assert (0 < k)%nat as Hkpos'.
    { destruct k; [|lia]. change (N.of_nat 0) with 0%N in Hk'.
      rewrite N.pow_0_r in Hk'. by apply N.lt_1_r in Hk'. }
    destruct (IH (n / radix)%N ((n mod radix)%N :: acc) k Hfuel' Hpos' Hk' Hkpos')
      as (ds & Heq & Hlen & Hfix).
    exists (ds ++ [(n mod radix)%N]). rewrite Heq, <- app_assoc. cbn [app].
    split; [done|]. rewrite length_app. cbn [length fixedDigits].
    split; [lia|]. rewrite <- Hfix, <- app_assoc. do 2 f_equal. lia.
Qed.

Lemma digitsOf_spec n k :
  (n < radix ^ N.of_nat k)%N -> (0 < k)%nat ->
  exists ds, digitsOf radix n = ds
             /\ (1 <= length ds <= k)%nat
             /\ replicate (k - length ds) 0%N ++ ds = fixedDigits k radix n.
Proof.
  intros Hk Hkpos. unfold digitsOf.
  destruct (digitsLoop_spec (S (N.to_nat (N.log2 n))) n [] k) as (ds & Heq & H);
    [|lia|done|done|].
  - rewrite Nat2N.inj_succ, N2Nat.id.
    destruct (N.eq_dec n 0%N) as [->|Hn]; [done|].
    apply N.log2_spec. lia.
  - exists ds. by rewrite Heq, app_nil_r.
Qed.

Lemma lt_pow_self n : (n < radix ^ N.of_nat (S (N.to_nat n)))%N.
Proof.
  rewrite Nat2N.inj_succ, N2Nat.id.
  eapply N.lt_le_trans; [apply (N.pow_gt_lin_r 2 n); lia|].
  etrans; [|apply N.pow_le_mono_l, radix_ge_2]. 
  apply N.pow_le_mono_r; lia.
Qed.

Lemma digitsOf_nonempty n : digitsOf radix n <> [].
Proof.
  destruct (digitsOf_spec n (S (N.to_nat n))) as (ds & -> & Hlen & _);
    [apply lt_pow_self|lia|].
  destruct ds; cbn in Hlen; [lia|done].
Qed.

Lemma digitsOf_lt n : Forall (fun d => (d < radix)%N) (digitsOf radix n).
Proof.
  destruct (digitsOf_spec n (S (N.to_nat n))) as (ds & -> & _ & Hfix);
    [apply lt_pow_self|lia|].
  pose proof (fixedDigits_lt (S (N.to_nat n)) n) as H.
  rewrite <- Hfix in H. by apply Forall_app in H as [_ H].
Qed.

Lemma fixedDigits_inj k a b :
  fixedDigits k radix a = fixedDigits k radix b ->
  (a mod radix ^ N.of_nat k = b mod radix ^ N.of_nat k)%N.
Proof.
  revert a b. induction k as [|k IH]; intros a b H.
  - change (N.of_nat 0) with 0%N. by rewrite N.pow_0_r, !N.mod_1_r.
  - cbn [fixedDigits] in H. apply app_inj_tail in H as [Hhi Hlo].
    apply IH in Hhi. rewrite Nat2N.inj_succ, N.pow_succ_r'.
    rewrite !N.Div0.mod_mul_r. congruence.
Qed.

Lemma fixedDigits_surj ds :
  Forall (fun d => (d < radix)%N) ds ->
  exists n, (n < radix ^ N.of_nat (length ds))%N
            /\ fixedDigits (length ds) radix n = ds.
Proof.
  induction ds as [|d ds IH] using rev_ind; intros Hds.
  - exists 0%N. done.
  - apply Forall_app in Hds as [Hds Hd%Forall_inv]. cbn beta in Hd.
    destruct (IH Hds) as (n & Hn & Hfix).
    exists (n * radix + d)%N. rewrite length_app. cbn [length].
    replace (length ds + 1)%nat with (S (length ds)) by lia.
    rewrite Nat2N.inj_succ, N.pow_succ_r'. cbn [fixedDigits].
    assert ((n * radix + d) / radix = n)%N as ->.
    { rewrite N.div_add_l by lia. rewrite N.div_small by done. lia. }
    assert ((n * radix + d) mod radix = d)%N as ->.
    { rewrite N.add_comm, N.Div0.mod_add. by apply N.mod_small. }
    split; [nia | by rewrite Hfix].
Qed.

(** [toString] followed by [padStart] is the fixed-width numeral. *)
Lemma padStart_toStringRadix k v :
  0 <= v < Z.of_N radix ^ Z.of_nat k -> (0 < k)%nat ->
  padStart k 48%N (toStringRadix radix v)
  = digitChar <$> fixedDigits k radix (Z.to_N v).
Proof.
  intros Hv Hk. unfold toStringRadix, padStart.
  destruct (Z.ltb_spec v 0) as [?|_]; [lia|].
  rewrite Zabs2N.abs_N_nonneg by lia.
  destruct (digitsOf_spec (Z.to_N v) k) as (ds & -> & Hlen & Hfix); [|done|].
  - apply N2Z.inj_lt. rewrite N2Z.inj_pow, Z2N.id, nat_N_Z by lia. lia.
  - rewrite <- Hfix, fmap_app, fmap_replicate, length_fmap. done.
Qed.
End Digits.

Lemma digitChar_inj d e :
  (d < 36)%N -> (e < 36)%N -> digitChar d = digitChar e -> d = e.
Proof.
  unfold digitChar. intros Hd He.
  destruct (N.ltb_spec d 10), (N.ltb_spec e 10); lia.
Qed.

Lemma digitChar_fmap_inj ds es :
  Forall (fun d => (d < 36)%N) ds -> Forall (fun d => (d < 36)%N) es ->
  digitChar <$> ds = digitChar <$> es -> ds = es.
Proof.
  intros Hds. revert es. induction Hds as [|d ds Hd Hds IH]; intros es Hes Heq.
  - by destruct es.
  - destruct Hes as [|e es He Hes]; [done|]. cbn in Heq.
    injection Heq as Hhd Htl. f_equal; [by apply digitChar_inj | by apply IH].
Qed.

Lemma MAX_COLOR_INDEX_eq : MAX_COLOR_INDEX = 16777216.
Proof. reflexivity. Qed.

Lemma colorIndexToHex_fixed v :
  1 <= v <= MAX_COLOR_INDEX ->
  colorIndexToHex v = str "#" ++ (digitChar <$> fixedDigits 6 16 (Z.to_N (v - 1))).
Proof.
  rewrite MAX_COLOR_INDEX_eq. intros Hv. unfold colorIndexToHex. f_equal.
  apply padStart_toStringRadix; [lia | | lia].
  change (Z.of_N 16 ^ Z.of_nat 6) with 16777216. lia.
Qed.

(** C1, as amended: on [1, 16^6] the colorizer returns ["#"] followed by
    the six lowercase hexadecimal digits of [v - 1]; it is injective
    there, sends 1 to ["#000000"] and 16^6 to ["#ffffff"], and reaches
    every ["#"]-prefixed string of six lowercase hexadecimal digits. *)
Theorem colorIndexToHex_bijection (a b : Z) :
  1 <= a <= MAX_COLOR_INDEX -> 1 <= b <= MAX_COLOR_INDEX ->
  colorIndexToHex a = str "#" ++ (digitChar <$> fixedDigits 6 16 (Z.to_N (a - 1)))
  /\ (colorIndexToHex a = colorIndexToHex b -> a = b)
  /\ colorIndexToHex 1 = str "#000000"
  /\ colorIndexToHex 16777216 = str "#ffffff"
  /\ (forall ds, length ds = 6%nat -> Forall (fun d => (d < 16)%N) ds ->
        exists v, 1 <= v <= MAX_COLOR_INDEX
                  /\ colorIndexToHex v = str "#" ++ (digitChar <$> ds)).
Proof.
  intros Ha Hb. split; [by apply colorIndexToHex_fixed|].
  split; [|split; [done|split; [done|]]].
  - rewrite !colorIndexToHex_fixed by done. intros Heq.
    apply app_inv_head in Heq.
    apply digitChar_fmap_inj in Heq.
    2,3: eapply Forall_impl; [apply (fixedDigits_lt 16); lia | cbn; lia].
    apply (fixedDigits_inj 16) in Heq.
    rewrite MAX_COLOR_INDEX_eq in *.
    change (16 ^ N.of_nat 6)%N with 16777216%N in Heq.
    rewrite !N.mod_small in Heq by lia. lia.
  - intros ds Hlen Hds.
    destruct (fixedDigits_surj 16 ltac:(lia) ds Hds) as (n & Hn & Hfix).
    rewrite Hlen in Hn, Hfix. change (16 ^ N.of_nat 6)%N with 16777216%N in Hn.
    exists (Z.of_N n + 1). rewrite MAX_COLOR_INDEX_eq.
    split; [lia|]. rewrite colorIndexToHex_fixed by (rewrite MAX_COLOR_INDEX_eq; lia).
    do 2 f_equal. rewrite <- Hfix. f_equal. lia.
Qed.

Lemma colorIndexToHex_bijection_witness :
  colorIndexToHex 256 = str "#0000ff"
  /\ (colorIndexToHex 256 = colorIndexToHex 4096 -> 256 = 4096).
Proof.
  destruct (colorIndexToHex_bijection 256 4096) as (H1 & H2 & _);
    [rewrite MAX_COLOR_INDEX_eq; lia | rewrite MAX_COLOR_INDEX_eq; lia |].
  split; [rewrite H1; reflexivity | exact H2].
Defined.

(** The claim as stated fails: the result of the colorizer starts with
    ["#"], so it is never a six-character string. *)
Lemma colorIndexToHex_not_bare_hex :
  colorIndexToHex 1 <> str "000000" /\ colorIndexToHex 16777216 <> str "ffffff".
Proof. split; discriminate. Qed.

(** ** Tokenizer *)

Lemma dropWhile_all {A} (p : A -> bool) l :
  Forall (fun x => p x = true) l -> dropWhile p l = [].
Proof. induction 1 as [|x l Hx _ IH]; cbn; [done|]. by rewrite Hx. Qed.

Lemma isDecDigit_spec c : isDecDigit c = true <-> (48 <= c <= 57)%N.
Proof. unfold isDecDigit. rewrite andb_true_iff, !N.leb_le. done. Qed.

Lemma decDigit_not_space c : (48 <= c <= 57)%N -> isWhiteSpace c = false.
Proof.
  intros Hc. unfold isWhiteSpace.
  repeat match goal with
  | |- context [N.leb ?a ?b] => destruct (N.leb_spec a b); try lia
  | |- context [N.eqb ?a ?b] => destruct (N.eqb_spec a b); try lia
  end; done.
Qed.

Lemma isDecimalText_forallb s :
  isDecimalText s -> Forall (fun c => isDecDigit c = true) s.
Proof.
  intros Hs. eapply Forall_impl; [exact Hs|]. intros c. by rewrite isDecDigit_spec.
Qed.

Lemma takeDigits_all s : isDecimalText s -> takeDigits s = s.
Proof.
  intros Hs. unfold takeDigits.
  rewrite dropWhile_all by by apply isDecimalText_forallb.
  cbn [length]. rewrite Nat.sub_0_r. apply firstn_all.
Qed.

(** On a non-empty digit string [parseInt] returns its decimal value. *)
Lemma parseInt10_digits seg :
  seg <> [] -> isDecimalText seg ->
  parseInt10 seg = Some (digitsValue 10 (digitVal <$> seg)).
Proof.
  intros Hne Hseg. destruct seg as [|c seg]; [done|].
  pose proof (Forall_inv Hseg) as Hc. cbn beta in Hc.
  unfold parseInt10. cbn [dropWhile]. rewrite decDigit_not_space by done.
  destruct (N.eqb_spec c 45); [lia|]. destruct (N.eqb_spec c 43); [lia|].
  rewrite takeDigits_all by done. f_equal. lia.
Qed.

Lemma windowCount_step L i :
  (i < L)%nat -> windowCount (L - i) = S (windowCount (L - (i + 7))).
Proof. unfold windowCount. intros. div_lia. Qed.

Lemma windowCount_done L i : (L <= i)%nat -> windowCount (L - i) = 0%nat.
Proof. unfold windowCount. intros. div_lia. Qed.

Lemma tokenizeLoop_spec s fuel : forall q indexes,
  (windowCount (length s - 7 * q) <= fuel)%nat ->
  tokenizeLoop fuel s (7 * q) indexes
  = indexes ++ omap (fun j => parseInt10 (window s j))
                    (seq q (windowCount (length s - 7 * q))).
Proof.
  induction fuel as [|fuel IH]; intros q indexes Hfuel.
  - replace (windowCount (length s - 7 * q)) with 0%nat by lia.
    cbn. by rewrite app_nil_r.
  - cbn [tokenizeLoop]. destruct (decide (7 * q < length s)%nat) as [Hlt|Hge].
    + rewrite (windowCount_step _ _ Hlt) in Hfuel |- *.
      unfold segmentLength. replace (7 * q + 7)%nat with (7 * S q)%nat in * by lia.
      rewrite IH by lia. cbn [seq omap list_omap].
      replace (slice (7 * q) (7 * S q) s) with (window s q)
        by (unfold window; f_equal; lia).
      destruct (parseInt10 (window s q)); [by rewrite <- app_assoc | done].
    + rewrite windowCount_done by lia. cbn. by rewrite app_nil_r.
Qed.

Lemma tokenizeLoop_from_start s fuel :
  (windowCount (length s) <= fuel)%nat ->
  tokenizeLoop fuel s 0 []
  = omap (fun j => parseInt10 (window s j)) (seq 0 (windowCount (length s))).
Proof.
  intros Hfuel. pose proof (tokenizeLoop_spec s fuel 0 []) as H.
  rewrite Nat.mul_0_r, Nat.sub_0_r in H. by apply H.
Qed.

Lemma windowCount_le L : (windowCount L <= L)%nat.
Proof. unfold windowCount. div_lia. Qed.

(** The fuel of [tokenizeDecimal7] is never exhausted: more fuel gives the
    same token stream. *)
Lemma tokenizeDecimal7_fuel s extra :
  tokenizeLoop (length s + extra) s 0 [] = tokenizeDecimal7 s.
Proof.
  unfold tokenizeDecimal7. pose proof (windowCount_le (length s)).
  rewrite !tokenizeLoop_from_start by lia. done.
Qed.

Lemma tokenizeDecimal7_windows s :
  tokenizeDecimal7 s
  = omap (fun j => parseInt10 (window s j)) (seq 0 (windowCount (length s))).
Proof. apply tokenizeLoop_from_start, windowCount_le. Qed.

Lemma window_length s j :
  length (window s j) = Nat.min 7 (length s - 7 * j).
Proof. unfold window, slice. rewrite length_take, length_drop. lia. Qed.

Lemma window_decimal s j : isDecimalText s -> isDecimalText (window s j).
Proof. intros Hs. unfold window, slice. by apply Forall_take, Forall_drop. Qed.

Lemma omap_total {A B} (f : A -> option B) (g : A -> B) l :
  Forall (fun x => f x = Some (g x)) l -> omap f l = g <$> l.
Proof. induction 1 as [|x l Hx _ IH]; cbn; [done|]. by rewrite Hx, IH. Qed.

Lemma tokenizeDecimal7_decimal s :
  isDecimalText s ->
  tokenizeDecimal7 s
  = (fun j => digitsValue 10 (digitVal <$> window s j))
      <$> seq 0 (windowCount (length s)).
Proof.
  intros Hs. rewrite tokenizeDecimal7_windows. apply omap_total.
  apply Forall_forall. intros j Hj%elem_of_seq.
  apply parseInt10_digits; [|by apply window_decimal].
  intros Hnil. apply (f_equal length) in Hnil. rewrite window_length in Hnil.
  cbn [length] in Hnil. unfold windowCount in Hj. div_lia.
Qed.

Lemma isDecimalText_bool s : forallb isDecDigit s = true -> isDecimalText s.
Proof.
  intros H. apply Forall_forall. intros c Hc.
  apply isDecDigit_spec. rewrite forallb_forall in H. apply H.
  by apply list_elem_of_In.
Qed.

Lemma tokenizeDecimal7_length s :
  isDecimalText s -> length (tokenizeDecimal7 s) = windowCount (length s).
Proof.
  intros Hs. by rewrite tokenizeDecimal7_decimal, length_fmap, length_seq.
Qed.

(** C5: a decimal text of length [L] yields [ceil(L/7)] tokens, the values
    of the successive 7-character windows from offset 0; every window but
    the last is 7 characters wide, the last one is not padded, and a text
    of length [7k] yields [k] full-width tokens. *)
Theorem tokenizeDecimal7_count (s : jsstring) :
  isDecimalText s ->
  tokenizeDecimal7 s
  = (fun j => positional 10 (digitVal <$> take 7 (drop (7 * j) s)))
      <$> seq 0 (windowCount (length s))
  /\ length (tokenizeDecimal7 s) = windowCount (length s)
  /\ (length s <= 7 * windowCount (length s) < length s + 7)%nat
  /\ (forall j, (j < windowCount (length s))%nat ->
        length (take 7 (drop (7 * j) s)) = Nat.min 7 (length s - 7 * j)
        /\ (1 <= length (take 7 (drop (7 * j) s)) <= 7)%nat
        /\ ((S j < windowCount (length s))%nat ->
            length (take 7 (drop (7 * j) s)) = 7%nat))
  /\ (forall k, length s = (7 * k)%nat ->
        length (tokenizeDecimal7 s) = k
        /\ forall j, (j < k)%nat -> length (take 7 (drop (7 * j) s)) = 7%nat).
Proof.
  intros Hs.
  assert (forall j, take 7 (drop (7 * j) s) = window s j) as Hw.
  { intros j. unfold window, slice. do 2 f_equal. lia. }
  split; [|split; [by apply tokenizeDecimal7_length|split]].
  - rewrite tokenizeDecimal7_decimal by done. apply list_fmap_ext.
    intros _ j _. by rewrite Hw, digitsValue_positional.
  - unfold windowCount. div_lia.
  - split.
    + intros j Hj. rewrite Hw, window_length. unfold windowCount in *.
      split; [done|]. split; div_lia.
    + intros k Hk. rewrite tokenizeDecimal7_length by done.
      split; [unfold windowCount; div_lia|].
      intros j Hj. rewrite Hw, window_length. lia.
Qed.

Lemma tokenizeDecimal7_count_witness :
  length (tokenizeDecimal7 (str "12345678")) = 2%nat
  /\ tokenizeDecimal7 (str "12345678") = [1234567; 8].
Proof.
  destruct (tokenizeDecimal7_count (str "12345678")) as (Htok & Hlen & _);
    [apply isDecimalText_bool; reflexivity|].
  split; [exact Hlen | rewrite Htok; reflexivity].
Defined.

(** ** Range check *)

Lemma validColorIndex_spec v :
  validColorIndex v = true <-> 1 <= v <= MAX_COLOR_INDEX.
Proof. unfold validColorIndex. by rewrite andb_true_iff, !Z.leb_le. Qed.

Lemma validColorIndex_false v :
  validColorIndex v = false <-> ~ (1 <= v <= MAX_COLOR_INDEX).
Proof. by rewrite <- validColorIndex_spec, not_true_iff_false. Qed.

Lemma elem_of_rangeLoop indexes : forall i0 bad e,
  e ∈ rangeLoop indexes i0 bad
  <-> e ∈ bad \/ exists j v, indexes !! j = Some v
                            /\ validColorIndex v = false
                            /\ e = {| bad_i := i0 + j; bad_v := v |}.
Proof.
  induction indexes as [|w rest IH]; intros i0 bad e; cbn [rangeLoop].
  - split; [by left|]. intros [?|(j & v & Hj & _)]; [done|]. by destruct j.
  - rewrite IH. split.
    + intros [Hin|(j & v & Hj & Hv & ->)].
      * destruct (validColorIndex w) eqn:Hw; [by left|].
        apply elem_of_app in Hin as [?|He%list_elem_of_singleton]; [by left|subst e].
        right. exists 0%nat, w. rewrite Nat.add_0_r. done.
      * right. exists (S j), v. repeat split; [done..|]. f_equal. lia.
    + intros [Hin|(j & v & Hj & Hv & ->)].
      * left. destruct (validColorIndex w); [done|]. apply elem_of_app. by left.
      * destruct j as [|j]; cbn in Hj.
        -- simplify_eq. left. rewrite Hv, Nat.add_0_r.
           apply elem_of_app. right. by apply list_elem_of_singleton.
        -- right. exists j, v. repeat split; [done..|]. f_equal. lia.
Qed.

Lemma elem_of_range_bad indexes i v :
  {| bad_i := i; bad_v := v |} ∈ range_bad (areValidColorIndexes indexes)
  <-> indexes !! i = Some v /\ validColorIndex v = false.
Proof.
  cbn [areValidColorIndexes range_bad]. rewrite elem_of_rangeLoop. split.
  - intros [Hin|(j & w & Hj & Hw & Heq)]; [by apply elem_of_nil in Hin|].
    by simplify_eq.
  - intros [Hi Hv]. right. by exists i, v.
Qed.

Lemma range_ok_spec indexes :
  range_ok (areValidColorIndexes indexes) = true
  <-> Forall (fun v => 1 <= v <= MAX_COLOR_INDEX) indexes.
Proof.
  cbn [areValidColorIndexes range_ok]. rewrite bool_decide_eq_true.
  rewrite length_zero_iff_nil. split.
  - intros Hnil. apply Forall_lookup. intros i v Hi.
    destruct (validColorIndex v) eqn:Hv.
    + by apply validColorIndex_spec.
    + assert ({| bad_i := i; bad_v := v |} ∈ rangeLoop indexes 0 []) as Hin
        by (apply elem_of_rangeLoop; right; by exists i, v).
      rewrite Hnil in Hin. by apply elem_of_nil in Hin.
  - intros Hall. destruct (rangeLoop indexes 0 []) as [|e bad] eqn:Hbad; [done|].
    assert (e ∈ rangeLoop indexes 0 []) as Hin by (rewrite Hbad; left).
    apply elem_of_rangeLoop in Hin as [Hin|(j & v & Hj & Hv & _)];
      [by apply elem_of_nil in Hin|].
    rewrite Forall_lookup in Hall. specialize (Hall j v Hj).
    by apply validColorIndex_false in Hv.
Qed.

Lemma digitVal_decimal ds :
  isDecimalText ds -> Forall (fun d => 0 <= d < 10) (digitVal <$> ds).
Proof.
  intros Hds. apply Forall_fmap. eapply Forall_impl; [exact Hds|].
  intros c Hc. unfold compose, digitVal. cbn beta in *. lia.
Qed.

Lemma token_bounds s :
  isDecimalText s -> Forall (fun v => 0 <= v <= 9999999) (tokenizeDecimal7 s).
Proof.
  intros Hs. rewrite tokenizeDecimal7_decimal by done.
  apply Forall_fmap, Forall_forall. intros j _. unfold compose. cbn beta.
  pose proof (digitsValue_bounds 10 (digitVal <$> window s j) ltac:(lia)
                (digitVal_decimal _ (window_decimal s j Hs))) as [Hlo Hhi].
  rewrite length_fmap, window_length in Hhi.
  assert (10 ^ Z.of_nat (Nat.min 7 (length s - 7 * j)) <= 10 ^ 7)
    by (apply Z.pow_le_mono_r; lia).
  change (10 ^ 7) with 10000000 in *. lia.
Qed.

(** C8: a token of a decimal text is at most 9,999,999, below the bound
    16^6 of the range check, so the tokens that fail the range check are
    exactly the zero tokens. *)
Theorem tokens_fail_range_iff_zero (s : jsstring) :
  isDecimalText s ->
  Forall (fun v => 0 <= v <= 9999999) (tokenizeDecimal7 s)
  /\ 9999999 < MAX_COLOR_INDEX
  /\ MAX_COLOR_INDEX = 16777216
  /\ (forall i v,
        {| bad_i := i; bad_v := v |}
          ∈ range_bad (areValidColorIndexes (tokenizeDecimal7 s))
        <-> tokenizeDecimal7 s !! i = Some v /\ v = 0)
  /\ (range_ok (areValidColorIndexes (tokenizeDecimal7 s)) = false
      <-> 0 ∈ tokenizeDecimal7 s).
Proof.
  intros Hs. pose proof (token_bounds s Hs) as Hb.
  split; [done|]. split; [done|]. split; [done|]. split.
  - intros i v. rewrite elem_of_range_bad. split; intros [Hi Hv]; (split; [done|]).
    + rewrite Forall_lookup in Hb. specialize (Hb i v Hi). cbn in Hb.
      apply validColorIndex_false in Hv. rewrite MAX_COLOR_INDEX_eq in Hv. lia.
    + by subst v.
  - rewrite <- not_true_iff_false, range_ok_spec. split.
    + intros Hnot. apply not_Forall_Exists in Hnot; [|intros v; apply _].
      apply Exists_exists in Hnot as (v & Hin & Hv).
      rewrite Forall_forall in Hb. specialize (Hb v Hin).
      unfold compose in Hv. cbn beta in Hv, Hb. rewrite MAX_COLOR_INDEX_eq in Hv.
      by replace v with 0 in Hin by lia.
    + intros Hin Hall. rewrite Forall_forall in Hall.
      specialize (Hall 0 Hin). cbn in Hall. lia.
Qed.

Lemma tokens_fail_range_iff_zero_witness :
  range_ok (areValidColorIndexes (tokenizeDecimal7 (str "12345670000000"))) = false.
Proof.
  destruct (tokens_fail_range_iff_zero (str "12345670000000")) as (_ & _ & _ & _ & H);
    [apply isDecimalText_bool; reflexivity|].
  apply H. vm_compute. apply list_elem_of_In. right. left. reflexivity.
Defined.

(** ** Shape check *)

Lemma isPerfectSquare_spec n :
  isPerfectSquare n = true <-> exists m, 0 < m /\ m * m = n.
Proof.
  unfold isPerfectSquare. destruct (Z.leb_spec n 0) as [Hle|Hlt].
  - split; [done|]. intros (m & Hm & <-). nia.
  - rewrite Z.eqb_eq. split.
    + intros Hr. exists (Z.sqrt n). split; [|done].
      pose proof (Z.sqrt_nonneg n). nia.
    + intros (m & Hm & <-). rewrite Z.sqrt_square by lia. done.
Qed.

Lemma isPerfectSquare_side (m : nat) :
  (0 < m)%nat ->
  isPerfectSquare (Z.of_nat (m * m)) = true
  /\ Z.to_nat (Z.sqrt (Z.of_nat (m * m))) = m.
Proof.
  intros Hm. split.
  - apply isPerfectSquare_spec. exists (Z.of_nat m). lia.
  - rewrite Nat2Z.inj_mul, Z.sqrt_square by lia. lia.
Qed.

(** The guard [n <= 0] of the shape check. *)
Lemma isPerfectSquare_nonpositive n : n <= 0 -> isPerfectSquare n = false.
Proof. intros Hn. unfold isPerfectSquare. by destruct (Z.leb_spec n 0); [|lia]. Qed.

(** ** Adjacency scan *)

Section AdjacencyFacts.
#[local] Set Warnings "-clear-no-such-hyp".
Variable indexes : list Z.
Variable wrap : bool.
Variable m : nat.

Lemma rightStep_union r c s :
  rightStep indexes wrap m r c s = rightStep indexes wrap m r c ∅ ∪ s.
Proof.
  unfold rightStep, add.
  destruct (decide (c + 1 < m)%nat);
    [destruct (decide _) | destruct (wrap && _); [destruct (decide _)|]];
    set_solver.
Qed.

Lemma downStep_union r c s :
  downStep indexes wrap m r c s = downStep indexes wrap m r c ∅ ∪ s.
Proof.
  unfold downStep, add.
  destruct (decide (r + 1 < m)%nat);
    [destruct (decide _) | destruct (wrap && _); [destruct (decide _)|]];
    set_solver.
Qed.

(** What one cell adds to the conflict set. *)
Lemma elem_of_cellStep r c s k :
  k ∈ cellStep indexes wrap m r s c
  <-> k ∈ s \/ k ∈ rightStep indexes wrap m r c ∅
      \/ k ∈ downStep indexes wrap m r c ∅.
Proof.
  unfold cellStep. rewrite downStep_union, rightStep_union. set_solver.
Qed.

Lemma elem_of_row r cs : forall s k,
  k ∈ foldl (cellStep indexes wrap m r) s cs
  <-> k ∈ s \/ exists c, c ∈ cs /\ k ∈ cellStep indexes wrap m r ∅ c.
Proof.
  induction cs as [|c cs IH]; intros s k; cbn [foldl].
  - split; [by left|]. intros [?|(c & Hc & _)]; [done|]. by apply elem_of_nil in Hc.
  - rewrite IH, elem_of_cellStep. split.
    + intros [[?|Hk]|(c' & Hc' & Hk)]; [by left| |].
      * right. exists c. split; [left|]. apply elem_of_cellStep. by right.
      * right. exists c'. split; [by right|done].
    + intros [?|(c' & Hc' & Hk)]; [by left; left|].
      apply elem_of_cons in Hc' as [->|Hc'].
      * apply elem_of_cellStep in Hk as [Hk|Hk]; [set_solver|]. left. by right.
      * right. by exists c'.
Qed.

Lemma elem_of_rows rs cs : forall s k,
  k ∈ foldl (fun s r => foldl (cellStep indexes wrap m r) s cs) s rs
  <-> k ∈ s \/ exists r c, r ∈ rs /\ c ∈ cs /\ k ∈ cellStep indexes wrap m r ∅ c.
Proof.
  induction rs as [|r rs IH]; intros s k; cbn [foldl].
  - split; [by left|]. intros [?|(r & c & Hr & _)]; [done|]. by apply elem_of_nil in Hr.
  - rewrite IH, elem_of_row. split.
    + intros [[?|(c & Hc & Hk)]|(r' & c & Hr' & Hc & Hk)]; [by left| |].
      * right. exists r, c. split; [left|done].
      * right. exists r', c. split; [by right|done].
    + intros [?|(r' & c & Hr' & Hc & Hk)]; [by left; left|].
      apply elem_of_cons in Hr' as [->|Hr'].
      * left. right. by exists c.
      * right. by exists r', c.
Qed.

Lemma elem_of_scanGrid k :
  k ∈ scanGrid indexes wrap m
  <-> exists r c, (r < m)%nat /\ (c < m)%nat
                  /\ k ∈ cellStep indexes wrap m r ∅ c.
Proof.
  unfold scanGrid. rewrite elem_of_rows. split.
  - intros [Hk|(r & c & Hr%elem_of_seq & Hc%elem_of_seq & Hk)]; [set_solver|].
    exists r, c. repeat split; [lia..|done].
  - intros (r & c & Hr & Hc & Hk). right. exists r, c.
    rewrite !elem_of_seq. repeat split; [lia..|done].
Qed.

Lemma rightStep_inside r c :
  (c + 1 < m)%nat -> at_ indexes m r c = at_ indexes m r (c + 1) ->
  rightStep indexes wrap m r c ∅ = add m r (c + 1) (add m r c ∅).
Proof.
  intros Hlt Heq. unfold rightStep. rewrite decide_True by done.
  by rewrite decide_True by done.
Qed.

Lemma rightStep_wrapped r c :
  (c + 1 = m)%nat -> wrap = true -> (1 < m)%nat ->
  at_ indexes m r c = at_ indexes m r 0 ->
  rightStep indexes wrap m r c ∅ = add m r 0 (add m r c ∅).
Proof.
  intros Hlast Hwrap Hm Heq. unfold rightStep. rewrite decide_False by lia.
  rewrite Hwrap, (proj2 (Nat.ltb_lt 1 m) Hm). cbn [andb].
  by rewrite decide_True by done.
Qed.

Lemma downStep_inside r c :
  (r + 1 < m)%nat -> at_ indexes m r c = at_ indexes m (r + 1) c ->
  downStep indexes wrap m r c ∅ = add m (r + 1) c (add m r c ∅).
Proof.
  intros Hlt Heq. unfold downStep. rewrite decide_True by done.
  by rewrite decide_True by done.
Qed.

Lemma downStep_wrapped r c :
  (r + 1 = m)%nat -> wrap = true -> (1 < m)%nat ->
  at_ indexes m r c = at_ indexes m 0 c ->
  downStep indexes wrap m r c ∅ = add m 0 c (add m r c ∅).
Proof.
  intros Hlast Hwrap Hm Heq. unfold downStep. rewrite decide_False by lia.
  rewrite Hwrap, (proj2 (Nat.ltb_lt 1 m) Hm). cbn [andb].
  by rewrite decide_True by done.
Qed.

Lemma elem_of_add_pair r c r' c' :
  (r * m + c)%nat ∈ add m r' c' (add m r c ∅)
  /\ (r' * m + c')%nat ∈ add m r' c' (add m r c ∅).
Proof. unfold add. set_solver. Qed.

(** A cell marks itself and its neighbour when their values are equal. *)
Lemma cellStep_marks p q :
  neighbour wrap m p q ->
  at_ indexes m p.1 p.2 = at_ indexes m q.1 q.2 ->
  (p.1 * m + p.2)%nat ∈ cellStep indexes wrap m p.1 ∅ p.2
  /\ (q.1 * m + q.2)%nat ∈ cellStep indexes wrap m p.1 ∅ p.2.
Proof.
  intros Hn. rewrite !elem_of_cellStep.
  destruct Hn as [r c Hlt|r c Hlast Hwrap Hm|r c Hlt|r c Hlast Hwrap Hm];
    cbn [fst snd]; intros Heq.
  - rewrite rightStep_inside by done.
    destruct (elem_of_add_pair r c r (c + 1)). auto.
  - rewrite rightStep_wrapped by done.
    destruct (elem_of_add_pair r c r 0). auto.
  - rewrite downStep_inside by done.
    destruct (elem_of_add_pair r c (r + 1) c). auto.
  - rewrite downStep_wrapped by done.
    destruct (elem_of_add_pair r c 0 c). auto.
Qed.

(** Every mark of a cell comes from an equal pair of neighbours. *)
Lemma cellStep_sound r c k :
  (c < m)%nat -> (r < m)%nat ->
  k ∈ cellStep indexes wrap m r ∅ c ->
  exists r' c', neighbour wrap m (r, c) (r', c')
                /\ at_ indexes m r c = at_ indexes m r' c'
                /\ (k = (r * m + c)%nat \/ k = (r' * m + c')%nat).
Proof.
  intros Hc Hr. rewrite elem_of_cellStep. intros [Hk|[Hk|Hk]]; [set_solver| |].
  - unfold rightStep in Hk. destruct (decide (c + 1 < m)%nat) as [Hlt|Hge].
    + destruct (decide _) as [Heq|_] in Hk; [|set_solver].
      exists r, (c + 1)%nat. split; [by constructor|]. split; [done|].
      unfold add in Hk. set_solver.
    + destruct wrap eqn:Hwrap; [|set_solver]. cbn [andb] in Hk.
      destruct (Nat.ltb_spec 1 m) as [Hm|_]; [|set_solver].
      destruct (decide _) as [Heq|_] in Hk; [|set_solver].
      exists r, 0%nat. split; [constructor; [lia|done..]|]. split; [done|].
      unfold add in Hk. set_solver.
  - unfold downStep in Hk. destruct (decide (r + 1 < m)%nat) as [Hlt|Hge].
    + destruct (decide _) as [Heq|_] in Hk; [|set_solver].
      exists (r + 1)%nat, c. split; [by constructor|]. split; [done|].
      unfold add in Hk. set_solver.
    + destruct wrap eqn:Hwrap; [|set_solver]. cbn [andb] in Hk.
      destruct (Nat.ltb_spec 1 m) as [Hm|_]; [|set_solver].
      destruct (decide _) as [Heq|_] in Hk; [|set_solver].
      exists 0%nat, c. split; [constructor; [lia|done..]|]. split; [done|].
      unfold add in Hk. set_solver.
Qed.
End AdjacencyFacts.

Lemma adjacencyConflicts_square indexes wrap m :
  length indexes = (m * m)%nat -> (0 < m)%nat ->
  adjacencyConflicts indexes wrap
  = let conflicts := scanGrid indexes wrap m in
    {| adj_ok := bool_decide (size conflicts = 0%nat);
       adj_m := m;
       adj_conflicts := merge_sort le (elements conflicts);
       adj_reason :=
         if bool_decide (size conflicts = 0%nat) then str "No adjacency conflicts."
         else str "Found " ++ toStringRadix 10 (Z.of_nat (size conflicts))
                ++ str " conflict cell(s)." |}.
Proof.
  intros Hlen Hm. unfold adjacencyConflicts. rewrite Hlen.
  destruct (isPerfectSquare_side m Hm) as [-> ->]. done.
Qed.

Lemma elem_of_adj_conflicts indexes wrap m k :
  length indexes = (m * m)%nat -> (0 < m)%nat ->
  k ∈ adj_conflicts (adjacencyConflicts indexes wrap)
  <-> k ∈ scanGrid indexes wrap m.
Proof.
  intros Hlen Hm. rewrite (adjacencyConflicts_square _ _ m) by done.
  cbn [adj_conflicts]. rewrite merge_sort_Permutation. apply elem_of_elements.
Qed.

(** C7: when the scan finds a cell and one of its right or down
    neighbours (across the edge only under wrap mode with [m > 1]) holding
    equal values, both cells are in the reported conflict set; and every
    reported cell belongs to such a pair. *)
Theorem adjacencyConflicts_symmetric (indexes : list Z) (wrap : bool)
    (m r c r' c' : nat) :
  length indexes = (m * m)%nat -> (r < m)%nat -> (c < m)%nat ->
  neighbour wrap m (r, c) (r', c') ->
  indexes !! (r * m + c)%nat = indexes !! (r' * m + c')%nat ->
  adj_m (adjacencyConflicts indexes wrap) = m
  /\ (r * m + c)%nat ∈ adj_conflicts (adjacencyConflicts indexes wrap)
  /\ (r' * m + c')%nat ∈ adj_conflicts (adjacencyConflicts indexes wrap)
  /\ adj_ok (adjacencyConflicts indexes wrap) = false
  /\ (forall k, k ∈ adj_conflicts (adjacencyConflicts indexes wrap) ->
        exists r1 c1 r2 c2,
          (r1 < m)%nat /\ (c1 < m)%nat
          /\ neighbour wrap m (r1, c1) (r2, c2)
          /\ indexes !! (r1 * m + c1)%nat = indexes !! (r2 * m + c2)%nat
          /\ (k = (r1 * m + c1)%nat \/ k = (r2 * m + c2)%nat)).
Proof.
  intros Hlen Hr Hc Hn Heq. assert (0 < m)%nat as Hm by lia.
  destruct (cellStep_marks indexes wrap m (r, c) (r', c') Hn Heq) as [Hi Hj].
  cbn [fst snd] in Hi, Hj.
  assert ((r * m + c)%nat ∈ scanGrid indexes wrap m) as Hi'
    by (apply elem_of_scanGrid; by exists r, c).
  assert ((r' * m + c')%nat ∈ scanGrid indexes wrap m) as Hj'
    by (apply elem_of_scanGrid; by exists r, c).
  split; [by rewrite (adjacencyConflicts_square _ _ m)|].
  rewrite !(elem_of_adj_conflicts _ _ m) by done.
  split; [done|]. split; [done|]. split.
  - rewrite (adjacencyConflicts_square _ _ m) by done. cbn [adj_ok].
    apply bool_decide_eq_false. intros Hsize%size_empty_iff. set_solver.
  - intros k Hk. rewrite (elem_of_adj_conflicts _ _ m) in Hk by done.
    apply elem_of_scanGrid in Hk as (r1 & c1 & Hr1 & Hc1 & Hk).
    destruct (cellStep_sound indexes wrap m r1 c1 k Hc1 Hr1 Hk)
      as (r2 & c2 & Hn2 & Heq2 & Hk2).
    by exists r1, c1, r2, c2.
Qed.

Lemma adjacencyConflicts_symmetric_witness :
  0%nat ∈ adj_conflicts (adjacencyConflicts [1; 1; 2; 3] false)
  /\ 1%nat ∈ adj_conflicts (adjacencyConflicts [1; 1; 2; 3] false).
Proof.
  destruct (adjacencyConflicts_symmetric [1; 1; 2; 3] false 2 0 0 0 1)
    as (_ & H0 & H1 & _); [reflexivity | lia | lia | | reflexivity | ].
  - apply (right_inside false 2 0 0). lia.
  - split; [exact H0 | exact H1].
Defined.

(** ** Verdict *)

Lemma evaluate_judge pg ev :
  evaluate pg = inr ev ->
  exists v, encodeState pg = inr v /\ ev = judge v (toggle_wrap pg).
Proof.
  unfold evaluate. destruct (encodeState pg) as [err|v]; [done|].
  intros [= <-]. by exists v.
Qed.

(** C3: an evaluation whose input encodes to [N] runs the three checks on
    the tokens of the decimal text of [N]; the verdict is Accept exactly
    when the shape, range and adjacency checks all pass on these tokens; a
    rejection reports the first failing check in the order shape, range,
    adjacency; and the adjacency scan is run only when shape and range both
    pass. *)
Theorem verdict_first_failing_check (pg : page) (N : Z) :
  encodeState pg = inr N ->
  let wrap := toggle_wrap pg in
  let tokens := tokenizeDecimal7 (toStringRadix 10 N) in
  let shape := isPerfectSquare (Z.of_nat (length tokens)) in
  let range := range_ok (areValidColorIndexes tokens) in
  let adjacency := adj_ok (adjacencyConflicts tokens wrap) in
  exists ev,
    evaluate pg = inr ev
    /\ ev_tokens ev = tokens
    /\ ev_squareOk ev = shape
    /\ ev_range ev = areValidColorIndexes tokens
    /\ (ev_accepted ev = true <-> shape = true /\ range = true /\ adjacency = true)
    /\ (ev_accepted ev = true ->
        ev_pill ev = {| pill_kind := "good"; pill_text := "ACCEPT";
                        pill_reason := "All rules satisfied" |})
    /\ (ev_accepted ev = false ->
        ev_pill ev
        = {| pill_kind := "bad"; pill_text := "REJECT";
             pill_reason :=
               (if negb shape then "Not a perfect square tile count"
                else if negb range then "One or more tokens out of range"
                else "Adjacent tile conflict(s)")%string |})
    /\ (shape = true -> range = true ->
        ev_adj ev = adjacencyConflicts tokens wrap)
    /\ (shape = false \/ range = false ->
        ev_adj ev = {| adj_ok := false; adj_m := ev_m ev; adj_conflicts := [];
                       adj_reason := str "Not evaluated (failed earlier rule)." |}).
Proof.
  intros Henc. cbn zeta. exists (judge N (toggle_wrap pg)).
  split; [unfold evaluate; by rewrite Henc|].
  unfold judge.
  cbn [ev_tokens ev_squareOk ev_range ev_accepted ev_pill ev_adj ev_m].
  set (tokens := tokenizeDecimal7 (toStringRadix 10 N)).
  do 3 (split; [reflexivity|]).
  destruct (isPerfectSquare (Z.of_nat (length tokens))) eqn:Hshape;
    destruct (range_ok (areValidColorIndexes tokens)) eqn:Hrange;
    cbn [andb negb adj_ok];
    try destruct (adj_ok (adjacencyConflicts tokens (toggle_wrap pg))) eqn:Hadj;
    repeat split; try done; try tauto; intros; try tauto; try done;
    try (by intuition discriminate).
Qed.

Lemma verdict_first_failing_check_witness :
  (exists ev, evaluate page_conflict = inr ev
              /\ ev_tokens ev = [1000000; 1000000; 2000000; 3]
              /\ ev_pill ev = {| pill_kind := "bad"; pill_text := "REJECT";
                                 pill_reason := "Adjacent tile conflict(s)" |})
  /\ (exists ev, evaluate page_accepted = inr ev
                 /\ ev_tokens ev = [1000000; 2000000; 3000000; 4]
                 /\ ev_pill ev = {| pill_kind := "good"; pill_text := "ACCEPT";
                                    pill_reason := "All rules satisfied" |}).
Proof.
  split.
  - destruct (verdict_first_failing_check page_conflict 1000000100000020000003)
      as (ev & Hev & Htok & _ & _ & Hiff & _ & Hrej & _);
      [vm_compute; reflexivity|].
    exists ev. split; [exact Hev|]. split; [rewrite Htok; vm_compute; reflexivity|].
    rewrite Hrej; [vm_compute; reflexivity|].
    destruct (ev_accepted ev); [|reflexivity].
    destruct Hiff as [Hiff _]. destruct (Hiff eq_refl) as (_ & _ & Hadj).
    vm_compute in Hadj. discriminate Hadj.
  - destruct (verdict_first_failing_check page_accepted 1000000200000030000004)
      as (ev & Hev & Htok & _ & _ & Hiff & Hacc & _);
      [vm_compute; reflexivity|].
    exists ev. split; [exact Hev|]. split; [rewrite Htok; vm_compute; reflexivity|].
    apply Hacc, Hiff. repeat split; vm_compute; reflexivity.
Defined.

(** ** Parsers *)

Lemma dropWhile_nil_iff {A} (p : A -> bool) l :
  dropWhile p l = [] <-> Forall (fun x => p x = true) l.
Proof.
  split; [|apply dropWhile_all].
  induction l as [|x l IH]; cbn; [done|].
  destruct (p x) eqn:Hx; [|done]. intros H. constructor; [done|by apply IH].
Qed.

Lemma dropWhile_stops {A} (p : A -> bool) l :
  dropWhile p l = [] \/ exists x l', dropWhile p l = x :: l' /\ p x = false.
Proof.
  induction l as [|x l IH]; cbn; [by left|].
  destruct (p x) eqn:Hx; [done|]. right. by exists x, l.
Qed.

Lemma trim_nil_iff s : trim s = [] <-> isWhiteSpaceOnly s.
Proof.
  unfold trim, isWhiteSpaceOnly. split.
  - intros H. apply (f_equal (@rev N)) in H. rewrite rev_involutive in H.
    cbn in H. apply dropWhile_nil_iff in H.
    destruct (dropWhile_stops isWhiteSpace s) as [Hnil|(x & l' & Hd & Hx)];
      [by apply dropWhile_nil_iff|].
    rewrite Hd in H. cbn [rev] in H.
    apply Forall_app in H as [_ H%Forall_inv]. congruence.
  - intros H. by rewrite (dropWhile_all _ _ H).
Qed.

Lemma isBlank_spec s : isBlank s = true <-> isWhiteSpaceOnly s.
Proof.
  unfold isBlank. rewrite orb_true_iff, !bool_decide_eq_true, trim_nil_iff.
  split; [|by right]. intros [->|?]; [constructor|done].
Qed.

Lemma testClassPlus_spec cls t :
  testClassPlus cls t = true <-> t <> [] /\ Forall (fun c => cls c = true) t.
Proof.
  destruct t as [|c t]; cbn [testClassPlus].
  - split; [done|]. by intros [? _].
  - rewrite forallb_forall, Forall_forall. split.
    + intros H. split; [done|]. intros x Hx. by apply H, list_elem_of_In.
    + intros [_ H] x Hx. by apply H, list_elem_of_In.
Qed.

Lemma isBinDigit_spec c : isBinDigit c = true <-> c = 48%N \/ c = 49%N.
Proof. unfold isBinDigit. by rewrite orb_true_iff, !N.eqb_eq. Qed.

Lemma isBinaryText_bool s : forallb isBinDigit s = true -> isBinaryText s.
Proof.
  intros H. apply Forall_forall. intros c Hc.
  apply isBinDigit_spec. rewrite forallb_forall in H. apply H.
  by apply list_elem_of_In.
Qed.

Lemma test_decimal_spec t :
  testClassPlus isDecDigit t = true <-> t <> [] /\ isDecimalText t.
Proof.
  rewrite testClassPlus_spec. unfold isDecimalText.
  by setoid_rewrite isDecDigit_spec.
Qed.

Lemma test_binary_spec t :
  testClassPlus isBinDigit t = true <-> t <> [] /\ isBinaryText t.
Proof.
  rewrite testClassPlus_spec. unfold isBinaryText.
  by setoid_rewrite isBinDigit_spec.
Qed.

Lemma parseDecimalBigInt_spec s :
  (trim s <> [] /\ isDecimalText (trim s) ->
   parseDecimalBigInt s = inr (positional 10 (digitVal <$> trim s)))
  /\ (~ (trim s <> [] /\ isDecimalText (trim s)) ->
      parseDecimalBigInt s
      = inl (InputFormatError "Decimal input must contain only digits 0-9.")).
Proof.
  unfold parseDecimalBigInt. rewrite <- test_decimal_spec, digitsValue_positional.
  destruct (testClassPlus isDecDigit (trim s)); cbn [negb]; split; done.
Qed.

Lemma parseBinaryToBigInt_spec s :
  (trim s <> [] /\ isBinaryText (trim s) ->
   parseBinaryToBigInt s = inr (positional 2 (digitVal <$> trim s)))
  /\ (~ (trim s <> [] /\ isBinaryText (trim s)) ->
      parseBinaryToBigInt s
      = inl (InputFormatError "Binary input must contain only 0 and 1.")).
Proof.
  unfold parseBinaryToBigInt. rewrite <- test_binary_spec, digitsValue_positional.
  destruct (testClassPlus isBinDigit (trim s)); cbn [negb]; split; done.
Qed.

Lemma encoders_blank charsetArr charToIdx s :
  isWhiteSpaceOnly s ->
  encodeStringClassic charsetArr charToIdx s = inl EmptyInputError
  /\ encodeStringBijective charsetArr charToIdx s = inl EmptyInputError.
Proof.
  intros Hs%isBlank_spec. unfold encodeStringClassic, encodeStringBijective.
  by rewrite Hs.
Qed.

(** C9: the decimal parser throws its format error exactly when the
    trimmed input is not one or more decimal digits, and otherwise returns
    the value of the numeral; the binary parser does the same for binary
    digits in base 2; both text encoders throw the empty-input error on an
    empty or all-white-space string. *)
Theorem parsers_reject_malformed_input (s : jsstring)
    (charsetArr : list jsstring) (charToIdx : gmap jsstring nat) :
  ((exists msg, parseDecimalBigInt s = inl (InputFormatError msg))
   <-> ~ (trim s <> [] /\ isDecimalText (trim s)))
  /\ (trim s <> [] /\ isDecimalText (trim s) ->
      parseDecimalBigInt s = inr (positional 10 (digitVal <$> trim s)))
  /\ ((exists msg, parseBinaryToBigInt s = inl (InputFormatError msg))
      <-> ~ (trim s <> [] /\ isBinaryText (trim s)))
  /\ (trim s <> [] /\ isBinaryText (trim s) ->
      parseBinaryToBigInt s = inr (positional 2 (digitVal <$> trim s)))
  /\ (s = [] \/ isWhiteSpaceOnly s ->
      encodeStringClassic charsetArr charToIdx s = inl EmptyInputError
      /\ encodeStringBijective charsetArr charToIdx s = inl EmptyInputError).
Proof.
  destruct (parseDecimalBigInt_spec s) as [Hd_ok Hd_bad].
  destruct (parseBinaryToBigInt_spec s) as [Hb_ok Hb_bad].
  split; [|split; [done|split; [|split; [done|]]]].
  - split.
    + intros [msg Herr] Hok. rewrite (Hd_ok Hok) in Herr. discriminate.
    + intros Hbad. eexists. by apply Hd_bad.
  - split.
    + intros [msg Herr] Hok. rewrite (Hb_ok Hok) in Herr. discriminate.
    + intros Hbad. eexists. by apply Hb_bad.
  - intros [->|Hws]; apply encoders_blank; [constructor|done].
Qed.

Lemma parsers_reject_malformed_input_witness :
  parseDecimalBigInt (str " 0123 ") = inr 123
  /\ parseBinaryToBigInt (str "101") = inr 5.
Proof.
  destruct (parsers_reject_malformed_input (str " 0123 ") [] ∅) as (_ & Hd & _).
  destruct (parsers_reject_malformed_input (str "101") [] ∅) as (_ & _ & _ & Hb & _).
  split.
  - rewrite Hd; [reflexivity|]. split; [discriminate|].
    apply isDecimalText_bool. reflexivity.
  - rewrite Hb; [reflexivity|]. split; [discriminate|].
    apply isBinaryText_bool. reflexivity.
Defined.

(** ** The encoders produce non-negative integers *)

Lemma digitVal_binary ds :
  isBinaryText ds -> Forall (fun d => 0 <= d < 2) (digitVal <$> ds).
Proof.
  intros Hds. apply Forall_fmap. eapply Forall_impl; [exact Hds|].
  intros c Hc. unfold compose, digitVal. cbn beta in *. lia.
Qed.

Lemma parseDecimalBigInt_nonneg s v : parseDecimalBigInt s = inr v -> 0 <= v.
Proof.
  unfold parseDecimalBigInt.
  destruct (testClassPlus isDecDigit (trim s)) eqn:Ht; cbn [negb]; [|done].
  intros [= <-]. apply test_decimal_spec in Ht as [_ Ht].
  by apply (digitsValue_bounds 10); [|apply digitVal_decimal].
Qed.

Lemma parseBinaryToBigInt_nonneg s v : parseBinaryToBigInt s = inr v -> 0 <= v.
Proof.
  unfold parseBinaryToBigInt.
  destruct (testClassPlus isBinDigit (trim s)) eqn:Ht; cbn [negb]; [|done].
  intros [= <-]. apply test_binary_spec in Ht as [_ Ht].
  by apply (digitsValue_bounds 2); [|apply digitVal_binary].
Qed.

Lemma classicLoop_nonneg charsetArr charToIdx chs : forall id v,
  0 <= id -> classicLoop charsetArr charToIdx chs id = inr v -> 0 <= v.
Proof.
  induction chs as [|ch chs IH]; intros id v Hid; cbn [classicLoop].
  - by intros [= <-].
  - destruct (charToIdx !! ch) as [idx|]; [|done]. apply IH. nia.
Qed.

Lemma bijectiveLoop_nonneg charsetArr charToIdx chs : forall id v,
  0 <= id -> bijectiveLoop charsetArr charToIdx chs id = inr v -> 0 <= v.
Proof.
  induction chs as [|ch chs IH]; intros id v Hid; cbn [bijectiveLoop].
  - by intros [= <-].
  - destruct (charToIdx !! ch) as [idx|]; [|done]. apply IH. nia.
Qed.

Lemma encodeState_nonneg pg v : encodeState pg = inr v -> 0 <= v.
Proof.
  unfold encodeState. destruct (inputMode pg).
  - apply parseDecimalBigInt_nonneg.
  - apply parseBinaryToBigInt_nonneg.
  - destruct (ensureCharsetReady (charset_profile pg)) as [charsetArr charToIdx].
    destruct (encoding_mode pg);
      unfold encodeStringClassic, encodeStringBijective;
      destruct (isBlank (string_input pg)); try done.
    + by apply classicLoop_nonneg.
    + by apply bijectiveLoop_nonneg.
Qed.

Lemma toStringRadix_decimal v :
  0 <= v ->
  toStringRadix 10 v <> [] /\ isDecimalText (toStringRadix 10 v).
Proof.
  intros Hv. unfold toStringRadix.
  destruct (Z.ltb_spec v 0) as [?|_]; [lia|]. split.
  - intros Hnil%fmap_nil_inv. by apply (digitsOf_nonempty 10) in Hnil; [|lia].
  - apply Forall_fmap. eapply Forall_impl; [apply (digitsOf_lt 10); lia|].
    intros d Hd. unfold compose, digitChar. cbn beta in *.
    destruct (N.ltb_spec d 10); lia.
Qed.

Lemma tokenizeDecimal7_nonempty s :
  s <> [] -> isDecimalText s -> tokenizeDecimal7 s <> [].
Proof.
  intros Hne Hs Hnil. apply (f_equal length) in Hnil.
  rewrite tokenizeDecimal7_length in Hnil by done. cbn [length] in Hnil.
  destruct s; [done|]. unfold windowCount in Hnil. cbn [length] in Hnil. div_lia.
Qed.

(** C10: the decimal text of a non-negative integer is a non-empty digit
    string, so the tokenizer yields at least one token; every integer the
    three encoders return is non-negative, so an evaluation that reaches
    the validator has a non-empty token stream and the perfect-square test
    never sees the count 0. *)
Theorem token_stream_never_empty (v : Z) :
  0 <= v ->
  toStringRadix 10 v <> []
  /\ isDecimalText (toStringRadix 10 v)
  /\ (1 <= length (tokenizeDecimal7 (toStringRadix 10 v)))%nat
  /\ (forall pg w, encodeState pg = inr w ->
        0 <= w
        /\ exists ev, evaluate pg = inr ev
                      /\ ev_base10 ev = toStringRadix 10 w
                      /\ ev_tokens ev <> []
                      /\ 0 < Z.of_nat (length (ev_tokens ev))).
Proof.
  assert (forall w, 0 <= w ->
            (1 <= length (tokenizeDecimal7 (toStringRadix 10 w)))%nat) as Htok.
  { intros w Hw. destruct (toStringRadix_decimal w Hw) as [Hne Hdec].
    pose proof (tokenizeDecimal7_nonempty _ Hne Hdec).
    destruct (tokenizeDecimal7 _); [done|cbn [length]; lia]. }
  intros Hv. destruct (toStringRadix_decimal v Hv) as [Hne Hdec].
  split; [done|]. split; [done|]. split; [by apply Htok|].
  intros pg w Henc. pose proof (encodeState_nonneg pg w Henc) as Hw.
  split; [done|]. exists (judge w (toggle_wrap pg)).
  unfold evaluate. rewrite Henc. split; [done|].
  unfold judge. cbn [ev_base10 ev_tokens]. specialize (Htok w Hw).
  split; [done|]. split; [|lia].
  intros Hnil. rewrite Hnil in Htok. cbn [length] in Htok. lia.
Qed.

Lemma token_stream_never_empty_witness :
  (1 <= length (tokenizeDecimal7 (toStringRadix 10 0)))%nat
  /\ tokenizeDecimal7 (toStringRadix 10 0) = [0].
Proof.
  destruct (token_stream_never_empty 0) as (_ & _ & H & _); [lia|].
  split; [exact H | reflexivity].
Defined.

(** ** Shape check on the token count *)

(** C6: the shape check receives the token count, which is at least 1 in
    every evaluation and, being an array length, below [2^53].  On such a
    count it passes exactly when the count has an integer square root (so
    4, 9, 16 pass and 5, 6, 10 fail); the side then reported is that
    root, and when the check fails the side is reported as 0, by the
    evaluation and by the adjacency check alike. *)
Theorem isPerfectSquare_iff_square (n : Z) :
  1 <= n < 2 ^ 53 ->
  (isPerfectSquare n = true <-> exists m, m * m = n)
  /\ (forall indexes wrap,
        Z.of_nat (length indexes) = n ->
        let adj := adjacencyConflicts indexes wrap in
        (isPerfectSquare n = true ->
         Z.of_nat (adj_m adj) * Z.of_nat (adj_m adj) = n)
        /\ (isPerfectSquare n = false ->
            adj_ok adj = false /\ adj_m adj = 0%nat))
  /\ (forall v wrap,
        Z.of_nat (length (tokenizeDecimal7 (toStringRadix 10 v))) = n ->
        let ev := judge v wrap in
        ev_tokens ev = tokenizeDecimal7 (toStringRadix 10 v)
        /\ (ev_squareOk ev = true <-> exists m, m * m = n)
        /\ (ev_squareOk ev = true ->
            Z.of_nat (ev_m ev) * Z.of_nat (ev_m ev) = n)
        /\ (ev_squareOk ev = false ->
            ev_m ev = 0%nat /\ adj_m (ev_adj ev) = 0%nat))
  /\ (isPerfectSquare 4 = true /\ isPerfectSquare 9 = true
      /\ isPerfectSquare 16 = true)
  /\ (isPerfectSquare 5 = false /\ isPerfectSquare 6 = false
      /\ isPerfectSquare 10 = false)
  /\ (forall pg ev,
        evaluate pg = inr ev ->
        1 <= Z.of_nat (length (ev_tokens ev))
        /\ ev_squareOk ev = isPerfectSquare (Z.of_nat (length (ev_tokens ev)))).
Proof.
  intros [Hn _].
  assert (isPerfectSquare n = true <-> exists m, m * m = n) as Hiff.
  { rewrite isPerfectSquare_spec. split.
    - intros (m & _ & Hm). by exists m.
    - intros (m & Hm). exists (Z.abs m). split; [|lia]. nia. }
  assert (isPerfectSquare n = true ->
          Z.of_nat (Z.to_nat (Z.sqrt n)) * Z.of_nat (Z.to_nat (Z.sqrt n)) = n)
    as Hside.
  { intros (m & Hm & <-)%isPerfectSquare_spec. rewrite Z.sqrt_square by lia. lia. }
  split; [exact Hiff|]. split; [|split; [|split; [|split]]].
  - intros indexes wrap Hlen. cbn zeta. unfold adjacencyConflicts.
    rewrite Hlen. destruct (isPerfectSquare n); cbn [negb adj_m adj_ok].
    + split; [exact Hside|done].
    + split; [done|]. by intros _.
  - intros v wrap Hlen. cbn zeta. unfold judge.
    cbn [ev_tokens ev_squareOk ev_m ev_adj]. rewrite Hlen.
    split; [reflexivity|]. split; [exact Hiff|].
    destruct (isPerfectSquare n); cbn [andb adj_m].
    + split; [exact Hside|done].
    + split; [done|]. by intros _.
  - by repeat split.
  - by repeat split.
  - intros pg ev (v & Henc & ->)%evaluate_judge.
    unfold judge. cbn [ev_tokens ev_squareOk]. split; [|reflexivity].
    destruct (toStringRadix_decimal v (encodeState_nonneg _ _ Henc)) as [Hne Hdec].
    pose proof (tokenizeDecimal7_nonempty _ Hne Hdec).
    destruct (tokenizeDecimal7 _); [done|cbn [length]; lia].
Qed.

Lemma isPerfectSquare_iff_square_witness :
  (ev_squareOk (judge 1000000100000020000003 false) = true
   <-> exists m, m * m = 4)
  /\ ev_m (judge 12345678 false) = 0%nat.
Proof.
  split.
  - destruct (isPerfectSquare_iff_square 4) as (_ & _ & H & _); [lia|].
    destruct (H 1000000100000020000003 false) as (_ & Hiff & _);
      [vm_compute; reflexivity|].
    exact Hiff.
  - destruct (isPerfectSquare_iff_square 2) as (_ & _ & H & _); [lia|].
    destruct (H 12345678 false) as (_ & _ & _ & Hfail);
      [vm_compute; reflexivity|].
    apply Hfail. vm_compute. reflexivity.
Defined.

(** ** Symbol table *)

Section SetFacts.
Context {A : Type} `{EqDecision A}.

Lemma setAdd_NoDup (x : A) s : NoDup s -> NoDup (setAdd x s).
Proof.
  intros Hs. unfold setAdd. destruct (decide (x ∈ s)) as [|Hx]; [done|].
  apply NoDup_app. split; [done|]. split; [|apply NoDup_singleton].
  intros y Hy ->%list_elem_of_singleton. done.
Qed.

Lemma setAdd_head (x : A) s : s <> [] -> head (setAdd x s) = head s.
Proof.
  intros Hs. unfold setAdd. destruct (decide (x ∈ s)); [done|]. by destruct s.
Qed.

Lemma setAdd_nonempty (x : A) s : setAdd x s <> [].
Proof.
  unfold setAdd. destruct (decide (x ∈ s)) as [Hx|]; [|by destruct s].
  intros ->. by apply elem_of_nil in Hx.
Qed.

Lemma foldl_setAdd_NoDup {B} (f : B -> A) xs : forall s,
  NoDup s -> NoDup (foldl (fun s x => setAdd (f x) s) s xs).
Proof.
  induction xs as [|x xs IH]; intros s Hs; cbn [foldl]; [done|].
  by apply IH, setAdd_NoDup.
Qed.

Lemma foldl_setAdd_head {B} (f : B -> A) xs : forall s,
  s <> [] -> head (foldl (fun s x => setAdd (f x) s) s xs) = head s.
Proof.
  induction xs as [|x xs IH]; intros s Hs; cbn [foldl]; [done|].
  rewrite IH by apply setAdd_nonempty. by apply setAdd_head.
Qed.

Lemma foldl_setAdd_nonempty {B} (f : B -> A) xs : forall s,
  s <> [] -> foldl (fun s x => setAdd (f x) s) s xs <> [].
Proof.
  induction xs as [|x xs IH]; intros s Hs; cbn [foldl]; [done|].
  apply IH, setAdd_nonempty.
Qed.
End SetFacts.

Lemma blocks_NoDup config : forall s,
  NoDup s ->
  NoDup (foldl (fun charset blk =>
                  foldl (fun charset cp => setAdd (fromCharCode cp) charset)
                        charset (codePoints (range_lo blk) (range_hi blk)))
               s config).
Proof.
  induction config as [|blk config IH]; intros s Hs; cbn [foldl]; [done|].
  by apply IH, foldl_setAdd_NoDup.
Qed.

Lemma blocks_head config : forall s,
  s <> [] ->
  head (foldl (fun charset blk =>
                 foldl (fun charset cp => setAdd (fromCharCode cp) charset)
                       charset (codePoints (range_lo blk) (range_hi blk)))
              s config) = head s
  /\ foldl (fun charset blk =>
              foldl (fun charset cp => setAdd (fromCharCode cp) charset)
                    charset (codePoints (range_lo blk) (range_hi blk)))
           s config <> [].
Proof.
  induction config as [|blk config IH]; intros s Hs; cbn [foldl]; [done|].
  destruct (IH _ (foldl_setAdd_nonempty fromCharCode
                    (codePoints (range_lo blk) (range_hi blk)) s Hs)) as [Hh Hne].
  split; [|done]. rewrite Hh. by apply foldl_setAdd_head.
Qed.

(** The symbol table has no duplicates. *)
Lemma generateCharsetFromConfig_NoDup config :
  NoDup (generateCharsetFromConfig config).
Proof.
  unfold generateCharsetFromConfig.
  do 2 apply setAdd_NoDup. apply blocks_NoDup. constructor.
Qed.

Lemma codePoints_cons lo hi :
  (lo <= hi)%N -> exists rest, codePoints lo hi = lo :: rest.
Proof.
  intros Hle. unfold codePoints.
  destruct (N.to_nat (hi + 1 - lo)) as [|n] eqn:Hn; [lia|].
  cbn [seq fmap list_fmap]. eexists. f_equal. lia.
Qed.

(** The symbol of index 0 is the first code point of the first block. *)
Lemma generateCharsetFromConfig_head blk config :
  (range_lo blk <= range_hi blk)%N ->
  generateCharsetFromConfig (blk :: config) !! 0%nat
  = Some (fromCharCode (range_lo blk)).
Proof.
  intros Hle. unfold generateCharsetFromConfig. rewrite <- head_lookup.
  destruct (codePoints_cons _ _ Hle) as [rest Hcp].
  cbn [foldl]. rewrite Hcp. cbn [foldl].
  change (setAdd (fromCharCode (range_lo blk)) [])
    with [fromCharCode (range_lo blk)].
  set (s1 := foldl _ [fromCharCode (range_lo blk)] rest).
  assert (head s1 = Some (fromCharCode (range_lo blk)) /\ s1 <> []) as [Hh1 Hne1].
  { unfold s1. split; [by rewrite foldl_setAdd_head | by apply foldl_setAdd_nonempty]. }
  destruct (blocks_head config s1 Hne1) as [Hh2 Hne2].
  rewrite !setAdd_head; [by rewrite Hh2| done | apply setAdd_nonempty].
Qed.

Lemma buildCharIndexLoop_miss arr : forall i0 (m : gmap jsstring nat) ch,
  ch ∉ arr -> buildCharIndexLoop arr i0 m !! ch = m !! ch.
Proof.
  induction arr as [|x arr IH]; intros i0 m ch Hch; cbn [buildCharIndexLoop]; [done|].
  apply not_elem_of_cons in Hch as [Hne Hch].
  rewrite IH by done. by apply lookup_insert_ne.
Qed.

Lemma buildCharIndexLoop_hit arr : forall i0 (m : gmap jsstring nat) j ch,
  NoDup arr -> arr !! j = Some ch ->
  buildCharIndexLoop arr i0 m !! ch = Some (i0 + j)%nat.
Proof.
  induction arr as [|x arr IH]; intros i0 m j ch Hnd Hj; [done|].
  apply NoDup_cons in Hnd as [Hx Hnd]. cbn [buildCharIndexLoop].
  destruct j as [|j]; cbn in Hj.
  - simplify_eq. rewrite buildCharIndexLoop_miss by done.
    rewrite lookup_insert_eq. f_equal. lia.
  - rewrite (IH _ _ j) by done. f_equal. lia.
Qed.

(** The index map is the inverse of the symbol table. *)
Lemma buildCharIndexMap_lookup arr ch i :
  NoDup arr -> (buildCharIndexMap arr !! ch = Some i <-> arr !! i = Some ch).
Proof.
  intros Hnd. unfold buildCharIndexMap. split.
  - intros Hi. destruct (decide (ch ∈ arr)) as [Hin|Hout].
    + apply list_elem_of_lookup in Hin as [j Hj].
      rewrite (buildCharIndexLoop_hit _ _ _ j) in Hi by done. by simplify_eq.
    + rewrite buildCharIndexLoop_miss in Hi by done. done.
  - intros Hi. by rewrite (buildCharIndexLoop_hit _ _ _ i).
Qed.

(** ** String iteration *)

Lemma chars_cons_cons c d s :
  chars (c :: d :: s)
  = if isHighSurrogate c && isLowSurrogate d
    then [c; d] :: chars s else [c] :: chars (d :: s).
Proof. reflexivity. Qed.

Lemma chars_concat_aux s :
  concat (chars s) = s /\ forall c, concat (chars (c :: s)) = c :: s.
Proof.
  induction s as [|d s [IH1 IH2]]; [done|].
  split; [apply IH2|]. intros c. rewrite chars_cons_cons.
  destruct (isHighSurrogate c && isLowSurrogate d).
  - cbn [concat app]. by rewrite IH1.
  - change (concat ([c] :: chars (d :: s))) with (c :: concat (chars (d :: s))).
    by rewrite IH2.
Qed.

(** A string is the concatenation of the characters it iterates over. *)
Lemma chars_concat s : concat (chars s) = s.
Proof. apply chars_concat_aux. Qed.

Lemma chars_inj s t : chars s = chars t -> s = t.
Proof. intros H. by rewrite <- (chars_concat s), <- (chars_concat t), H. Qed.

Lemma chars_cons_plain c s :
  isHighSurrogate c = false -> chars (c :: s) = [c] :: chars s.
Proof. intros Hc. destruct s as [|d s]; [done|]. by rewrite chars_cons_cons, Hc. Qed.

(** ** Bijective numeration *)

Lemma digitsValue_nonneg radix ds :
  0 <= radix -> Forall (fun d => 0 <= d) ds -> 0 <= digitsValue radix ds.
Proof.
  intros Hr. induction ds as [|d ds IH] using rev_ind; intros Hds; [done|].
  apply Forall_app in Hds as [Hds Hd%Forall_inv]. cbn beta in Hd.
  rewrite digitsValue_snoc. specialize (IH Hds). nia.
Qed.

(** Numerals with digits in [1, k] denote pairwise distinct integers. *)
Lemma bijective_numeral_inj k ds : forall es,
  0 < k ->
  Forall (fun d => 1 <= d <= k) ds -> Forall (fun d => 1 <= d <= k) es ->
  digitsValue k ds = digitsValue k es -> ds = es.
Proof.
  assert (forall l, Forall (fun d => 1 <= d <= k) l -> Forall (fun d => 0 <= d) l)
    as Hweak by (intros l Hl; eapply Forall_impl; [exact Hl|]; intros; cbn beta in *; lia).
  induction ds as [|d ds IH] using rev_ind; intros es Hk Hds Hes Heq.
  - destruct es as [|e es _] using rev_ind; [done|].
    apply Forall_app in Hes as [Hes He%Forall_inv]. cbn beta in He.
    rewrite digitsValue_snoc in Heq. cbn in Heq.
    pose proof (digitsValue_nonneg k es ltac:(lia) (Hweak _ Hes)). nia.
  - apply Forall_app in Hds as [Hds Hd%Forall_inv]. cbn beta in Hd.
    destruct es as [|e es _] using rev_ind.
    + rewrite digitsValue_snoc in Heq. cbn in Heq.
      pose proof (digitsValue_nonneg k ds ltac:(lia) (Hweak _ Hds)). nia.
    + apply Forall_app in Hes as [Hes He%Forall_inv]. cbn beta in He.
      rewrite !digitsValue_snoc in Heq.
      assert (digitsValue k ds = digitsValue k es) as Hhi by nia.
      rewrite (IH es) by done. f_equal. f_equal. lia.
Qed.

Section EncoderFacts.
Variable charsetArr : list jsstring.
Hypothesis charset_NoDup : NoDup charsetArr.

Let charToIdx := buildCharIndexMap charsetArr.
Let k := Z.of_nat (length charsetArr).
Let digit (idx0 : nat) : Z := Z.of_nat idx0 + 1.

(** The symbol-table positions of a list of characters. *)
Let indexed (chs : list jsstring) (idxs : list nat) : Prop :=
  Forall2 (fun ch idx => charsetArr !! idx = Some ch) chs idxs.

Lemma indexed_functional chs1 chs2 idxs :
  indexed chs1 idxs -> indexed chs2 idxs -> chs1 = chs2.
Proof.
  intros H1. revert chs2. induction H1 as [|ch i chs idxs Hi _ IH];
    intros chs2 H2; inversion H2; subst; [done|].
  f_equal; [congruence | by apply IH].
Qed.

Lemma indexed_digits chs idxs :
  indexed chs idxs -> Forall (fun d => 1 <= d <= k) (digit <$> idxs).
Proof.
  intros H. apply Forall_fmap. induction H as [|ch i chs idxs Hi _ IH]; [done|].
  constructor; [|done]. apply lookup_lt_Some in Hi. unfold compose, digit, k. lia.
Qed.

Lemma bijectiveLoop_inr chs : forall id v,
  bijectiveLoop charsetArr charToIdx chs id = inr v ->
  exists idxs, indexed chs idxs
               /\ v = foldl (fun a d => a * k + d) id (digit <$> idxs).
Proof.
  induction chs as [|ch chs IH]; intros id v; cbn [bijectiveLoop].
  - intros [= <-]. exists []. split; [constructor|done].
  - destruct (charToIdx !! ch) as [idx0|] eqn:Hch; [|done].
    intros (idxs & Hidx & ->)%IH. exists (idx0 :: idxs). split; [|done].
    constructor; [|done]. by apply buildCharIndexMap_lookup.
Qed.

Lemma bijectiveLoop_total chs : forall id,
  Forall (fun ch => ch ∈ charsetArr) chs ->
  exists v, bijectiveLoop charsetArr charToIdx chs id = inr v.
Proof.
  induction chs as [|ch chs IH]; intros id Hchs; cbn [bijectiveLoop].
  - by eexists.
  - apply Forall_cons in Hchs as [Hch Hchs].
    apply list_elem_of_lookup in Hch as [i Hi].
    apply buildCharIndexMap_lookup in Hi; [|done].
    fold charToIdx in Hi. rewrite Hi. by apply IH.
Qed.

Lemma classicLoop_members chs : forall id v,
  classicLoop charsetArr charToIdx chs id = inr v ->
  Forall (fun ch => ch ∈ charsetArr) chs.
Proof.
  induction chs as [|ch chs IH]; intros id v; cbn [classicLoop]; [done|].
  destruct (charToIdx !! ch) as [idx|] eqn:Hch; [|done].
  intros Hv. constructor; [|by eapply IH].
  apply buildCharIndexMap_lookup in Hch; [|done].
  by eapply list_elem_of_lookup_2.
Qed.

(** The bijective encoding determines the characters it was given. *)
Lemma bijectiveLoop_inj chs1 chs2 v :
  bijectiveLoop charsetArr charToIdx chs1 0 = inr v ->
  bijectiveLoop charsetArr charToIdx chs2 0 = inr v ->
  chs1 = chs2.
Proof.
  intros (idxs1 & H1 & Hv1)%bijectiveLoop_inr (idxs2 & H2 & Hv2)%bijectiveLoop_inr.
  assert (idxs1 = idxs2) as ->; [|by eapply indexed_functional].
  pose proof (indexed_digits _ _ H1) as Hd1.
  pose proof (indexed_digits _ _ H2) as Hd2.
  assert (digit <$> idxs1 = digit <$> idxs2) as Heq.
  { destruct (decide (k = 0)) as [Hk|Hk].
    - destruct idxs1 as [|i1 ?]; destruct idxs2 as [|i2 ?]; try done.
      + apply Forall_inv in Hd2. lia.
      + apply Forall_inv in Hd1. lia.
      + apply Forall_inv in Hd1. lia.
    - apply (bijective_numeral_inj k); [unfold k in *; lia|done..|].
      unfold digitsValue. congruence. }
  revert Heq. apply list_fmap_eq_inj. intros i j. unfold digit. lia.
Qed.

Lemma isBlank_false s : isBlank s = false <-> ~ isWhiteSpaceOnly s.
Proof. by rewrite <- isBlank_spec, not_true_iff_false. Qed.

Lemma encodeStringBijective_distinct s t :
  Forall (fun ch => ch ∈ charsetArr) (chars s) ->
  Forall (fun ch => ch ∈ charsetArr) (chars t) ->
  ~ isWhiteSpaceOnly s -> ~ isWhiteSpaceOnly t -> s <> t ->
  exists a b, encodeStringBijective charsetArr charToIdx s = inr a
              /\ encodeStringBijective charsetArr charToIdx t = inr b
              /\ a <> b.
Proof.
  intros Hs Ht Hbs%isBlank_false Hbt%isBlank_false Hne.
  unfold encodeStringBijective. rewrite Hbs, Hbt.
  destruct (bijectiveLoop_total _ 0 Hs) as [a Ha].
  destruct (bijectiveLoop_total _ 0 Ht) as [b Hb].
  exists a, b. split; [done|]. split; [done|]. intros ->.
  apply Hne, chars_inj. by eapply bijectiveLoop_inj.
Qed.

Lemma leading_space_collision s v :
  charsetArr !! 0%nat = Some (str " ") ->
  encodeStringClassic charsetArr charToIdx s = inr v ->
  charToIdx !! str " " = Some 0%nat
  /\ encodeStringClassic charsetArr charToIdx (str " " ++ s) = inr v
  /\ exists a b, encodeStringBijective charsetArr charToIdx s = inr a
                 /\ encodeStringBijective charsetArr charToIdx (str " " ++ s) = inr b
                 /\ a <> b.
Proof.
  intros Hzero. unfold encodeStringClassic.
  destruct (isBlank s) eqn:Hblank; [done|]. intros Hv.
  assert (charToIdx !! str " " = Some 0%nat) as Hidx
    by by apply buildCharIndexMap_lookup.
  assert (chars (str " " ++ s) = str " " :: chars s) as Hchars
    by by apply (chars_cons_plain 32%N s).
  assert (~ isWhiteSpaceOnly s) as Hs by by apply isBlank_false.
  assert (~ isWhiteSpaceOnly (str " " ++ s)) as Hs'
    by (intros [_ H]%Forall_cons; by apply Hs).
  split; [done|]. split.
  - rewrite (proj2 (isBlank_false _) Hs'), Hchars. cbn [classicLoop].
    rewrite Hidx. by rewrite Z.mul_0_l.
  - pose proof (classicLoop_members _ _ _ Hv) as Hmem.
    apply encodeStringBijective_distinct; [done| |done|done|].
    + rewrite Hchars. constructor; [by eapply list_elem_of_lookup_2|done].
    + intros Heq. apply (f_equal length) in Heq.
      change (str " " ++ s) with (32%N :: s) in Heq. cbn [length] in Heq. lia.
Qed.
End EncoderFacts.

Lemma ensureCharsetReady_eq profile :
  ensureCharsetReady profile
  = let cfg := match profile with
               | ProfileFull => charsetConfigFull
               | ProfileLite => charsetConfigLite
               end in
    (generateCharsetFromConfig cfg,
     buildCharIndexMap (generateCharsetFromConfig cfg)).
Proof. reflexivity. Qed.

(** C2: over any symbol table the program builds, two distinct strings
    that are non-empty, not all white space and made of symbols of the
    table have distinct bijective encodings. *)
Theorem encodeStringBijective_injective (config : list block) (s t : jsstring) :
  let charsetArr := generateCharsetFromConfig config in
  let charToIdx := buildCharIndexMap charsetArr in
  Forall (fun ch => ch ∈ charsetArr) (chars s) ->
  Forall (fun ch => ch ∈ charsetArr) (chars t) ->
  s <> [] -> t <> [] ->
  ~ isWhiteSpaceOnly s -> ~ isWhiteSpaceOnly t ->
  s <> t ->
  exists a b, encodeStringBijective charsetArr charToIdx s = inr a
              /\ encodeStringBijective charsetArr charToIdx t = inr b
              /\ a <> b.
Proof.
  intros charsetArr charToIdx Hs Ht _ _ Hws Hwt Hne.
  by apply encodeStringBijective_distinct;
    [apply generateCharsetFromConfig_NoDup|..].
Qed.

(** C4: in both profiles the symbol of index 0 is the space; prepending
    it to a string the classic encoder accepts leaves the classic code
    unchanged, while the bijective codes of the two strings differ. *)
Theorem classic_collides_bijective_separates (profile : profileT)
    (s : jsstring) (v : Z) :
  let charsetArr := (ensureCharsetReady profile).1 in
  let charToIdx := (ensureCharsetReady profile).2 in
  encodeStringClassic charsetArr charToIdx s = inr v ->
  charsetArr !! 0%nat = Some (str " ")
  /\ charToIdx !! str " " = Some 0%nat
  /\ encodeStringClassic charsetArr charToIdx (str " " ++ s) = inr v
  /\ exists a b, encodeStringBijective charsetArr charToIdx s = inr a
                 /\ encodeStringBijective charsetArr charToIdx (str " " ++ s) = inr b
                 /\ a <> b.
Proof.
  rewrite ensureCharsetReady_eq. cbn zeta. cbn [fst snd].
  set (cfg := match profile with
              | ProfileFull => charsetConfigFull
              | ProfileLite => charsetConfigLite
              end).
  assert (generateCharsetFromConfig cfg !! 0%nat = Some (str " ")) as Hzero.
  { destruct profile; apply generateCharsetFromConfig_head; cbn; lia. }
  pose proof (generateCharsetFromConfig_NoDup cfg) as Hnd.
  generalize dependent (generateCharsetFromConfig cfg). intros arr Hzero Hnd Hv.
  split; [done|]. by apply leading_space_collision.
Qed.

Lemma encodeStringBijective_injective_witness :
  exists a b,
    encodeStringBijective (generateCharsetFromConfig charsetConfigLite)
      (buildCharIndexMap (generateCharsetFromConfig charsetConfigLite))
      (str "ab") = inr a
    /\ encodeStringBijective (generateCharsetFromConfig charsetConfigLite)
         (buildCharIndexMap (generateCharsetFromConfig charsetConfigLite))
         (str " ab") = inr b
    /\ a <> b.
Proof.
  apply (encodeStringBijective_injective charsetConfigLite (str "ab") (str " ab")).
  - apply (bool_decide_unpack _). vm_compute. exact I.
  - apply (bool_decide_unpack _). vm_compute. exact I.
  - discriminate.
  - discriminate.
  - intros H. apply Forall_inv in H. discriminate H.
  - intros H. apply Forall_inv_tail, Forall_inv in H. discriminate H.
  - discriminate.
Defined.

Lemma classic_collides_bijective_separates_witness :
  encodeStringClassic (ensureCharsetReady ProfileLite).1
    (ensureCharsetReady ProfileLite).2 (str " ab") = inr 49076
  /\ encodeStringClassic (ensureCharsetReady ProfileLite).1
       (ensureCharsetReady ProfileLite).2 (str "ab") = inr 49076.
Proof.
  assert (encodeStringClassic (ensureCharsetReady ProfileLite).1
            (ensureCharsetReady ProfileLite).2 (str "ab") = inr 49076) as Hab
    by (vm_compute; reflexivity).
  destruct (classic_collides_bijective_separates ProfileLite (str "ab") 49076 Hab)
    as (_ & _ & Hsp & _).
  split; [exact Hsp | exact Hab].
Defined.

(** ** Decimal and binary text round trips *)

Lemma digitsValue_zeros radix j ds :
  digitsValue radix (replicate j 0 ++ ds) = digitsValue radix ds.
Proof.
  unfold digitsValue. rewrite foldl_app. f_equal.
  induction j as [|j IH]; [done|]. cbn [replicate foldl].
  by rewrite Z.mul_0_l, Z.add_0_l.
Qed.

Section DigitValues.
Variable radix : N.
Hypothesis radix_ge_2 : (2 <= radix)%N.

Lemma fixedDigits_value k n :
  digitsValue (Z.of_N radix) (Z.of_N <$> fixedDigits k radix n)
  = Z.of_N (n mod radix ^ N.of_nat k).
Proof.
  revert n. induction k as [|k IH]; intros n.
  - change (N.of_nat 0) with 0%N. by rewrite N.pow_0_r, N.mod_1_r.
  - cbn [fixedDigits]. rewrite fmap_app, list_fmap_singleton, digitsValue_snoc, IH.
    rewrite Nat2N.inj_succ, N.pow_succ_r', N.Div0.mod_mul_r. lia.
Qed.

(** The digits [toString] produces denote the number. *)
Lemma digitsOf_value n :
  digitsValue (Z.of_N radix) (Z.of_N <$> digitsOf radix n) = Z.of_N n.
Proof.
  destruct (digitsOf_spec radix radix_ge_2 n (S (N.to_nat n)))
    as (ds & -> & _ & Hfix); [by apply lt_pow_self|lia|].
  pose proof (fixedDigits_value (S (N.to_nat n)) n) as Hv.
  rewrite <- Hfix, fmap_app, fmap_replicate in Hv.
  change (Z.of_N 0) with 0 in Hv. rewrite digitsValue_zeros in Hv.
  rewrite Hv, N.mod_small; [done|by apply lt_pow_self].
Qed.

(** A numeral of [k] digits is the fixed-width numeral of its value. *)
Lemma fixedDigits_of_value ds :
  Forall (fun d => (d < radix)%N) ds ->
  fixedDigits (length ds) radix
    (Z.to_N (digitsValue (Z.of_N radix) (Z.of_N <$> ds))) = ds.
Proof.
  intros Hds. destruct (fixedDigits_surj radix radix_ge_2 ds Hds) as (n & Hn & Hfix).
  pose proof (fixedDigits_value (length ds) n) as Hv.
  rewrite Hfix, N.mod_small in Hv by done. by rewrite Hv, N2Z.id.
Qed.
End DigitValues.

Lemma digitVal_digitChar ds :
  Forall (fun d => (d < 10)%N) ds ->
  digitVal <$> (digitChar <$> ds) = Z.of_N <$> ds.
Proof.
  intros Hds. rewrite <- list_fmap_compose. apply Forall_fmap_ext.
  eapply Forall_impl; [exact Hds|]. intros d Hd. cbn beta in Hd.
  unfold compose, digitVal, digitChar. destruct (N.ltb_spec d 10); lia.
Qed.

Lemma trim_decimal t : isDecimalText t -> trim t = t.
Proof.
  intros Ht. unfold trim.
  assert (forall l, isDecimalText l -> dropWhile isWhiteSpace l = l) as Hkeep.
  { intros [|c l] Hl; [done|]. apply Forall_inv in Hl. cbn [dropWhile].
    by rewrite decDigit_not_space. }
  rewrite (Hkeep t Ht), Hkeep; [apply rev_involutive|].
  by apply Forall_rev.
Qed.

Lemma toStringRadix_nonneg radix v :
  0 <= v -> toStringRadix radix v = digitChar <$> digitsOf radix (Z.to_N v).
Proof.
  intros Hv. unfold toStringRadix. destruct (Z.ltb_spec v 0); [lia|].
  by rewrite Zabs2N.abs_N_nonneg.
Qed.

Lemma toStringRadix_binary v : 0 <= v -> isBinaryText (toStringRadix 2 v).
Proof.
  intros Hv. rewrite toStringRadix_nonneg by done.
  apply Forall_fmap. eapply Forall_impl; [apply (digitsOf_lt 2); lia|].
  intros d Hd. unfold compose, digitChar. cbn beta in *.
  destruct (N.ltb_spec d 10); lia.
Qed.

Lemma isBinaryText_decimal t : isBinaryText t -> isDecimalText t.
Proof. intros Ht. eapply Forall_impl; [exact Ht|]. cbn beta. lia. Qed.

Lemma digitVal_toStringRadix radix v :
  (2 <= radix <= 10)%N -> 0 <= v ->
  digitVal <$> toStringRadix radix v = Z.of_N <$> digitsOf radix (Z.to_N v).
Proof.
  intros Hr Hv. rewrite toStringRadix_nonneg by done. apply digitVal_digitChar.
  eapply Forall_impl; [apply (digitsOf_lt radix); lia|]. cbn beta. lia.
Qed.

(** X1: parsing the decimal (binary) text of a non-negative integer gives
    the integer back. *)
Theorem parse_toString_round_trip (v : Z) :
  0 <= v ->
  parseDecimalBigInt (toStringRadix 10 v) = inr v
  /\ parseBinaryToBigInt (toStringRadix 2 v) = inr v.
Proof.
  intros Hv. destruct (toStringRadix_decimal v Hv) as [Hne Hdec]. split.
  - destruct (parseDecimalBigInt_spec (toStringRadix 10 v)) as [Hok _].
    rewrite trim_decimal in Hok by done. rewrite Hok by done.
    rewrite <- digitsValue_positional, digitVal_toStringRadix by lia.
    rewrite (digitsOf_value 10) by lia. f_equal. lia.
  - pose proof (toStringRadix_binary v Hv) as Hbin.
    assert (toStringRadix 2 v <> []) as Hne2.
    { rewrite toStringRadix_nonneg by done. intros Hnil%fmap_nil_inv.
      by apply (digitsOf_nonempty 2) in Hnil; [|lia]. }
    destruct (parseBinaryToBigInt_spec (toStringRadix 2 v)) as [Hok _].
    rewrite trim_decimal in Hok by by apply isBinaryText_decimal.
    rewrite Hok by done.
    rewrite <- digitsValue_positional, digitVal_toStringRadix by lia.
    rewrite (digitsOf_value 2) by lia. f_equal. lia.
Qed.

Lemma parse_toString_round_trip_witness :
  parseDecimalBigInt (toStringRadix 10 1234567890123) = inr 1234567890123.
Proof. apply (parse_toString_round_trip 1234567890123). lia. Defined.

Lemma dropWhile_split {A} (p : A -> bool) l :
  exists pre, l = pre ++ dropWhile p l /\ Forall (fun x => p x = true) pre.
Proof.
  induction l as [|x l (pre & Hl & Hpre)]; cbn [dropWhile]; [by exists []|].
  destruct (p x) eqn:Hx; [|by exists []].
  exists (x :: pre). split; [by rewrite Hl at 1|by constructor].
Qed.

Lemma digitVal_zeros pre :
  Forall (fun c => (c =? 48)%N = true) pre ->
  digitVal <$> pre = replicate (length pre) 0.
Proof.
  induction 1 as [|c pre Hc%N.eqb_eq _ IH]; [done|].
  cbn [fmap list_fmap length replicate]. f_equal; [|done]. unfold digitVal. lia.
Qed.

Lemma digitChar_of_decimal t :
  isDecimalText t -> digitChar <$> ((fun c => c - 48)%N <$> t) = t.
Proof.
  intros Ht. rewrite <- list_fmap_compose. rewrite <- (list_fmap_id t) at 2.
  apply Forall_fmap_ext. eapply Forall_impl; [exact Ht|].
  intros c Hc. cbn beta in Hc. unfold compose, digitChar.
  destruct (N.ltb_spec (c - 48) 10); cbn; lia.
Qed.

(** The decimal text of the value of a numeral is the numeral without its
    leading zeros. *)
Lemma toStringRadix_of_decimal t :
  t <> [] -> isDecimalText t ->
  toStringRadix 10 (digitsValue 10 (digitVal <$> t)) = stripLeadingZeros t.
Proof.
  intros Hne Ht. unfold stripLeadingZeros.
  destruct (dropWhile_split (fun c => (c =? 48)%N) t) as (pre & Hsplit & Hpre).
  assert (isDecimalText (dropWhile (fun c => (c =? 48)%N) t)) as Hrest.
  { unfold isDecimalText in *. rewrite Hsplit in Ht. by apply Forall_app in Ht as [_ ?]. }
  assert (digitsValue 10 (digitVal <$> t)
          = digitsValue 10 (digitVal <$> dropWhile (fun c => (c =? 48)%N) t)) as ->.
  { rewrite Hsplit at 1. by rewrite fmap_app, digitVal_zeros, digitsValue_zeros. }
  destruct (dropWhile_stops (fun c => (c =? 48)%N) t) as [->|(c & r & Hd & Hc)];
    [done|].
  rewrite Hd in *. clear Hsplit Hpre Hd. apply N.eqb_neq in Hc.
  set (t' := c :: r) in *. set (dsN := (fun c => c - 48)%N <$> t').
  assert (digitVal <$> t' = Z.of_N <$> dsN) as Hvals.
  { unfold dsN. rewrite <- list_fmap_compose. apply Forall_fmap_ext.
    eapply Forall_impl; [exact Hrest|]. intros x Hx. cbn beta in Hx.
    unfold compose, digitVal. lia. }
  assert (Forall (fun d => (d < 10)%N) dsN) as HdsN.
  { unfold dsN. apply Forall_fmap. eapply Forall_impl; [exact Hrest|].
    intros x Hx. cbn beta in Hx. unfold compose. lia. }
  pose proof (digitsValue_bounds 10 (digitVal <$> t') ltac:(lia)
                (digitVal_decimal _ Hrest)) as [Hlo Hhi].
  rewrite toStringRadix_nonneg by done. rewrite Hvals in *.
  rewrite length_fmap in Hhi.
  destruct (digitsOf_spec 10 ltac:(lia)
              (Z.to_N (digitsValue 10 (Z.of_N <$> dsN))) (length dsN))
    as (ds & -> & Hlen & Hfix).
  { apply N2Z.inj_lt. rewrite N2Z.inj_pow, Z2N.id, nat_N_Z by lia. exact Hhi. }
  { unfold dsN, t'. cbn [fmap list_fmap length]. lia. }
  rewrite (fixedDigits_of_value 10) in Hfix by (done || lia).
  destruct (length dsN - length ds)%nat as [|j] eqn:Hj.
  - cbn [replicate app] in Hfix. rewrite Hfix. by apply digitChar_of_decimal.
  - exfalso. unfold dsN, t' in Hfix. cbn [replicate app fmap list_fmap] in Hfix.
    injection Hfix as Hhead _. apply Forall_inv in Hrest. cbn beta in Hrest. lia.
Qed.

(** X2: in decimal mode the text handed to the tokenizer is the trimmed
    input without its leading zeros (["0"] for an all-zero input). *)
Theorem decimal_input_canonical_text (pg : page) (ev : evaluation) :
  inputMode pg = ModeDecimal ->
  evaluate pg = inr ev ->
  ev_base10 ev = stripLeadingZeros (trim (decimal_input pg))
  /\ ev_tokens ev = tokenizeDecimal7 (stripLeadingZeros (trim (decimal_input pg))).
Proof.
  intros Hmode (v & Henc & ->)%evaluate_judge.
  unfold encodeState in Henc. rewrite Hmode in Henc.
  unfold parseDecimalBigInt in Henc.
  destruct (testClassPlus isDecDigit (trim (decimal_input pg))) eqn:Htest;
    cbn [negb] in Henc; [|done].
  injection Henc as <-. apply test_decimal_spec in Htest as [Hne Hdec].
  unfold judge. cbn [ev_base10 ev_tokens].
  by rewrite toStringRadix_of_decimal.
Qed.

Lemma decimal_input_canonical_text_witness :
  ev_base10 (judge 123456789 false) = str "123456789"
  /\ ev_tokens (judge 123456789 false) = [1234567; 89].
Proof.
  destruct (decimal_input_canonical_text page_padded (judge 123456789 false))
    as [Hb Ht]; [reflexivity | vm_compute; reflexivity |].
  split; [rewrite Hb | rewrite Ht]; vm_compute; reflexivity.
Defined.

(** ** Text encoders *)

Section EncoderErrors.
Variable charsetArr : list jsstring.
Variable charToIdx : gmap jsstring nat.

Lemma loops_same_error chs : forall a b e,
  classicLoop charsetArr charToIdx chs a = inl e
  <-> bijectiveLoop charsetArr charToIdx chs b = inl e.
Proof.
  induction chs as [|ch chs IH]; intros a b e; cbn [classicLoop bijectiveLoop];
    [done|].
  destruct (charToIdx !! ch); [apply IH|done].
Qed.

Lemma loops_first_missing pre ch post : forall a b,
  Forall (fun x => is_Some (charToIdx !! x)) pre ->
  charToIdx !! ch = None ->
  classicLoop charsetArr charToIdx (pre ++ ch :: post) a
  = inl (CharsetMembershipError ch)
  /\ bijectiveLoop charsetArr charToIdx (pre ++ ch :: post) b
     = inl (CharsetMembershipError ch).
Proof.
  induction pre as [|x pre IH]; intros a b Hpre Hch;
    cbn [app classicLoop bijectiveLoop].
  - by rewrite Hch.
  - apply Forall_cons in Hpre as [[i Hi] Hpre]. rewrite Hi. by apply IH.
Qed.

Lemma loops_offset chs : forall a b v,
  classicLoop charsetArr charToIdx chs a = inr v ->
  bijectiveLoop charsetArr charToIdx chs b
  = inr (v + (b - a) * Z.of_nat (length charsetArr) ^ Z.of_nat (length chs)
         + repunit (Z.of_nat (length charsetArr)) (length chs)).
Proof.
  induction chs as [|ch chs IH]; intros a b v;
    cbn [classicLoop bijectiveLoop length repunit].
  - intros [= <-]. f_equal. change (Z.of_nat 0) with 0. rewrite Z.pow_0_r. lia.
  - destruct (charToIdx !! ch) as [i|]; [|done]. intros Hv.
    rewrite (IH _ (b * Z.of_nat (length charsetArr) + (Z.of_nat i + 1)) _ Hv).
    f_equal. rewrite Nat2Z.inj_succ, Z.pow_succ_r by lia. lia.
Qed.

Lemma classicLoop_bounds chs : forall a v,
  (forall ch i, charToIdx !! ch = Some i -> (i < length charsetArr)%nat) ->
  classicLoop charsetArr charToIdx chs a = inr v ->
  a * Z.of_nat (length charsetArr) ^ Z.of_nat (length chs) <= v
  < (a + 1) * Z.of_nat (length charsetArr) ^ Z.of_nat (length chs).
Proof.
  intros a v Hidx. revert a v.
  induction chs as [|ch chs IH]; intros a v; cbn [classicLoop length].
  - intros [= <-]. change (Z.of_nat 0) with 0. rewrite Z.pow_0_r. lia.
  - destruct (charToIdx !! ch) as [i|] eqn:Hi; [|done]. intros Hv%IH.
    apply Hidx in Hi. rewrite Nat2Z.inj_succ, Z.pow_succ_r by lia.
    set (k := Z.of_nat (length charsetArr)) in *.
    set (P := k ^ Z.of_nat (length chs)) in *.
    assert (0 <= P) by (apply Z.pow_nonneg; lia).
    assert (a * k * P + Z.of_nat i * P <= v) by lia.
    assert (v < a * k * P + (Z.of_nat i + 1) * P) by lia.
    assert ((Z.of_nat i + 1) * P <= k * P) by (apply Z.mul_le_mono_nonneg_r; lia).
    lia.
Qed.
End EncoderErrors.

(** X3: the two text encoders fail on the same strings with the same
    error. *)
Theorem encoders_fail_alike (charsetArr : list jsstring)
    (charToIdx : gmap jsstring nat) (s : jsstring) (e : error) :
  encodeStringClassic charsetArr charToIdx s = inl e
  <-> encodeStringBijective charsetArr charToIdx s = inl e.
Proof.
  unfold encodeStringClassic, encodeStringBijective.
  destruct (isBlank s); [done|]. apply loops_same_error.
Qed.

(** X4: on a string that is not blank, both encoders stop at the first
    character missing from the table and report that character. *)
Theorem encoders_report_first_missing (charsetArr : list jsstring)
    (charToIdx : gmap jsstring nat) (s : jsstring)
    (pre : list jsstring) (ch : jsstring) (post : list jsstring) :
  ~ isWhiteSpaceOnly s ->
  chars s = pre ++ ch :: post ->
  Forall (fun x => is_Some (charToIdx !! x)) pre ->
  charToIdx !! ch = None ->
  encodeStringClassic charsetArr charToIdx s = inl (CharsetMembershipError ch)
  /\ encodeStringBijective charsetArr charToIdx s = inl (CharsetMembershipError ch).
Proof.
  intros Hs%isBlank_false Hchars Hpre Hch.
  unfold encodeStringClassic, encodeStringBijective. rewrite Hs, Hchars.
  by apply loops_first_missing.
Qed.

(** X5: when the classic encoder returns [a] for a string of [n]
    characters, the bijective encoder returns [a + (k^(n-1) + ... + 1)]. *)
Theorem bijective_is_classic_plus_repunit (charsetArr : list jsstring)
    (charToIdx : gmap jsstring nat) (s : jsstring) (a : Z) :
  encodeStringClassic charsetArr charToIdx s = inr a ->
  encodeStringBijective charsetArr charToIdx s
  = inr (a + repunit (Z.of_nat (length charsetArr)) (length (chars s))).
Proof.
  unfold encodeStringClassic, encodeStringBijective.
  destruct (isBlank s); [done|]. intros Ha.
  rewrite (loops_offset _ _ _ 0 0 a Ha). f_equal. lia.
Qed.

(** X6: over a table the program builds, the classic code of a string of
    [n] characters lies in [0, k^n), and two strings with the same number
    of characters and the same classic code are equal. *)
Theorem classic_injective_at_fixed_length (config : list block)
    (s t : jsstring) (v : Z) :
  let charsetArr := generateCharsetFromConfig config in
  let charToIdx := buildCharIndexMap charsetArr in
  encodeStringClassic charsetArr charToIdx s = inr v ->
  encodeStringClassic charsetArr charToIdx t = inr v ->
  length (chars s) = length (chars t) ->
  s = t /\ 0 <= v < Z.of_nat (length charsetArr) ^ Z.of_nat (length (chars s)).
Proof.
  intros charsetArr charToIdx Hs Ht Hlen.
  pose proof (generateCharsetFromConfig_NoDup config) as Hnd.
  fold charsetArr in Hnd. split.
  - unfold encodeStringClassic in Hs, Ht.
    destruct (isBlank s); [done|]. destruct (isBlank t); [done|].
    pose proof (loops_offset _ _ _ 0 0 v Hs) as Hbs.
    pose proof (loops_offset _ _ _ 0 0 v Ht) as Hbt.
    rewrite <- Hlen in Hbt.
    apply chars_inj. by eapply (bijectiveLoop_inj charsetArr Hnd).
  - unfold encodeStringClassic in Hs. destruct (isBlank s); [done|].
    apply classicLoop_bounds in Hs; [lia|].
    intros ch i Hi. apply buildCharIndexMap_lookup in Hi; [|done].
    by apply lookup_lt_Some in Hi.
Qed.

Lemma encoders_report_first_missing_witness :
  encodeStringClassic (ensureCharsetReady ProfileLite).1
    (ensureCharsetReady ProfileLite).2 [97; 945; 98]%N
  = inl (CharsetMembershipError [945%N]).
Proof.
  destruct (encoders_report_first_missing
              (ensureCharsetReady ProfileLite).1 (ensureCharsetReady ProfileLite).2
              [97; 945; 98]%N [[97%N]] [945%N] [[98%N]]) as [Hc _].
  - intros H. apply Forall_inv in H. discriminate H.
  - reflexivity.
  - constructor; [|constructor]. exists 65%nat. vm_compute. reflexivity.
  - vm_compute. reflexivity.
  - exact Hc.
Defined.

Lemma bijective_is_classic_plus_repunit_witness :
  encodeStringBijective (ensureCharsetReady ProfileLite).1
    (ensureCharsetReady ProfileLite).2 (str "ab") = inr 49831.
Proof.
  pose proof (bijective_is_classic_plus_repunit
                (ensureCharsetReady ProfileLite).1 (ensureCharsetReady ProfileLite).2
                (str "ab") 49076) as H.
  assert (encodeStringClassic (ensureCharsetReady ProfileLite).1
            (ensureCharsetReady ProfileLite).2 (str "ab") = inr 49076) as Hab
    by (vm_compute; reflexivity).
  rewrite (H Hab). vm_compute. reflexivity.
Defined.

Lemma classic_injective_at_fixed_length_witness :
  str "ab" = str "ab"
  /\ 0 <= 49076 < Z.of_nat (length (generateCharsetFromConfig charsetConfigLite))
                    ^ Z.of_nat (length (chars (str "ab"))).
Proof.
  assert (encodeStringClassic (generateCharsetFromConfig charsetConfigLite)
            (buildCharIndexMap (generateCharsetFromConfig charsetConfigLite))
            (str "ab") = inr 49076) as Hab by (vm_compute; reflexivity).
  exact (classic_injective_at_fixed_length charsetConfigLite (str "ab") (str "ab")
           49076 Hab Hab eq_refl).
Defined.

(** ** Symbol table contents *)

Lemma elem_of_setAdd {A} `{EqDecision A} (x y : A) s :
  y ∈ setAdd x s <-> y = x \/ y ∈ s.
Proof.
  unfold setAdd. destruct (decide (x ∈ s)) as [Hx|Hx].
  - split; [by right|]. by intros [->|?].
  - rewrite elem_of_app, list_elem_of_singleton. tauto.
Qed.

Lemma elem_of_foldl_setAdd {A B} `{EqDecision A} (f : B -> A) xs : forall s y,
  y ∈ foldl (fun s x => setAdd (f x) s) s xs
  <-> y ∈ s \/ exists x, x ∈ xs /\ y = f x.
Proof.
  induction xs as [|x xs IH]; intros s y; cbn [foldl].
  - split; [by left|]. intros [?|(x & Hx & _)]; [done|]. by apply elem_of_nil in Hx.
  - rewrite IH, elem_of_setAdd. split.
    + intros [[->|?]|(x' & Hx' & ->)]; [|by left|].
      * right. exists x. split; [left|done].
      * right. exists x'. split; [by right|done].
    + intros [?|(x' & Hx' & ->)]; [by left; right|].
      apply elem_of_cons in Hx' as [->|Hx']; [by left; left|].
      right. by exists x'.
Qed.

Lemma elem_of_codePoints lo hi cp :
  cp ∈ codePoints lo hi <-> (lo <= cp <= hi)%N.
Proof.
  unfold codePoints. rewrite list_elem_of_fmap. split.
  - intros (i & -> & Hi%elem_of_seq). lia.
  - intros Hcp. exists (N.to_nat (cp - lo)). rewrite elem_of_seq. lia.
Qed.

Lemma elem_of_blocks config : forall s e,
  e ∈ foldl (fun charset blk =>
               foldl (fun charset cp => setAdd (fromCharCode cp) charset)
                     charset (codePoints (range_lo blk) (range_hi blk)))
            s config
  <-> e ∈ s \/ exists blk cp, blk ∈ config
                              /\ (range_lo blk <= cp <= range_hi blk)%N
                              /\ e = fromCharCode cp.
Proof.
  induction config as [|blk config IH]; intros s e; cbn [foldl].
  - split; [by left|]. intros [?|(blk & cp & Hb & _)]; [done|].
    by apply elem_of_nil in Hb.
  - rewrite IH, elem_of_foldl_setAdd. split.
    + intros [[?|(cp & Hcp%elem_of_codePoints & ->)]|(b & cp & Hb & Hcp & ->)];
        [by left| |].
      * right. exists blk, cp. split; [left|done].
      * right. exists b, cp. split; [by right|done].
    + intros [?|(b & cp & Hb & Hcp & ->)]; [by left; left|].
      apply elem_of_cons in Hb as [->|Hb].
      * left. right. exists cp. by rewrite elem_of_codePoints.
      * right. by exists b, cp.
Qed.

(** X7: the symbol table has no duplicates, consists of one-unit strings,
    and holds exactly the code points of the configured ranges (modulo
    2^16) together with the newline and the tab. *)
Theorem symbol_table_contents (config : list block) :
  NoDup (generateCharsetFromConfig config)
  /\ Forall (fun e => length e = 1%nat) (generateCharsetFromConfig config)
  /\ (forall e, e ∈ generateCharsetFromConfig config
        <-> e = [10%N] \/ e = [9%N]
            \/ exists blk cp, blk ∈ config
                              /\ (range_lo blk <= cp <= range_hi blk)%N
                              /\ e = [(cp mod 65536)%N]).
Proof.
  assert (forall e, e ∈ generateCharsetFromConfig config
            <-> e = [10%N] \/ e = [9%N]
                \/ exists blk cp, blk ∈ config
                                  /\ (range_lo blk <= cp <= range_hi blk)%N
                                  /\ e = [(cp mod 65536)%N]) as Hmem.
  { intros e. unfold generateCharsetFromConfig.
    rewrite !elem_of_setAdd, elem_of_blocks, elem_of_nil. unfold fromCharCode. tauto. }
  split; [apply generateCharsetFromConfig_NoDup|]. split; [|done].
  apply Forall_forall. intros e [->|[->|(blk & cp & _ & _ & ->)]]%Hmem; done.
Qed.

Lemma buildCharIndexLoop_lookup arr : forall i0 (m : gmap jsstring nat) ch i,
  buildCharIndexLoop arr i0 m !! ch = Some i
  <-> (exists j, i = (i0 + j)%nat /\ lastOccurrence arr ch j)
      \/ ((ch ∉ arr) /\ m !! ch = Some i).
Proof.
  induction arr as [|x arr IH]; intros i0 m ch i; cbn [buildCharIndexLoop].
  - split.
    + intros Hm. right. split; [apply not_elem_of_nil|done].
    + intros [(j & _ & Hj & _)|[_ ?]]; [done|done].
  - rewrite IH. split.
    + intros [(j & -> & Hj & Hlast)|[Hout Hm]].
      * left. exists (S j). split; [lia|]. split; [done|].
        intros [|j'] Hlt; [lia|]. cbn. apply Hlast. lia.
      * destruct (decide (x = ch)) as [->|Hne].
        -- rewrite lookup_insert_eq in Hm. injection Hm as <-.
           left. exists 0%nat. split; [lia|]. split; [done|].
           intros [|j'] Hlt; [lia|]. cbn. intros Hj'.
           apply Hout. by eapply list_elem_of_lookup_2.
        -- rewrite lookup_insert_ne in Hm by done. right. split; [|done].
           by apply not_elem_of_cons.
    + intros [(j & -> & Hj & Hlast)|[[Hne Hout]%not_elem_of_cons Hm]].
      * destruct j as [|j]; cbn in Hj.
        -- injection Hj as ->. right. split.
           ++ intros [j' Hj']%list_elem_of_lookup. by apply (Hlast (S j')); [lia|].
           ++ rewrite lookup_insert_eq. f_equal. lia.
        -- left. exists j. split; [lia|]. split; [done|].
           intros j' Hlt. apply (Hlast (S j')). lia.
      * right. split; [done|]. by rewrite lookup_insert_ne.
Qed.

(** X8: the index map sends a string to the last position at which it
    occurs in the array, and to nothing when it does not occur. *)
Theorem index_map_last_occurrence (arr : list jsstring) (ch : jsstring) (i : nat) :
  (buildCharIndexMap arr !! ch = Some i <-> lastOccurrence arr ch i)
  /\ (buildCharIndexMap arr !! ch = None <-> ch ∉ arr).
Proof.
  assert (buildCharIndexMap arr !! ch = Some i <-> lastOccurrence arr ch i) as Hsome.
  { unfold buildCharIndexMap. rewrite buildCharIndexLoop_lookup. split.
    - intros [(j & -> & Hj)|[_ Hm]]; [done|done].
    - intros Hi. left. by exists i. }
  split; [done|]. split.
  - intros Hnone [j Hj]%list_elem_of_lookup.
    assert (exists l, lastOccurrence arr ch l) as [l Hl].
    { clear Hnone Hsome. revert j Hj. induction arr as [|x arr IH]; intros j Hj; [done|].
      destruct (decide (ch ∈ arr)) as [[j' Hj']%list_elem_of_lookup|Hout].
      - destruct (IH j' Hj') as (l & Hl & Hlast). exists (S l). split; [done|].
        intros [|k] Hk; [lia|]. cbn. apply Hlast. lia.
      - destruct j as [|j]; cbn in Hj; [|by apply list_elem_of_lookup_2 in Hj].
        exists 0%nat. split; [done|]. intros [|k] Hk; [lia|]. cbn.
        intros Hk'. by apply list_elem_of_lookup_2 in Hk'. }
    unfold buildCharIndexMap in Hnone.
    assert (buildCharIndexLoop arr 0 ∅ !! ch = Some l) as Hsome'
      by (apply buildCharIndexLoop_lookup; left; by exists l).
    congruence.
  - intros Hout. unfold buildCharIndexMap. by rewrite buildCharIndexLoop_miss.
Qed.

Lemma buildCharIndexLoop_size arr : forall i0 (m : gmap jsstring nat),
  NoDup arr -> (forall ch, ch ∈ arr -> m !! ch = None) ->
  size (buildCharIndexLoop arr i0 m) = (size m + length arr)%nat.
Proof.
  induction arr as [|x arr IH]; intros i0 m Hnd Hfresh; cbn [buildCharIndexLoop length].
  - lia.
  - apply NoDup_cons in Hnd as [Hx Hnd]. rewrite IH; [|done|].
    + rewrite map_size_insert_None by (apply Hfresh; left). lia.
    + intros ch Hch. rewrite lookup_insert_ne by (intros ->; done).
      apply Hfresh. by right.
Qed.

(** X9: on a table the program builds, table and index map are inverse
    ([charToIdx.get(ch)] is [i] exactly when [charsetArr[i]] is [ch]), and
    the map has as many entries as the table. *)
Theorem index_map_inverts_table (config : list block) (ch : jsstring) (i : nat) :
  let charsetArr := generateCharsetFromConfig config in
  let charToIdx := buildCharIndexMap charsetArr in
  (charToIdx !! ch = Some i <-> charsetArr !! i = Some ch)
  /\ size charToIdx = length charsetArr.
Proof.
  intros charsetArr charToIdx.
  pose proof (generateCharsetFromConfig_NoDup config) as Hnd.
  split; [by apply buildCharIndexMap_lookup|].
  unfold charToIdx, buildCharIndexMap.
  rewrite buildCharIndexLoop_size by done. by rewrite map_size_empty.
Qed.

(** ** Tokenizer on arbitrary text *)

Lemma takeDigits_prefix s :
  isDecimalText (takeDigits s) /\ (length (takeDigits s) <= length s)%nat.
Proof.
  unfold takeDigits.
  destruct (dropWhile_split isDecDigit s) as (pre & Hs & Hpre).
  assert (length s - length (dropWhile isDecDigit s) = length pre)%nat as ->.
  { rewrite Hs at 1. rewrite length_app. lia. }
  rewrite Hs at 1. rewrite take_app_length. split.
  - eapply Forall_impl; [exact Hpre|]. intros c. by rewrite isDecDigit_spec.
  - rewrite length_take. lia.
Qed.

Lemma dropWhile_length {A} (p : A -> bool) l :
  (length (dropWhile p l) <= length l)%nat.
Proof.
  destruct (dropWhile_split p l) as (pre & Hl & _). rewrite Hl at 2.
  rewrite length_app. lia.
Qed.

Lemma pow10_le n k : (n <= k)%nat -> 10 ^ Z.of_nat n <= 10 ^ Z.of_nat k.
Proof. intros. apply Z.pow_le_mono_r; lia. Qed.

(** [parseInt] of a string of at most [k >= 1] characters: a sign takes
    one of them. *)
Lemma parseInt10_bounds s k v :
  (length s <= S k)%nat -> parseInt10 s = Some v ->
  - 10 ^ Z.of_nat k < v < 10 ^ Z.of_nat (S k).
Proof.
  intros Hlen. unfold parseInt10.
  pose proof (dropWhile_length isWhiteSpace s) as Hs1.
  set (s1 := dropWhile isWhiteSpace s) in *.
  assert (forall sign s2 (n : nat),
            (length s2 <= n)%nat ->
            match takeDigits s2 with
            | [] => None
            | ds => Some (sign * digitsValue 10 (digitVal <$> ds))
            end = Some v ->
            exists w, v = sign * w /\ 0 <= w < 10 ^ Z.of_nat n) as Hdigits.
  { intros sign s2 n Hn Hv. destruct (takeDigits_prefix s2) as [Hdec Hle].
    pose proof (digitsValue_bounds 10 _ ltac:(lia) (digitVal_decimal _ Hdec)) as Hb.
    rewrite length_fmap in Hb.
    pose proof (pow10_le (length (takeDigits s2)) n ltac:(lia)).
    destruct (takeDigits s2) as [|d ds]; [done|]. injection Hv as <-.
    exists (digitsValue 10 (digitVal <$> d :: ds)). split; [done|]. lia. }
  assert (0 < 10 ^ Z.of_nat k) by (apply Z.pow_pos_nonneg; lia).
  pose proof (pow10_le k (S k) ltac:(lia)).
  destruct s1 as [|c r] eqn:Hs1eq.
  - intros (w & -> & Hw)%(Hdigits 1 [] (S k)); [lia|cbn [length]; lia].
  - cbn [length] in Hs1. destruct (c =? 45)%N.
    + intros (w & -> & Hw)%(Hdigits (-1) r k); lia.
    + destruct (c =? 43)%N.
      * intros (w & -> & Hw)%(Hdigits 1 r k); lia.
      * intros (w & -> & Hw)%(Hdigits 1 (c :: r) (S k)); [lia|cbn [length]; lia].
Qed.

Lemma omap_pointwise {A B} (f g : A -> option B) (l : list A) :
  (forall x, f x = g x) -> omap f l = omap g l.
Proof. intros Hfg. induction l as [|x l IH]; cbn; [done|]. by rewrite Hfg, IH. Qed.

Lemma length_omap_le {A B} (f : A -> option B) (l : list A) :
  (length (omap f l) <= length l)%nat.
Proof.
  induction l as [|x l IH]; cbn; [done|]. destruct (f x); cbn [length]; lia.
Qed.

(** X10: on any text the tokens are the [parseInt] values of the
    successive 7-character windows, windows without a leading number being
    skipped; there are at most [ceil(L/7)] tokens and each lies strictly
    between -10^6 and 10^7. *)
Theorem tokenizeDecimal7_any_text (s : jsstring) :
  tokenizeDecimal7 s
  = omap (fun j => parseInt10 (take 7 (drop (7 * j) s)))
         (seq 0 (windowCount (length s)))
  /\ (length (tokenizeDecimal7 s) <= windowCount (length s))%nat
  /\ Forall (fun v => -1000000 < v < 10000000) (tokenizeDecimal7 s).
Proof.
  assert (tokenizeDecimal7 s
          = omap (fun j => parseInt10 (take 7 (drop (7 * j) s)))
                 (seq 0 (windowCount (length s)))) as Heq.
  { rewrite tokenizeDecimal7_windows. apply omap_pointwise.
    intros j. unfold window, slice. do 2 f_equal. lia. }
  split; [done|]. rewrite Heq. split.
  - etrans; [apply length_omap_le|]. by rewrite length_seq.
  - apply Forall_forall. intros v (j & _ & Hv)%list_elem_of_omap.
    apply (parseInt10_bounds _ 6) in Hv; [done|]. rewrite length_take. lia.
Qed.

(** ** Range check report *)

Lemma rangeLoop_imap indexes : forall i0 bad,
  rangeLoop indexes i0 bad
  = bad ++ omap id (imap (fun i v => if validColorIndex v then None
                                     else Some {| bad_i := i0 + i; bad_v := v |})
                         indexes).
Proof.
  induction indexes as [|v rest IH]; intros i0 bad; cbn [rangeLoop imap].
  - cbn. by rewrite app_nil_r.
  - rewrite IH. rewrite Nat.add_0_r.
    assert (imap ((fun i v0 => if validColorIndex v0 then None
                               else Some {| bad_i := i0 + i; bad_v := v0 |}) ∘ S) rest
            = imap (fun i v0 => if validColorIndex v0 then None
                                else Some {| bad_i := S i0 + i; bad_v := v0 |}) rest)
      as ->.
    { apply imap_ext. intros i x _. unfold compose. cbn beta.
      by replace (i0 + S i)%nat with (S i0 + i)%nat by lia. }
    destruct (validColorIndex v); cbn [omap list_omap id]; [done|].
    by rewrite <- app_assoc.
Qed.

(** X11: the range check passes exactly when every token is in
    [1, 16^6]; its report lists each offending token once, with its
    position, in increasing position. *)
Theorem range_report_lists_offenders (indexes : list Z) :
  (range_ok (areValidColorIndexes indexes) = true
   <-> Forall (fun v => 1 <= v <= 16777216) indexes)
  /\ range_bad (areValidColorIndexes indexes)
     = omap id (imap (fun i v => if decide (1 <= v <= 16777216) then None
                                 else Some {| bad_i := i; bad_v := v |}) indexes)
  /\ (forall i v, {| bad_i := i; bad_v := v |} ∈ range_bad (areValidColorIndexes indexes)
        <-> indexes !! i = Some v /\ ~ (1 <= v <= 16777216)).
Proof.
  split; [rewrite range_ok_spec; by rewrite MAX_COLOR_INDEX_eq|]. split.
  - cbn [areValidColorIndexes range_bad]. rewrite rangeLoop_imap. cbn [app].
    f_equal. apply imap_ext. intros i v _. cbn beta.
    destruct (validColorIndex v) eqn:Hv.
    + apply validColorIndex_spec in Hv. rewrite MAX_COLOR_INDEX_eq in Hv.
      by rewrite decide_True.
    + apply validColorIndex_false in Hv. rewrite MAX_COLOR_INDEX_eq in Hv.
      by rewrite decide_False.
  - intros i v. rewrite elem_of_range_bad, validColorIndex_false.
    by rewrite MAX_COLOR_INDEX_eq.
Qed.

(** ** Adjacency report *)

Lemma perfect_square_side (n : nat) :
  isPerfectSquare (Z.of_nat n) = true ->
  exists m, n = (m * m)%nat /\ (0 < m)%nat.
Proof.
  intros (m & Hm & Hsq)%isPerfectSquare_spec. exists (Z.to_nat m). split; nia.
Qed.

Lemma adjacencyConflicts_not_square indexes wrap :
  isPerfectSquare (Z.of_nat (length indexes)) = false ->
  adjacencyConflicts indexes wrap
  = {| adj_ok := false; adj_m := 0; adj_conflicts := [];
       adj_reason := str "Tile count is not a perfect square." |}.
Proof. intros H. unfold adjacencyConflicts. by rewrite H. Qed.

Lemma neighbour_in_grid wrap m r c r' c' :
  (r < m)%nat -> (c < m)%nat -> neighbour wrap m (r, c) (r', c') ->
  (r' < m)%nat /\ (c' < m)%nat /\ (r * m + c)%nat <> (r' * m + c')%nat.
Proof. intros Hr Hc Hn. inversion Hn; subst; repeat split; nia. Qed.

Lemma cell_in_range m r c : (r < m)%nat -> (c < m)%nat -> (r * m + c < m * m)%nat.
Proof. nia. Qed.

Lemma scanGrid_in_range indexes wrap m k :
  k ∈ scanGrid indexes wrap m -> (k < m * m)%nat.
Proof.
  intros (r & c & Hr & Hc & Hk)%elem_of_scanGrid.
  destruct (cellStep_sound _ _ _ _ _ _ Hc Hr Hk) as (r' & c' & Hn & _ & [->| ->]).
  - by apply cell_in_range.
  - destruct (neighbour_in_grid _ _ _ _ _ _ Hr Hc Hn) as (? & ? & _).
    by apply cell_in_range.
Qed.

(** X12: the reported conflict cells are sorted, free of duplicates and
    valid positions of the token array; the check passes exactly when the
    count is a perfect square and no cell is reported; a count that is not
    a perfect square gives the fixed failure record with side 0. *)
Theorem adjacency_report_shape (indexes : list Z) (wrap : bool) :
  Sorted le (adj_conflicts (adjacencyConflicts indexes wrap))
  /\ NoDup (adj_conflicts (adjacencyConflicts indexes wrap))
  /\ Forall (fun k => (k < length indexes)%nat)
            (adj_conflicts (adjacencyConflicts indexes wrap))
  /\ (adj_ok (adjacencyConflicts indexes wrap) = true
      <-> isPerfectSquare (Z.of_nat (length indexes)) = true
          /\ adj_conflicts (adjacencyConflicts indexes wrap) = [])
  /\ (isPerfectSquare (Z.of_nat (length indexes)) = false ->
      adjacencyConflicts indexes wrap
      = {| adj_ok := false; adj_m := 0; adj_conflicts := [];
           adj_reason := str "Tile count is not a perfect square." |}).
Proof.
  destruct (isPerfectSquare (Z.of_nat (length indexes))) eqn:Hsq.
  - destruct (perfect_square_side _ Hsq) as (m & Hlen & Hm).
    rewrite (adjacencyConflicts_square _ _ m) by done. cbn [adj_conflicts adj_ok].
    set (conflicts := scanGrid indexes wrap m).
    assert (merge_sort le (elements conflicts) ≡ₚ elements conflicts) as Hperm
      by apply merge_sort_Permutation.
    split; [apply Sorted_merge_sort; apply _|].
    split; [rewrite Hperm; apply NoDup_elements|]. split.
    + apply Forall_forall. intros k Hk. rewrite Hperm in Hk.
      apply elem_of_elements, scanGrid_in_range in Hk. lia.
    + split; [|done]. rewrite bool_decide_eq_true. split.
      * intros Hsize%size_empty_iff%leibniz_equiv. split; [done|].
        apply Permutation_nil_r. by rewrite Hperm, Hsize, elements_empty.
      * intros [_ Hnil]. rewrite Hnil in Hperm. apply Permutation_nil_l in Hperm.
        symmetry in Hperm. apply elements_empty_inv, leibniz_equiv in Hperm.
        by rewrite Hperm, size_empty.
  - rewrite (adjacencyConflicts_not_square _ _ Hsq). cbn [adj_conflicts adj_ok].
    repeat split; try done; try constructor. by intros [? _].
Qed.

Lemma adjacency_report_shape_witness :
  adjacencyConflicts [1; 2; 3] true
  = {| adj_ok := false; adj_m := 0; adj_conflicts := [];
       adj_reason := str "Tile count is not a perfect square." |}.
Proof.
  destruct (adjacency_report_shape [1; 2; 3] true) as (_ & _ & _ & _ & H).
  apply H. reflexivity.
Defined.

Lemma neighbour_wrap_mono wrap m p q : neighbour false m p q -> neighbour wrap m p q.
Proof. intros Hn. inversion Hn; subst; try done; by constructor. Qed.

Lemma scanGrid_wrap_mono indexes m k :
  k ∈ scanGrid indexes false m -> k ∈ scanGrid indexes true m.
Proof.
  intros (r & c & Hr & Hc & Hk)%elem_of_scanGrid.
  destruct (cellStep_sound _ _ _ _ _ _ Hc Hr Hk) as (r' & c' & Hn & Heq & Hk').
  apply (neighbour_wrap_mono true) in Hn.
  destruct (cellStep_marks indexes true m (r, c) (r', c') Hn Heq) as [Hi Hj].
  cbn [fst snd] in Hi, Hj. apply elem_of_scanGrid. exists r, c.
  by destruct Hk' as [-> | ->].
Qed.

Lemma adj_ok_iff_empty indexes wrap m :
  length indexes = (m * m)%nat -> (0 < m)%nat ->
  adj_ok (adjacencyConflicts indexes wrap) = true
  <-> scanGrid indexes wrap m = ∅.
Proof.
  intros Hlen Hm. rewrite (adjacencyConflicts_square _ _ m) by done.
  cbn [adj_ok]. rewrite bool_decide_eq_true, size_empty_iff. by unfold_leibniz.
Qed.

(** X13: wrap mode only adds conflicts: every cell reported without wrap
    is reported with wrap, so a token stream that passes the adjacency
    check, or is accepted, with wrap also is without. *)
Theorem wrap_only_adds_conflicts (indexes : list Z) (v : Z) :
  (forall k, k ∈ adj_conflicts (adjacencyConflicts indexes false) ->
             k ∈ adj_conflicts (adjacencyConflicts indexes true))
  /\ (adj_ok (adjacencyConflicts indexes true) = true ->
      adj_ok (adjacencyConflicts indexes false) = true)
  /\ (ev_accepted (judge v true) = true -> ev_accepted (judge v false) = true).
Proof.
  assert (forall l, adj_ok (adjacencyConflicts l true) = true ->
                    adj_ok (adjacencyConflicts l false) = true) as Hok.
  { intros l. destruct (isPerfectSquare (Z.of_nat (length l))) eqn:Hsq.
    - destruct (perfect_square_side _ Hsq) as (m & Hlen & Hm).
      rewrite !(adj_ok_iff_empty _ _ m) by done. intros Hempty.
      apply leibniz_equiv, elem_of_equiv_empty. intros k Hk%scanGrid_wrap_mono.
      by rewrite Hempty in Hk.
    - by rewrite !adjacencyConflicts_not_square. }
  split; [|split; [apply Hok|]].
  - intros k. destruct (isPerfectSquare (Z.of_nat (length indexes))) eqn:Hsq.
    + destruct (perfect_square_side _ Hsq) as (m & Hlen & Hm).
      rewrite !(elem_of_adj_conflicts _ _ m) by done. apply scanGrid_wrap_mono.
    + by rewrite !adjacencyConflicts_not_square.
  - unfold judge. cbn [ev_accepted].
    destruct (isPerfectSquare _); [|done].
    destruct (range_ok _); [|done]. cbn [andb]. apply Hok.
Qed.

Lemma wrap_only_adds_conflicts_witness :
  adj_ok (adjacencyConflicts [1; 2; 3; 4] false) = true.
Proof.
  destruct (wrap_only_adds_conflicts [1; 2; 3; 4] 0) as (_ & H & _).
  apply H. reflexivity.
Defined.

(** X14: a token stream of perfect-square length whose tokens are pairwise
    distinct passes the adjacency check, with or without wrap; in
    particular a single token always does. *)
Theorem distinct_tokens_pass_adjacency (indexes : list Z) (wrap : bool) :
  isPerfectSquare (Z.of_nat (length indexes)) = true ->
  NoDup indexes ->
  adj_ok (adjacencyConflicts indexes wrap) = true
  /\ adj_conflicts (adjacencyConflicts indexes wrap) = [].
Proof.
  intros Hsq Hnd. destruct (perfect_square_side _ Hsq) as (m & Hlen & Hm).
  assert (scanGrid indexes wrap m = ∅) as Hempty.
  { apply leibniz_equiv, elem_of_equiv_empty.
    intros k (r & c & Hr & Hc & Hk)%elem_of_scanGrid.
    destruct (cellStep_sound _ _ _ _ _ _ Hc Hr Hk) as (r' & c' & Hn & Heq & _).
    destruct (neighbour_in_grid _ _ _ _ _ _ Hr Hc Hn) as (Hr' & Hc' & Hne).
    pose proof (cell_in_range m r c Hr Hc) as Hi. rewrite <- Hlen in Hi.
    apply lookup_lt_is_Some in Hi as [x Hx]. unfold at_ in Heq.
    rewrite Hx in Heq. symmetry in Heq.
    apply Hne. by eapply NoDup_lookup. }
  split; [by apply (adj_ok_iff_empty _ _ m)|].
  rewrite (adjacencyConflicts_square _ _ m) by done. cbn [adj_conflicts].
  rewrite Hempty, elements_empty. done.
Qed.

Lemma distinct_tokens_pass_adjacency_witness :
  adj_ok (adjacencyConflicts [5; 9; 9000000; 12; 1; 77; 300; 2; 16777216] true)
  = true
  /\ adj_conflicts (adjacencyConflicts [3; 1; 2; 4] false) = [].
Proof.
  split.
  - eapply proj1.
    apply (distinct_tokens_pass_adjacency
             [5; 9; 9000000; 12; 1; 77; 300; 2; 16777216] true);
      [reflexivity|].
    repeat (apply NoDup_cons; split;
            [rewrite ?elem_of_cons, elem_of_nil; lia|]).
    apply NoDup_nil_2.
  - eapply proj2.
    apply (distinct_tokens_pass_adjacency [3; 1; 2; 4] false); [reflexivity|].
    repeat (apply NoDup_cons; split;
            [rewrite ?elem_of_cons, elem_of_nil; lia|]).
    apply NoDup_nil_2.
Defined.

(** X15: on a grid of side at least 2 filled with one value, every cell is
    reported as a conflict, with or without wrap. *)
Theorem uniform_grid_conflicts_everywhere (m : nat) (v : Z) (wrap : bool) (k : nat) :
  (2 <= m)%nat ->
  k ∈ adj_conflicts (adjacencyConflicts (replicate (m * m) v) wrap)
  <-> (k < m * m)%nat.
Proof.
  intros Hm. set (indexes := replicate (m * m) v).
  assert (length indexes = (m * m)%nat) as Hlen by apply length_replicate.
  rewrite (elem_of_adj_conflicts _ _ m) by (done || lia). split.
  - apply scanGrid_in_range.
  - intros Hk.
    assert (forall i j, (i < m * m)%nat -> (j < m * m)%nat ->
                        indexes !! i = indexes !! j) as Hsame.
    { intros i j Hi Hj. unfold indexes. by rewrite !lookup_replicate_2. }
    set (r := (k / m)%nat). set (c := (k mod m)%nat).
    assert (k = r * m + c)%nat as Hkrc
      by (unfold r, c; rewrite (Nat.div_mod_eq k m) at 1; lia).
    assert (c < m)%nat as Hc by (apply Nat.mod_upper_bound; lia).
    assert (r < m)%nat as Hr by (apply Nat.Div0.div_lt_upper_bound; lia).
    apply elem_of_scanGrid. destruct (decide (c + 1 < m)%nat) as [Hin|Hlast].
    + exists r, c. split; [done|]. split; [done|].
      destruct (cellStep_marks indexes wrap m (r, c) (r, (c + 1)%nat)) as [Hi _];
        [by constructor | |by rewrite Hkrc].
      cbn [fst snd]. unfold at_. apply Hsame; apply cell_in_range; lia.
    + exists r, (c - 1)%nat. split; [done|]. split; [lia|].
      destruct (cellStep_marks indexes wrap m (r, (c - 1)%nat) (r, (c - 1 + 1)%nat))
        as [_ Hj]; [constructor; lia | |].
      * cbn [fst snd]. unfold at_. apply Hsame; apply cell_in_range; lia.
      * cbn [fst snd] in Hj. rewrite Hkrc.
        by replace c with (c - 1 + 1)%nat at 1 by lia.
Qed.

Lemma uniform_grid_conflicts_everywhere_witness :
  3%nat ∈ adj_conflicts (adjacencyConflicts (replicate (2 * 2) 9999999) false).
Proof. apply (uniform_grid_conflicts_everywhere 2 9999999 false 3); lia. Defined.

(** ** Colors of an accepted grid *)




(** ** The Python verifier agrees with the page *)

Section PythonAgreement.
Variable unicode_isspace : N -> bool.
Variable unicode_todecimal : N -> option N.

Lemma takeWhile_all {A} (p : A -> bool) l :
  Forall (fun x => p x = true) l -> Py.takeWhile p l = l.
Proof. induction 1 as [|x l Hx _ IH]; cbn; [done|]. by rewrite Hx, IH. Qed.

Lemma wellGrouped_digits s : isDecimalText s -> Py.wellGrouped false s = true.
Proof.
  induction 1 as [|c s Hc _ IH]; cbn [Py.wellGrouped]; [done|].
  destruct (N.eqb_spec c 95); [lia|done].
Qed.

Lemma filter_digits s :
  isDecimalText s -> List.filter (fun d => negb (d =? 95)%N) s = s.
Proof.
  induction 1 as [|c s Hc _ IH]; cbn [List.filter]; [done|].
  destruct (N.eqb_spec c 95); [lia|]. cbn [negb]. by rewrite IH.
Qed.

(** On a non-empty digit string [int] returns its decimal value. *)
Lemma int10_digits seg :
  seg <> [] -> isDecimalText seg ->
  Py.int10 unicode_isspace unicode_todecimal seg
  = Some (digitsValue 10 (digitVal <$> seg)).
Proof.
  intros Hne Hseg. unfold Py.int10, Py.toAsciiDigits.
  assert (forallb (fun ch => (ch <? 128)%N) seg = true) as ->.
  { apply forallb_forall. intros c Hc%list_elem_of_In.
    unfold isDecimalText in Hseg. rewrite Forall_forall in Hseg.
    specialize (Hseg c Hc). cbn beta in Hseg. apply N.ltb_lt. lia. }
  destruct seg as [|c seg]; [done|].
  pose proof (Forall_inv Hseg) as Hc. cbn beta in Hc.
  assert (Py.isAsciiSpace c = false) as Hsp.
  { unfold Py.isAsciiSpace.
    destruct (N.leb_spec 9 c), (N.leb_spec c 13), (N.eqb_spec c 32); cbn; lia. }
  cbn [dropWhile]. rewrite Hsp.
  destruct (N.eqb_spec c 43); [lia|]. destruct (N.eqb_spec c 45); [lia|].
  assert (Forall (fun x => Py.isDigitOrUnderscore x = true) (c :: seg)) as Hdu.
  { eapply Forall_impl; [exact Hseg|]. intros x Hx. unfold Py.isDigitOrUnderscore.
    by rewrite (proj2 (isDecDigit_spec x) Hx). }
  rewrite (takeWhile_all _ _ Hdu), (dropWhile_all _ _ Hdu).
  destruct (N.eqb_spec c 95); [lia|].
  rewrite (wellGrouped_digits _ Hseg). cbn [negb dropWhile].
  by rewrite (filter_digits _ Hseg), Z.mul_1_l.
Qed.

Lemma foldl_snoc_omap {A B} (f : A -> option B) (l : list A) : forall acc,
  foldl (fun out i => match f i with Some v => out ++ [v] | None => out end) acc l
  = acc ++ omap f l.
Proof.
  induction l as [|x l IH]; intros acc; cbn [foldl omap list_omap].
  - by rewrite app_nil_r.
  - rewrite IH. destruct (f x); [by rewrite <- app_assoc|done].
Qed.

Lemma omap_fmap_source {A B C} (f : B -> option C) (g : A -> B) (l : list A) :
  omap f (g <$> l) = omap (fun x => f (g x)) l.
Proof. induction l as [|x l IH]; cbn; [done|]. by rewrite IH. Qed.

Lemma range0_windows L :
  Py.range0 L 7 = (fun j => j * 7)%nat <$> seq 0 (windowCount L).
Proof. unfold Py.range0, windowCount. do 2 f_equal. lia. Qed.

Lemma decode_tokens (s : jsstring) :
  isDecimalText s ->
  Py.decode_id_to_color_indexes unicode_isspace unicode_todecimal s 7
  = Some (tokenizeDecimal7 s).
Proof.
  intros Hs. unfold Py.decode_id_to_color_indexes. cbn [Nat.eqb]. f_equal.
  rewrite foldl_snoc_omap, range0_windows, tokenizeDecimal7_decimal by done.
  cbn [app]. rewrite omap_fmap_source. apply omap_total.
  apply Forall_forall. intros j Hj%elem_of_seq.
  replace (take 7 (drop (j * 7) s)) with (window s j)
    by (unfold window, slice; do 2 f_equal; lia).
  apply int10_digits; [|by apply window_decimal].
  intros Hnil. apply (f_equal length) in Hnil. rewrite window_length in Hnil.
  cbn [length] in Hnil. unfold windowCount in Hj. div_lia.
Qed.

(** X17: on a decimal text the Python tokenizer returns the token stream
    of [tokenizeDecimal7], whatever the Unicode tables. *)
Theorem decode_id_to_color_indexes_agrees (s : jsstring) :
  isDecimalText s ->
  Py.decode_id_to_color_indexes unicode_isspace unicode_todecimal s 7
  = Some (tokenizeDecimal7 s).
Proof. apply decode_tokens. Qed.
End PythonAgreement.

Section PythonAdjacency.
Variable indexes : list Z.
Variable wrap : bool.
Variable m : nat.

(** The test the Python scan makes at one cell. *)
Let cellTest (r c : nat) : bool :=
  let idx (r c : nat) := indexes !! (r * m + c)%nat in
  let cur := idx r c in
  (if (c + 1 <? m)%nat then bool_decide (cur = idx r (c + 1)%nat)
   else if wrap && (1 <? m)%nat then bool_decide (cur = idx r 0%nat)
   else false)
  || (if (r + 1 <? m)%nat then bool_decide (cur = idx (r + 1)%nat c)
      else if wrap && (1 <? m)%nat then bool_decide (cur = idx 0%nat c)
      else false).

Lemma cellTest_spec r c :
  (r < m)%nat -> (c < m)%nat ->
  cellTest r c = true
  <-> exists r' c', neighbour wrap m (r, c) (r', c')
                    /\ indexes !! (r * m + c)%nat = indexes !! (r' * m + c')%nat.
Proof.
  intros Hr Hc. unfold cellTest. rewrite orb_true_iff. split.
  - intros [H|H].
    + destruct (Nat.ltb_spec (c + 1) m).
      * apply bool_decide_eq_true in H. exists r, (c + 1)%nat. split; [by constructor|done].
      * destruct wrap eqn:Hw; [|done]. destruct (Nat.ltb_spec 1 m); [|done].
        apply bool_decide_eq_true in H. exists r, 0%nat.
        split; [constructor; [lia|done..]|done].
    + destruct (Nat.ltb_spec (r + 1) m).
      * apply bool_decide_eq_true in H. exists (r + 1)%nat, c. split; [by constructor|done].
      * destruct wrap eqn:Hw; [|done]. destruct (Nat.ltb_spec 1 m); [|done].
        apply bool_decide_eq_true in H. exists 0%nat, c.
        split; [constructor; [lia|done..]|done].
  - intros (r' & c' & Hn & Heq).
    inversion Hn as [? ? Hlt|? ? Hlast Hw Hm|? ? Hlt|? ? Hlast Hw Hm]; subst.
    + left. rewrite (proj2 (Nat.ltb_lt _ _) Hlt). by apply bool_decide_eq_true.
    + left. rewrite (proj2 (Nat.ltb_ge _ _)) by lia.
      rewrite (proj2 (Nat.ltb_lt 1 _)) by lia. by apply bool_decide_eq_true.
    + right. rewrite (proj2 (Nat.ltb_lt _ _) Hlt). by apply bool_decide_eq_true.
    + right. rewrite (proj2 (Nat.ltb_ge _ _)) by lia.
      rewrite (proj2 (Nat.ltb_lt 1 _)) by lia. by apply bool_decide_eq_true.
Qed.

Lemma scan_finds_conflict :
  existsb (fun r => existsb (cellTest r) (seq 0 m)) (seq 0 m) = true
  <-> exists k, k ∈ scanGrid indexes wrap m.
Proof.
  rewrite existsb_exists. split.
  - intros (r & Hr%list_elem_of_In%elem_of_seq & (c & Hc%list_elem_of_In%elem_of_seq & Ht)%existsb_exists).
    apply cellTest_spec in Ht as (r' & c' & Hn & Heq); [|lia..].
    destruct (cellStep_marks indexes wrap m (r, c) (r', c') Hn Heq) as [Hi _].
    exists (r * m + c)%nat. apply elem_of_scanGrid. exists r, c.
    repeat split; [lia..|done].
  - intros (k & (r & c & Hr & Hc & Hk)%elem_of_scanGrid).
    destruct (cellStep_sound _ _ _ _ _ _ Hc Hr Hk) as (r' & c' & Hn & Heq & _).
    exists r. split; [apply list_elem_of_In, elem_of_seq; lia|].
    apply existsb_exists. exists c. split; [apply list_elem_of_In, elem_of_seq; lia|].
    apply cellTest_spec; [done..|]. by exists r', c'.
Qed.
End PythonAdjacency.

Lemma adjacency_test_negates (indexes : list Z) (wrap : bool) :
  Py.has_adjacent_conflict indexes wrap
  = negb (adj_ok (adjacencyConflicts indexes wrap)).
Proof.
  unfold Py.has_adjacent_conflict.
  change (Py.is_perfect_square (Z.of_nat (length indexes)))
    with (isPerfectSquare (Z.of_nat (length indexes))).
  destruct (isPerfectSquare (Z.of_nat (length indexes))) eqn:Hsq; cbn [negb].
  - destruct (perfect_square_side _ Hsq) as (m & Hlen & Hm).
    assert (Z.to_nat (Z.sqrt (Z.of_nat (length indexes))) = m) as ->
      by (rewrite Hlen; by apply isPerfectSquare_side).
    pose proof (scan_finds_conflict indexes wrap m) as Hscan. cbn zeta in Hscan.
    pose proof (adj_ok_iff_empty indexes wrap m Hlen Hm) as Hok.
    destruct (adj_ok (adjacencyConflicts indexes wrap)); cbn [negb].
    + apply not_true_is_false. intros [k Hk]%Hscan.
      rewrite (proj1 Hok eq_refl) in Hk. by apply not_elem_of_empty in Hk.
    + apply Hscan. apply set_choose_L. intros Hempty. by apply Hok in Hempty.
  - by rewrite adjacencyConflicts_not_square.
Qed.

(** X18: the Python adjacency test answers [True] exactly when the
    adjacency check of the page fails, on every token list and for both
    wrap settings. *)
Theorem has_adjacent_conflict_agrees (indexes : list Z) (wrap : bool) :
  Py.has_adjacent_conflict indexes wrap
  = negb (adj_ok (adjacencyConflicts indexes wrap)).
Proof. apply adjacency_test_negates. Qed.

Lemma are_valid_color_indexes_agrees indexes :
  Py.are_valid_color_indexes indexes = range_ok (areValidColorIndexes indexes).
Proof.
  apply eq_true_iff_eq. rewrite range_ok_spec. unfold Py.are_valid_color_indexes.
  rewrite forallb_forall, Forall_forall. fold MAX_COLOR_INDEX.
  split; intros H x Hx.
  - apply list_elem_of_In, H in Hx. by apply validColorIndex_spec.
  - apply list_elem_of_In, H in Hx. by apply validColorIndex_spec.
Qed.

(** The two colorizers agree from index 1 up. *)
Lemma color_index_to_hex_agrees idx :
  1 <= idx -> Py.color_index_to_hex idx = colorIndexToHex idx.
Proof.
  intros Hidx. unfold Py.color_index_to_hex, colorIndexToHex, Py.format_06x,
    toStringRadix.
  by destruct (Z.ltb_spec (idx - 1) 0); [lia|].
Qed.

(** X19: on the decimal text of a non-negative integer the Python verifier
    returns a report with the verdict and tokens of the page; an accepted
    report has the same grid side and colors; a rejected one names the
    same first failing check. *)
Theorem verify_acceptance_agrees (unicode_isspace : N -> bool)
    (unicode_todecimal : N -> option N) (v : Z) (wrap : bool) :
  0 <= v ->
  exists report,
    Py.verify_acceptance_from_decimal_string unicode_isspace unicode_todecimal
      (toStringRadix 10 v) wrap = Some report
    /\ Py.ok report = ev_accepted (judge v wrap)
    /\ Py.indexes report = ev_tokens (judge v wrap)
    /\ (Py.ok report = true ->
        Py.m report = ev_m (judge v wrap)
        /\ Py.hex_colors report = ev_hex (judge v wrap))
    /\ (ev_squareOk (judge v wrap) = false ->
        Py.reason report
        = str "Token count "
            ++ toStringRadix 10 (Z.of_nat (length (ev_tokens (judge v wrap))))
            ++ str " is not a perfect square.")
    /\ (ev_squareOk (judge v wrap) = true ->
        range_ok (ev_range (judge v wrap)) = false ->
        Py.reason report = str "One or more tokens are outside [1..16^6].")
    /\ (ev_squareOk (judge v wrap) = true ->
        range_ok (ev_range (judge v wrap)) = true ->
        adj_ok (ev_adj (judge v wrap)) = false ->
        Py.reason report
        = str "Adjacency conflict: at least one orthogonal neighbor pair is equal.").
Proof.
  intros Hv. destruct (toStringRadix_decimal v Hv) as [_ Hdec].
  unfold Py.verify_acceptance_from_decimal_string.
  rewrite decode_tokens by done.
  eexists. split; [reflexivity|].
  unfold judge. cbn [ev_accepted ev_tokens ev_m ev_hex ev_squareOk ev_range ev_adj].
  set (tokens := tokenizeDecimal7 (toStringRadix 10 v)).
  change (Py.is_perfect_square (Z.of_nat (length tokens)))
    with (isPerfectSquare (Z.of_nat (length tokens))).
  rewrite are_valid_color_indexes_agrees, adjacency_test_negates.
  destruct (isPerfectSquare (Z.of_nat (length tokens))) eqn:Hsq; cbn [negb andb];
    [|by repeat split].
  destruct (range_ok (areValidColorIndexes tokens)) eqn:Hrange; cbn [negb andb];
    [|by repeat split].
  destruct (adj_ok (adjacencyConflicts tokens wrap)) eqn:Hadj; cbn [negb];
    [|by repeat split].
  cbn [Py.ok Py.indexes Py.m Py.hex_colors Py.reason].
  repeat split; try done. unfold buildHexSequence.
  apply Forall_fmap_ext. apply range_ok_spec in Hrange.
  eapply Forall_impl; [exact Hrange|]. intros x [Hx _].
  by apply color_index_to_hex_agrees.
Qed.

Lemma decode_id_to_color_indexes_agrees_witness :
  Py.decode_id_to_color_indexes (fun _ => false) (fun _ => None)
    (str "12345678") 7 = Some [1234567; 8].
Proof.
  rewrite (decode_id_to_color_indexes_agrees _ _ (str "12345678"));
    [reflexivity|]. apply isDecimalText_bool. reflexivity.
Defined.

Lemma verify_acceptance_agrees_witness :
  exists report,
    Py.verify_acceptance_from_decimal_string (fun _ => false) (fun _ => None)
      (toStringRadix 10 1000000200000030000004) true = Some report
    /\ Py.ok report = true.
Proof.
  destruct (verify_acceptance_agrees (fun _ => false) (fun _ => None)
              1000000200000030000004 true) as (report & Hrun & Hok & _); [lia|].
  exists report. split; [exact Hrun|]. rewrite Hok. vm_compute. reflexivity.
Defined.

(** ** Derived circuits *)

Section Derivation.
Variable indexes : list Z.
Variable m max_qubits max_layers : nat.
Variable reversible_only : bool.

Let q := Nat.min m max_qubits.
Let layers := Nat.min m max_layers.

(** A property of [(qc, cc)] that holds at the start and is kept by every
    cell and by the barrier holds of the result. *)
Lemma derive_invariant (P : list Py.instr * list Py.instr -> Prop) :
  P ([], []) ->
  (forall tok c circ, (c < q)%nat -> P circ ->
     P (Py.cellGates reversible_only q tok c circ)) ->
  (forall qc cc, P (qc, cc) -> P (qc ++ [Py.Barrier], cc)) ->
  forall out,
    Py.derive_quantum_and_classical_from_grid indexes m max_qubits max_layers
      reversible_only = Some out ->
    P out.
Proof.
  intros Hinit Hcell Hbar.
  assert (forall r cs st,
            Forall (fun c => (c < q)%nat) cs ->
            (forall circ, st = Some circ -> P circ) ->
            forall circ,
              foldl (fun st c =>
                       circ ← st;
                       tok ← indexes !! (r * m + c)%nat;
                       Some (Py.cellGates reversible_only q tok c circ))
                    st cs = Some circ -> P circ) as Hrow.
  { intros r cs. induction cs as [|c cs IH]; intros st Hcs Hst circ; cbn [foldl];
      [apply Hst|].
    apply Forall_cons in Hcs as [Hc Hcs]. apply IH; [done|].
    intros circ'. destruct st as [circ0|]; cbn; [|done].
    destruct (indexes !! (r * m + c)%nat) as [tok|]; cbn; [|done].
    intros [= <-]. by apply Hcell, Hst. }
  assert (forall rs st,
            (forall circ, st = Some circ -> P circ) ->
            forall circ,
              foldl (fun st r => Py.layer indexes m reversible_only q r st) st rs
              = Some circ -> P circ) as Hrows.
  { intros rs. induction rs as [|r rs IH]; intros st Hst circ; cbn [foldl];
      [apply Hst|].
    apply IH. intros circ'. unfold Py.layer.
    destruct (foldl _ st (seq 0 q)) as [[qc cc]|] eqn:Hfold; cbn; [|done].
    intros [= <-]. apply Hbar. apply (Hrow r (seq 0 q) st); [|done|done].
    apply Forall_forall. intros c Hc%elem_of_seq. lia. }
  intros out. unfold Py.derive_quantum_and_classical_from_grid.
  apply Hrows. by intros circ [= <-].
Qed.

End Derivation.

Lemma cellGates_qc_length reversible_only q tok c qc cc :
  length (Py.cellGates reversible_only q tok c (qc, cc)).1 = S (length qc).
Proof.
  unfold Py.cellGates.
  repeat match goal with
  | |- context [match ?g with Py.g_x => _ | _ => _ end] => destruct g
  | |- context [if ?b then _ else _] => destruct b
  end; cbn [fst]; rewrite length_app; cbn [length]; lia.
Qed.

Lemma filter_snoc {A} (p : A -> bool) l x :
  List.filter p (l ++ [x]) = List.filter p l ++ (if p x then [x] else []).
Proof. by rewrite List.filter_app. Qed.

Ltac cases_of_cellGates :=
  unfold Py.cellGates;
  repeat match goal with
  | |- context [match ?g with Py.g_x => _ | _ => _ end] => destruct g eqn:?
  | |- context [if ?b then _ else _] => destruct b eqn:?
  end.

(** X20: the classical circuit is the quantum circuit restricted to its
    X and CX instructions, in the same order. *)
Theorem classical_shadow_is_filter (indexes : list Z)
    (m max_qubits max_layers : nat) (reversible_only : bool)
    (qc cc : list Py.instr) :
  Py.derive_quantum_and_classical_from_grid indexes m max_qubits max_layers
    reversible_only = Some (qc, cc) ->
  cc = List.filter isClassical qc.
Proof.
  apply (derive_invariant indexes m max_qubits max_layers reversible_only
           (fun circ => circ.2 = List.filter isClassical circ.1)); [done| |].
  - intros tok c [qc0 cc0] _ Hcirc. cbn [fst snd] in Hcirc. subst cc0.
    cases_of_cellGates; cbn [fst snd]; rewrite filter_snoc; cbn [isClassical];
      by rewrite ?app_nil_r.
  - intros qc0 cc0 Hcirc. cbn [fst snd] in *. rewrite filter_snoc. cbn [isClassical].
    by rewrite app_nil_r.
Qed.

(** X21: in reversible-only mode the quantum circuit, its barriers apart,
    is the classical circuit, and holds X and CX instructions only. *)
Theorem reversible_only_circuits_coincide (indexes : list Z)
    (m max_qubits max_layers : nat) (qc cc : list Py.instr) :
  Py.derive_quantum_and_classical_from_grid indexes m max_qubits max_layers
    true = Some (qc, cc) ->
  List.filter (fun i => negb (isBarrier i)) qc = cc
  /\ Forall (fun i => isClassical i = true) cc.
Proof.
  apply (derive_invariant indexes m max_qubits max_layers true
           (fun circ => List.filter (fun i => negb (isBarrier i)) circ.1 = circ.2
                        /\ Forall (fun i => isClassical i = true) circ.2));
    [by split| |].
  - intros tok c [qc0 cc0] _ [Hf Hc]. cbn [fst snd] in Hf, Hc. subst cc0.
    unfold Py.cellGates.
    destruct (_ && _); [destruct (_ =? 1)%nat|]; cbn [fst snd];
      rewrite filter_snoc; cbn [isBarrier negb];
      (split; [done|]); apply Forall_app; (split; [done|]); by repeat constructor.
  - intros qc0 cc0 [Hf Hc]. cbn [fst snd] in *. rewrite filter_snoc.
    cbn [isBarrier negb]. by rewrite app_nil_r.
Qed.

Lemma cx_target_in_range (q c : nat) (tok : Z) :
  (c < q)%nat -> (q <> 1)%nat ->
  let shift := 1 + tok mod (Z.of_nat q - 1) in
  let target := Z.to_nat ((Z.of_nat c + shift) mod Z.of_nat q) in
  (target < q)%nat /\ c <> target.
Proof.
  intros Hc Hq shift target.
  assert (1 <= shift <= Z.of_nat q - 1) as Hshift.
  { unfold shift. pose proof (Z.mod_pos_bound tok (Z.of_nat q - 1) ltac:(lia)). lia. }
  pose proof (Z.mod_pos_bound (Z.of_nat c + shift) (Z.of_nat q) ltac:(lia)) as Hmod.
  split; [unfold target; lia|]. intros Heq.
  assert ((Z.of_nat c + shift) mod Z.of_nat q = Z.of_nat c) as Hc' by (unfold target in Heq; lia).
  destruct (Z.lt_ge_cases (Z.of_nat c + shift) (Z.of_nat q)) as [Hlt|Hge].
  - rewrite Z.mod_small in Hc' by lia. lia.
  - replace (Z.of_nat c + shift) with ((Z.of_nat c + shift - Z.of_nat q) + 1 * Z.of_nat q) in Hc' by lia.
    rewrite Z.mod_add, Z.mod_small in Hc' by lia. lia.
Qed.

Lemma token_to_angle_bounds tok : 1 <= Py.token_to_angle tok <= 32.
Proof.
  unfold Py.token_to_angle. pose proof (Z.mod_pos_bound tok 32 ltac:(lia)). lia.
Qed.

Lemma cellGates_wellFormed reversible_only q tok c qc cc :
  (c < q)%nat ->
  Forall (wellFormed q) qc -> Forall (wellFormed q) cc ->
  Forall (wellFormed q) (Py.cellGates reversible_only q tok c (qc, cc)).1
  /\ Forall (wellFormed q) (Py.cellGates reversible_only q tok c (qc, cc)).2.
Proof.
  intros Hc Hqc Hcc.
  assert (forall g, g ∈ [Py.g_x; Py.g_y; Py.g_z; Py.g_h; Py.g_s; Py.g_sdg; Py.g_t; Py.g_tdg] ->
                    Forall (wellFormed q) (qc ++ [Py.Single g c])) as Hsingle.
  { intros g Hg. apply Forall_app. split; [done|]. by apply Forall_singleton. }
  assert (Forall (wellFormed q) (cc ++ [Py.Single Py.g_x c])) as Hx.
  { apply Forall_app. split; [done|]. apply Forall_singleton. split; [done|left]. }
  assert (forall g, g ∈ [Py.g_rx; Py.g_ry; Py.g_rz] ->
                    Forall (wellFormed q)
                      (qc ++ [Py.Rotation g (Py.token_to_angle tok) c])) as Hrot.
  { intros g Hg. apply Forall_app. split; [done|]. apply Forall_singleton.
    split; [done|]. split; [apply token_to_angle_bounds|done]. }
  assert ((q =? 1)%nat = false ->
          forall l, Forall (wellFormed q) l ->
            Forall (wellFormed q)
              (l ++ [Py.Cx c (Z.to_nat ((Z.of_nat c + (1 + tok mod (Z.of_nat q - 1)))
                                         mod Z.of_nat q))])) as Hcx.
  { intros Hq%Nat.eqb_neq l Hl. apply Forall_app. split; [done|].
    destruct (cx_target_in_range q c tok Hc Hq). by apply Forall_singleton. }
  unfold Py.cellGates.
  set (gate0 := nth _ Py.GATES Py.g_x).
  destruct reversible_only.
  - destruct (_ && _); [destruct (q =? 1)%nat eqn:Hq1|]; cbn [fst snd]; split;
      try done; try (apply Hsingle; left); by apply Hcx.
  - destruct gate0; [| | | | | | | | | | |destruct (q =? 1)%nat eqn:Hq1];
      cbn [fst snd]; split; try done;
      try (apply Hsingle; set_solver); try (apply Hrot; set_solver);
      by apply Hcx.
Qed.

(** X22: every instruction of the derived circuits addresses qubits below
    the qubit count; a CX has distinct control and target; a rotation has
    an angle multiplier between 1 and 32, never 0. *)
Theorem derived_circuits_well_formed (indexes : list Z)
    (m max_qubits max_layers : nat) (reversible_only : bool)
    (qc cc : list Py.instr) :
  Py.derive_quantum_and_classical_from_grid indexes m max_qubits max_layers
    reversible_only = Some (qc, cc) ->
  Forall (wellFormed (Nat.min m max_qubits)) qc
  /\ Forall (wellFormed (Nat.min m max_qubits)) cc.
Proof.
  apply (derive_invariant indexes m max_qubits max_layers reversible_only
           (fun circ => Forall (wellFormed (Nat.min m max_qubits)) circ.1
                        /\ Forall (wellFormed (Nat.min m max_qubits)) circ.2));
    [by split| |].
  - intros tok c [qc0 cc0] Hc [Hq0 Hc0]. by apply cellGates_wellFormed.
  - intros qc0 cc0 [Hq0 Hc0]. cbn [fst snd] in *. split; [|done].
    apply Forall_app. split; [done|]. by apply Forall_singleton.
Qed.

Section DerivationRuns.
Variable indexes : list Z.
Variable m q : nat.
Variable reversible_only : bool.
Hypothesis indexes_square : length indexes = (m * m)%nat.
Hypothesis q_le_m : (q <= m)%nat.

Lemma row_runs r cs : forall circ,
  (r < m)%nat -> Forall (fun c => (c < q)%nat) cs ->
  exists circ',
    foldl (fun st c =>
             circ ← st;
             tok ← indexes !! (r * m + c)%nat;
             Some (Py.cellGates reversible_only q tok c circ))
          (Some circ) cs = Some circ'
    /\ length circ'.1 = (length circ.1 + length cs)%nat.
Proof.
  intros circ Hr. revert circ.
  induction cs as [|c cs IH]; intros circ Hcs; cbn [foldl length].
  - exists circ. split; [done|lia].
  - apply Forall_cons in Hcs as [Hc Hcs].
    assert (r * m + c < length indexes)%nat as Hin by (rewrite indexes_square; nia).
    apply lookup_lt_is_Some in Hin as [tok Htok]. cbn. rewrite Htok. cbn.
    destruct (IH (Py.cellGates reversible_only q tok c circ) Hcs) as (circ' & Hrun & Hlen).
    exists circ'. split; [done|]. rewrite Hlen. destruct circ as [qc cc].
    rewrite cellGates_qc_length. cbn [fst]. lia.
Qed.

Lemma layers_run rs : forall circ,
  Forall (fun r => (r < m)%nat) rs ->
  exists circ',
    foldl (fun st r => Py.layer indexes m reversible_only q r st) (Some circ) rs
    = Some circ'
    /\ length circ'.1 = (length circ.1 + length rs * (q + 1))%nat.
Proof.
  induction rs as [|r rs IH]; intros circ Hrs; cbn [foldl length].
  - exists circ. split; [done|lia].
  - apply Forall_cons in Hrs as [Hr Hrs]. unfold Py.layer at 2.
    destruct (row_runs r (seq 0 q) circ Hr) as ([qc cc] & Hrow & Hlen).
    { apply Forall_forall. intros c Hc%elem_of_seq. lia. }
    rewrite Hrow. cbn [fmap option_fmap option_map].
    destruct (IH (qc ++ [Py.Barrier], cc) Hrs) as (circ' & Hrun & Hlen').
    exists circ'. split; [done|]. rewrite Hlen'. cbn [fst] in *.
    rewrite length_app, Hlen, length_seq. cbn [length]. lia.
Qed.
End DerivationRuns.

(** X23: on a token list of length [m * m] the derivation never indexes
    outside the list; the quantum circuit has one instruction per cell of
    the top-left [layers x q] block plus one barrier per layer. *)
Theorem derivation_runs_on_square_grid (indexes : list Z)
    (m max_qubits max_layers : nat) (reversible_only : bool) :
  length indexes = (m * m)%nat ->
  exists qc cc,
    Py.derive_quantum_and_classical_from_grid indexes m max_qubits max_layers
      reversible_only = Some (qc, cc)
    /\ length qc = (Nat.min m max_layers * (Nat.min m max_qubits + 1))%nat.
Proof.
  intros Hlen. unfold Py.derive_quantum_and_classical_from_grid.
  destruct (layers_run indexes m (Nat.min m max_qubits) reversible_only Hlen
              ltac:(lia) (seq 0 (Nat.min m max_layers)) ([], []))
    as ([qc cc] & Hrun & Hqc).
  { apply Forall_forall. intros r Hr%elem_of_seq. lia. }
  exists qc, cc. split; [done|]. cbn [fst length] in Hqc.
  rewrite Hqc, length_seq. lia.
Qed.

Lemma classical_shadow_is_filter_witness :
  exists qc cc,
    Py.derive_quantum_and_classical_from_grid [1; 2; 3; 4] 2 8 16 false
    = Some (qc, cc)
    /\ cc = List.filter isClassical qc.
Proof.
  eexists _, _. split; [vm_compute; reflexivity|].
  apply (classical_shadow_is_filter [1; 2; 3; 4] 2 8 16 false).
  vm_compute. reflexivity.
Defined.

Lemma reversible_only_circuits_coincide_witness :
  exists qc cc,
    Py.derive_quantum_and_classical_from_grid [1; 2; 3; 4] 2 8 16 true
    = Some (qc, cc)
    /\ List.filter (fun i => negb (isBarrier i)) qc = cc.
Proof.
  eexists _, _. split; [vm_compute; reflexivity|].
  eapply proj1. apply (reversible_only_circuits_coincide [1; 2; 3; 4] 2 8 16).
  vm_compute. reflexivity.
Defined.

Lemma derived_circuits_well_formed_witness :
  exists qc cc,
    Py.derive_quantum_and_classical_from_grid [11; 23; 8; 4] 2 8 16 false
    = Some (qc, cc)
    /\ Forall (wellFormed 2) qc.
Proof.
  eexists _, _. split; [vm_compute; reflexivity|].
  eapply proj1. apply (derived_circuits_well_formed [11; 23; 8; 4] 2 8 16 false).
  vm_compute. reflexivity.
Defined.

Lemma derivation_runs_on_square_grid_witness :
  exists qc cc,
    Py.derive_quantum_and_classical_from_grid [11; 23; 8; 4] 2 8 16 false
    = Some (qc, cc)
    /\ length qc = 6%nat.
Proof. apply (derivation_runs_on_square_grid [11; 23; 8; 4] 2 8 16 false). reflexivity. Defined.

(** ** Integers the text encoders never return *)

Lemma repunit_pos k n : 0 < k -> (0 < n)%nat -> 1 <= repunit k n.
Proof.
  intros Hk Hn. destruct n as [|n]; [lia|]. cbn [repunit].
  assert (0 <= repunit k n).
  { clear Hn. induction n as [|n IH]; cbn [repunit]; [lia|].
    pose proof (Z.pow_nonneg k (Z.of_nat n)). lia. }
  pose proof (Z.pow_pos_nonneg k (Z.of_nat n)). lia.
Qed.

Lemma bijective_success_classic charsetArr charToIdx chs : forall a b v,
  bijectiveLoop charsetArr charToIdx chs b = inr v ->
  exists w, classicLoop charsetArr charToIdx chs a = inr w.
Proof.
  intros a b v Hv.
  destruct (classicLoop charsetArr charToIdx chs a) as [e|w] eqn:Hc; [|by exists w].
  apply (loops_same_error _ _ _ a b) in Hc. congruence.
Qed.

Section ProfileCodes.
Variable charsetArr : list jsstring.
Hypothesis charset_NoDup : NoDup charsetArr.
Hypothesis charset_zero : charsetArr !! 0%nat = Some (str " ").

Let charToIdx := buildCharIndexMap charsetArr.

Lemma classicLoop_zero chs : forall a,
  0 <= a -> classicLoop charsetArr charToIdx chs a = inr 0 ->
  a = 0 /\ Forall (fun ch => ch = str " ") chs.
Proof.
  assert (0 < Z.of_nat (length charsetArr)) as Hk.
  { apply lookup_lt_Some in charset_zero. lia. }
  induction chs as [|ch chs IH]; intros a Ha; cbn [classicLoop].
  - intros [= ->]. done.
  - destruct (charToIdx !! ch) as [i|] eqn:Hi; [|done].
    intros [Hz Hrest]%IH; [|nia].
    assert (a = 0 /\ i = 0%nat) as [-> ->] by nia.
    split; [done|]. constructor; [|done].
    apply buildCharIndexMap_lookup in Hi; [|done]. congruence.
Qed.

Lemma spaces_are_blank s :
  Forall (fun ch => ch = str " ") (chars s) -> isWhiteSpaceOnly s.
Proof.
  intros Hs. rewrite <- (chars_concat s).
  induction Hs as [|ch chs -> _ IH]; [constructor|].
  cbn [concat]. apply Forall_app. split; [by repeat constructor|done].
Qed.

Lemma profile_codes s v :
  (encodeStringClassic charsetArr charToIdx s = inr v -> 1 <= v)
  /\ (encodeStringBijective charsetArr charToIdx s = inr v -> 2 <= v).
Proof.
  assert (0 < Z.of_nat (length charsetArr)) as Hk.
  { apply lookup_lt_Some in charset_zero. lia. }
  assert (forall w, encodeStringClassic charsetArr charToIdx s = inr w -> 1 <= w)
    as Hclassic.
  { intros w. unfold encodeStringClassic.
    destruct (isBlank s) eqn:Hblank; [done|]. intros Hw.
    pose proof (classicLoop_nonneg _ _ _ 0 _ ltac:(lia) Hw).
    destruct (decide (w = 0)) as [->|]; [|lia].
    apply classicLoop_zero in Hw as [_ Hsp]; [|lia].
    apply spaces_are_blank, isBlank_spec in Hsp. congruence. }
  split; [apply Hclassic|].
  unfold encodeStringBijective. destruct (isBlank s) eqn:Hblank; [done|].
  intros Hv. destruct (bijective_success_classic _ _ _ 0 0 v Hv) as [w Hw].
  pose proof (loops_offset _ _ _ 0 0 w Hw) as Hoff.
  fold charToIdx in Hoff. rewrite Hv in Hoff. injection Hoff as ->.
  assert (1 <= w) by (apply Hclassic; unfold encodeStringClassic; by rewrite Hblank).
  assert (0 < length (chars s))%nat.
  { destruct (chars s) eqn:Hch; [|cbn [length]; lia].
    assert (s = []) as -> by (by rewrite <- (chars_concat s), Hch). done. }
  pose proof (repunit_pos (Z.of_nat (length charsetArr)) (length (chars s)) Hk ltac:(lia)).
  lia.
Qed.
End ProfileCodes.

(** X24: in both profiles the classic encoder never returns 0 and the
    bijective encoder never returns 0 or 1: those are the codes of the
    empty string and of strings of spaces, which are rejected as blank. *)
Theorem text_codes_skip_blank_codes (profile : profileT) (s : jsstring) (v : Z) :
  let charsetArr := (ensureCharsetReady profile).1 in
  let charToIdx := (ensureCharsetReady profile).2 in
  (encodeStringClassic charsetArr charToIdx s = inr v -> 1 <= v)
  /\ (encodeStringBijective charsetArr charToIdx s = inr v -> 2 <= v).
Proof.
  rewrite ensureCharsetReady_eq. cbn zeta. cbn [fst snd].
  set (cfg := match profile with
              | ProfileFull => charsetConfigFull
              | ProfileLite => charsetConfigLite
              end).
  assert (generateCharsetFromConfig cfg !! 0%nat = Some (str " ")) as Hzero.
  { destruct profile; apply generateCharsetFromConfig_head; cbn; lia. }
  pose proof (generateCharsetFromConfig_NoDup cfg) as Hnd.
  generalize dependent (generateCharsetFromConfig cfg). intros arr Hzero Hnd.
  by apply profile_codes.
Qed.

Lemma text_codes_skip_blank_codes_witness : 2 <= 49831.
Proof.
  apply (text_codes_skip_blank_codes ProfileLite (str "ab") 49831).
  vm_compute. reflexivity.
Defined.

(** ** The leading token *)

Lemma toStringRadix_leading_digit v :
  0 < v ->
  exists c r, toStringRadix 10 v = c :: r /\ (49 <= c <= 57)%N
              /\ isDecimalText r.
Proof.
  intros Hv. destruct (toStringRadix_decimal v ltac:(lia)) as [Hne Hdec].
  assert (digitsValue 10 (digitVal <$> toStringRadix 10 v) = v) as Hval.
  { rewrite digitVal_toStringRadix by lia.
    change 10 with (Z.of_N 10). rewrite (digitsOf_value 10) by lia. lia. }
  pose proof (toStringRadix_of_decimal _ Hne Hdec) as Hcanon.
  rewrite Hval in Hcanon. unfold stripLeadingZeros in Hcanon.
  destruct (dropWhile_stops (fun c => (c =? 48)%N) (toStringRadix 10 v))
    as [Hnil|(c & r & Hd & Hc)].
  - rewrite Hnil in Hcanon. rewrite Hcanon in Hval.
    change (digitsValue 10 (digitVal <$> str "0")) with 0 in Hval. lia.
  - rewrite Hd in Hcanon. exists c, r. split; [done|].
    rewrite Hcanon in Hdec. apply Forall_cons in Hdec as [Hc' Hr].
    apply N.eqb_neq in Hc. split; [lia|done].
Qed.

Lemma positional_nonneg ds :
  Forall (fun d => 0 <= d) ds -> 0 <= positional 10 ds.
Proof.
  induction 1 as [|d ds Hd _ IH]; cbn [positional]; [lia|].
  pose proof (Z.pow_nonneg 10 (Z.of_nat (length ds))). nia.
Qed.

(** X25: for a positive integer the first token is at least 1, and at
    least 1,000,000 as soon as there is a second token: only later tokens
    can be 0 or short. *)
Theorem leading_token_is_full (v : Z) (wrap : bool) :
  0 < v ->
  exists t rest,
    ev_tokens (judge v wrap) = t :: rest
    /\ 1 <= t
    /\ (rest <> [] -> 1000000 <= t).
Proof.
  intros Hv. destruct (toStringRadix_leading_digit v Hv) as (c & r & Htext & Hc & Hr).
  assert (isDecimalText (c :: r)) as Hdec by (constructor; [lia|done]).
  unfold judge. cbn [ev_tokens]. rewrite Htext.
  rewrite tokenizeDecimal7_decimal by done. cbn [length].
  assert (windowCount (S (length r)) = S (windowCount (length r - 6))) as ->
    by (unfold windowCount; div_lia).
  cbn [seq fmap list_fmap]. eexists _, _. split; [reflexivity|].
  assert (window (c :: r) 0 = c :: take 6 r) as -> by reflexivity.
  rewrite digitsValue_positional. cbn [fmap list_fmap positional].
  rewrite length_fmap, length_take.
  assert (0 <= positional 10 (digitVal <$> take 6 r)) as Hrest.
  { apply positional_nonneg. eapply Forall_impl;
      [apply digitVal_decimal, Forall_take, Hr|]. cbn beta. lia. }
  assert (1 <= digitVal c) by (unfold digitVal; lia).
  assert (0 < 10 ^ Z.of_nat (Nat.min 6 (length r)))
    by (apply Z.pow_pos_nonneg; lia).
  split; [nia|]. intros Hmore.
  assert (6 <= length r)%nat as Hlen.
  { destruct (windowCount (length r - 6)) eqn:Hw; [done|].
    unfold windowCount in Hw. div_lia. }
  replace (Nat.min 6 (length r)) with 6%nat in * by lia.
  change (10 ^ Z.of_nat 6) with 1000000 in *. nia.
Qed.

Lemma leading_token_is_full_witness :
  exists t rest, ev_tokens (judge 10000000 false) = t :: rest /\ 1 <= t.
Proof.
  destruct (leading_token_is_full 10000000 false) as (t & rest & H & Ht & _); [lia|].
  by exists t, rest.
Defined.

(** ** Worked scenarios *)

(** Tokens [1,2,3,4] on a 2x2 grid: no conflict, and the four colors. *)
Example scenario_distinct_grid :
  adj_ok (adjacencyConflicts [1; 2; 3; 4] false) = true
  /\ buildHexSequence [1; 2; 3; 4]
     = [str "#000000"; str "#000001"; str "#000002"; str "#000003"].
Proof. split; reflexivity. Qed.

(** Tokens [1,1,2,3]: cells 0 and 1 conflict. *)
Example scenario_horizontal_conflict :
  adj_ok (adjacencyConflicts [1; 1; 2; 3] false) = false
  /\ adj_conflicts (adjacencyConflicts [1; 1; 2; 3] false) = [0; 1]%nat.
Proof. split; reflexivity. Qed.

(** Twenty-eight nines: four equal tokens in range, every cell in conflict,
    and the verdict names the adjacency rule. *)
Example scenario_all_nines :
  let ev := judge 9999999999999999999999999999 false in
  ev_tokens ev = [9999999; 9999999; 9999999; 9999999]
  /\ range_ok (ev_range ev) = true
  /\ ev_m ev = 2%nat
  /\ adj_conflicts (ev_adj ev) = [0; 1; 2; 3]%nat
  /\ ev_pill ev = {| pill_kind := "bad"; pill_text := "REJECT";
                     pill_reason := "Adjacent tile conflict(s)" |}.
Proof. vm_compute. repeat split. Qed.

(** A single token passes shape and adjacency; the token 0 fails range. *)
Example scenario_single_token :
  ev_accepted (judge 1 false) = true
  /\ ev_squareOk (judge 0 true) = true
  /\ adj_ok (adjacencyConflicts [0] true) = true
  /\ range_bad (ev_range (judge 0 true)) = [{| bad_i := 0; bad_v := 0 |}]
  /\ pill_reason (ev_pill (judge 0 true)) = "One or more tokens out of range"%string.
Proof. vm_compute. repeat split. Qed.
